(** * The feature tab of the release coordinator page

    A shallow embedding of
    [core/templates/pages/release-coordinator-page/features-tab/features-tab.component.ts]
    and the properties of its rule editor: duplicate detection, change
    tracking, rule insertion and reordering, saving and reverting.

    The component edits JavaScript objects in place and copies them with
    lodash's [cloneDeep], so the editor state is a store of objects addressed
    by references.  The read-only algorithms (the validator, lodash's
    [isEqual], the server-stage predicate) are functions of the deep value
    that a reference denotes. *)

From stdpp Require Import strings pretty gmap list.

Open Scope string_scope.
Open Scope list_scope.
Open Scope nat_scope.

(** ** Deep values *)

(** Modelled from the spec: the enum [PlatformParameterFilterType] of
    [domain/platform_feature/platform-parameter-filter.model], whose three
    members the component names. *)
Inductive PlatformParameterFilterType :=
  | PlatformType
  | AppVersion
  | AppVersionFlavor.

Global Instance PlatformParameterFilterType_eq_dec :
  EqDecision PlatformParameterFilterType.
Proof. solve_decision. Defined.

(** A condition is the pair [[operator, operand]]. *)
Definition Condition : Type := string * string.

(** Modelled from the spec: the class [PlatformParameterFilter], declared
    in [domain/platform_feature]: a type and a sequence of conditions. *)
Record PlatformParameterFilter := mkFilter {
  type : PlatformParameterFilterType;
  conditions : list Condition
}.

(** Modelled from the spec: the class [PlatformParameterRule], declared in
    [domain/platform_feature]: a sequence of filters and the value when they
    all match. *)
Record PlatformParameterRule := mkRule {
  filters : list PlatformParameterFilter;
  valueWhenMatched : bool
}.

(** Modelled from the spec: the class [PlatformParameter], declared in
    [domain/platform_feature], with the fields that the component reads and
    writes.  [featureStage] is the string that the component compares with
    its stage names. *)
Record PlatformParameter := mkParam {
  name : string;
  featureStage : string;
  rules : list PlatformParameterRule
}.

Global Instance PlatformParameterFilter_eq_dec :
  EqDecision PlatformParameterFilter.
Proof. solve_decision. Defined.

Global Instance PlatformParameterRule_eq_dec :
  EqDecision PlatformParameterRule.
Proof. solve_decision. Defined.

(** ** lodash [isEqual]

    The library's deep comparison: two arrays are equal when they have the
    same length and equal elements at every index, two objects of one class
    when their fields are equal. *)

Module Lodash.

Fixpoint isEqualArray {A} (eq : A → A → bool) (xs ys : list A) : bool :=
  match xs, ys with
  | [], [] => true
  | x :: xs', y :: ys' => eq x y && isEqualArray eq xs' ys'
  | _, _ => false
  end.

Definition isEqualCondition (c d : Condition) : bool :=
  String.eqb c.1 d.1 && String.eqb c.2 d.2.

Definition isEqualFilter (f g : PlatformParameterFilter) : bool :=
  bool_decide (type f = type g)
  && isEqualArray isEqualCondition (conditions f) (conditions g).

Definition isEqualRule (r s : PlatformParameterRule) : bool :=
  isEqualArray isEqualFilter (filters r) (filters s)
  && Bool.eqb (valueWhenMatched r) (valueWhenMatched s).

Definition isEqualRules (rs ss : list PlatformParameterRule) : bool :=
  isEqualArray isEqualRule rs ss.

End Lodash.

(** ** JavaScript arrays *)

Module JsArray.
Local Open Scope Z_scope.

(** [Array.prototype.findIndex]: the index of the first element that
    satisfies [p], or [-1]. *)
Fixpoint findIndexFrom {A} (p : A → bool) (i : Z) (xs : list A) : Z :=
  match xs with
  | [] => -1
  | x :: xs' => if p x then i else findIndexFrom p (i + 1) xs'
  end.

Definition findIndex {A} (p : A → bool) (xs : list A) : Z :=
  findIndexFrom p 0 xs.

(** The start position that [Array.prototype.splice] computes from its first
    argument: a negative [start] counts from the end, and both ends clamp. *)
Definition spliceStart (len : nat) (start : Z) : nat :=
  if start <? 0 then Z.to_nat (Z.max (Z.of_nat len + start) 0)
  else Z.to_nat (Z.min start (Z.of_nat len)).

(** [xs.splice(start, deleteCount, ...items)]: the contents of [xs]
    afterwards. *)
Definition splice {A} (xs : list A) (start deleteCount : Z) (items : list A)
  : list A :=
  let s := spliceStart (length xs) start in
  let d := Z.to_nat (Z.min (Z.max deleteCount 0) (Z.of_nat (length xs - s))) in
  take s xs ++ items ++ drop (s + d) xs.

(** [xs[i]], with [None] for [undefined]: an index below [0] or past the end
    names no element. *)
Definition at_index {A} (xs : list A) (i : Z) : option A :=
  if i <? 0 then None else xs !! Z.to_nat i.

Definition unshift {A} (xs : list A) (x : A) : list A := x :: xs.
Definition push {A} (xs : list A) (x : A) : list A := xs ++ [x].

End JsArray.

(** ** The validator *)

Module Validator.
Import Lodash JsArray.
Local Open Scope Z_scope.

Definition ruleIssue (sameRuleIndex ruleIndex : Z) : string :=
  "The " +:+ pretty (sameRuleIndex + 1) +:+ "-th & "
  +:+ pretty (ruleIndex + 1) +:+ "-th rules are" +:+ " identical.".

Definition filterIssue (ruleIndex sameFilterIndex filterIndex : Z) : string :=
  "In the " +:+ pretty (ruleIndex + 1) +:+ "-th rule: the "
  +:+ pretty (sameFilterIndex + 1) +:+ "-th" +:+ " & "
  +:+ pretty (filterIndex + 1) +:+ "-th filters are identical.".

Definition conditionIssue
    (ruleIndex filterIndex sameCondIndex conditionIndex : Z) : string :=
  "In the " +:+ pretty (ruleIndex + 1) +:+ "-th rule, "
  +:+ pretty (filterIndex + 1) +:+ "-th" +:+ " filter: the "
  +:+ pretty (sameCondIndex + 1) +:+ "-th & "
  +:+ pretty (conditionIndex + 1) +:+ "-th conditions are identical.".

(** The innermost loop, over [filter.conditions.entries()] from
    [conditionIndex] on; [seenConditions] and [issues] are the two arrays it
    pushes to. *)
Fixpoint conditionsLoop (ruleIndex filterIndex conditionIndex : Z)
    (cs : list Condition)
    (seenConditions : list Condition) (issues : list string)
  : list Condition * list string :=
  match cs with
  | [] => (seenConditions, issues)
  | condition :: cs' =>
    let sameCondIndex :=
      findIndex (λ seenCond, isEqualCondition seenCond condition)
        seenConditions in
    if negb (sameCondIndex =? -1) then
      conditionsLoop ruleIndex filterIndex (conditionIndex + 1) cs'
        seenConditions
        (push issues
           (conditionIssue ruleIndex filterIndex sameCondIndex conditionIndex))
    else
      conditionsLoop ruleIndex filterIndex (conditionIndex + 1) cs'
        (push seenConditions condition) issues
  end.

(** The loop over [rule.filters.entries()]. *)
Fixpoint filtersLoop (ruleIndex filterIndex : Z)
    (fs : list PlatformParameterFilter)
    (seenFilters : list PlatformParameterFilter) (issues : list string)
  : list PlatformParameterFilter * list string :=
  match fs with
  | [] => (seenFilters, issues)
  | filter :: fs' =>
    let sameFilterIndex :=
      findIndex (λ seenFilter, isEqualFilter seenFilter filter) seenFilters in
    if negb (sameFilterIndex =? -1) then
      filtersLoop ruleIndex (filterIndex + 1) fs' seenFilters
        (push issues (filterIssue ruleIndex sameFilterIndex filterIndex))
    else
      let issues' :=
        (conditionsLoop ruleIndex filterIndex 0 (conditions filter) [] issues).2
      in
      filtersLoop ruleIndex (filterIndex + 1) fs'
        (push seenFilters filter) issues'
  end.

(** The loop over [feature.rules.entries()]. *)
Fixpoint rulesLoop (ruleIndex : Z) (rs : list PlatformParameterRule)
    (seenRules : list PlatformParameterRule) (issues : list string)
  : list PlatformParameterRule * list string :=
  match rs with
  | [] => (seenRules, issues)
  | rule :: rs' =>
    let sameRuleIndex :=
      findIndex (λ seenRule, isEqualRule seenRule rule) seenRules in
    if negb (sameRuleIndex =? -1) then
      rulesLoop (ruleIndex + 1) rs' seenRules
        (push issues (ruleIssue sameRuleIndex ruleIndex))
    else
      let issues' :=
        (filtersLoop ruleIndex 0 (filters rule) [] issues).2 in
      rulesLoop (ruleIndex + 1) rs' (push seenRules rule) issues'
  end.

(** [seenRules] when the outer loop ends. *)
Definition seenRulesOf (feature : PlatformParameter)
  : list PlatformParameterRule :=
  (rulesLoop 0 (rules feature) [] []).1.

Definition validateFeatureFlag (feature : PlatformParameter) : list string :=
  (rulesLoop 0 (rules feature) [] []).2.

End Validator.

(** ** The object store

    Objects live in a store and are named by references; allocation appends
    to the store, so a reference is an index and every index below the
    length of the store is allocated.  An array carries the static element
    type that TypeScript gives it. *)

Module Store.

Abbreviation loc := nat.

(** What an array slot holds: a reference, or [undefined]. *)
Inductive val :=
  | VUndefined
  | VRef (l : loc).

Inductive elemKind :=
  | KCondition   (* [string, string][] *)
  | KFilter      (* PlatformParameterFilter[] *)
  | KRule.       (* PlatformParameterRule[] *)

Global Instance elemKind_eq_dec : EqDecision elemKind.
Proof. solve_decision. Defined.

Inductive obj :=
  | OCondition (operator operand : string)
  | OArray (k : elemKind) (elems : list val)
  | OFilter (type : PlatformParameterFilterType) (conditions : loc)
  | ORule (filters : loc) (valueWhenMatched : bool)
  | OParam (name featureStage : string) (rules : loc).

Abbreviation heap := (list obj).

Definition alloc (o : obj) (h : heap) : loc * heap := (length h, h ++ [o]).

(** *** The deep value of a reference *)

Definition readCondition (h : heap) (v : val) : option Condition :=
  match v with
  | VRef l =>
    match h !! l with
    | Some (OCondition operator operand) => Some (operator, operand)
    | _ => None
    end
  | VUndefined => None
  end.

Definition readArray {A} (k : elemKind) (rd : val → option A)
    (h : heap) (l : loc) : option (list A) :=
  match h !! l with
  | Some (OArray k' vs) => if decide (k' = k) then mapM rd vs else None
  | _ => None
  end.

Definition readFilter (h : heap) (v : val) : option PlatformParameterFilter :=
  match v with
  | VRef l =>
    match h !! l with
    | Some (OFilter t cl) =>
      match readArray KCondition (readCondition h) h cl with
      | Some cs => Some (mkFilter t cs)
      | None => None
      end
    | _ => None
    end
  | VUndefined => None
  end.

Definition readRule (h : heap) (v : val) : option PlatformParameterRule :=
  match v with
  | VRef l =>
    match h !! l with
    | Some (ORule fl b) =>
      match readArray KFilter (readFilter h) h fl with
      | Some fs => Some (mkRule fs b)
      | None => None
      end
    | _ => None
    end
  | VUndefined => None
  end.

Definition readRules (h : heap) (l : loc)
  : option (list PlatformParameterRule) :=
  readArray KRule (readRule h) h l.

Definition readParam (h : heap) (l : loc) : option PlatformParameter :=
  match h !! l with
  | Some (OParam n stage rl) =>
    match readRules h rl with
    | Some rs => Some (mkParam n stage rs)
    | None => None
    end
  | _ => None
  end.

(** *** lodash [cloneDeep]

    The library's deep copy allocates a new object for every object it meets
    and leaves [undefined] as it is.  The copy is written out at each static
    type at which the component calls [cloneDeep]; a store whose objects do
    not have the shape of that type is outside the model ([None]).  An
    object that is met twice inside one value is copied twice here and once
    by the library; the values that the component builds are trees, in
    which no object is met twice. *)

Fixpoint cloneElems (cl : val → heap → option (val * heap))
    (vs : list val) (h : heap) : option (list val * heap) :=
  match vs with
  | [] => Some ([], h)
  | v :: vs' =>
    match cl v h with
    | Some (v', h1) =>
      match cloneElems cl vs' h1 with
      | Some (vs'', h2) => Some (v' :: vs'', h2)
      | None => None
      end
    | None => None
    end
  end.

Definition cloneArray (cl : val → heap → option (val * heap))
    (l : loc) (h : heap) : option (loc * heap) :=
  match h !! l with
  | Some (OArray k vs) =>
    match cloneElems cl vs h with
    | Some (vs', h1) => Some (alloc (OArray k vs') h1)
    | None => None
    end
  | _ => None
  end.

Definition cloneDeepCondition (v : val) (h : heap) : option (val * heap) :=
  match v with
  | VUndefined => Some (VUndefined, h)
  | VRef l =>
    match h !! l with
    | Some (OCondition operator operand) =>
      let '(l', h') := alloc (OCondition operator operand) h in
      Some (VRef l', h')
    | _ => None
    end
  end.

Definition cloneDeepFilter (v : val) (h : heap) : option (val * heap) :=
  match v with
  | VUndefined => Some (VUndefined, h)
  | VRef l =>
    match h !! l with
    | Some (OFilter t cl) =>
      match cloneArray cloneDeepCondition cl h with
      | Some (cl', h1) =>
        let '(l', h') := alloc (OFilter t cl') h1 in Some (VRef l', h')
      | None => None
      end
    | _ => None
    end
  end.

Definition cloneDeepRule (v : val) (h : heap) : option (val * heap) :=
  match v with
  | VUndefined => Some (VUndefined, h)
  | VRef l =>
    match h !! l with
    | Some (ORule fl b) =>
      match cloneArray cloneDeepFilter fl h with
      | Some (fl', h1) =>
        let '(l', h') := alloc (ORule fl' b) h1 in Some (VRef l', h')
      | None => None
      end
    | _ => None
    end
  end.

Definition cloneDeepRules (l : loc) (h : heap) : option (loc * heap) :=
  cloneArray cloneDeepRule l h.

Definition cloneDeepParam (l : loc) (h : heap) : option (loc * heap) :=
  match h !! l with
  | Some (OParam n stage rl) =>
    match cloneDeepRules rl h with
    | Some (rl', h1) => Some (alloc (OParam n stage rl') h1)
    | None => None
    end
  | _ => None
  end.

(** *** Reachability *)

Definition refs (vs : list val) : list loc :=
  omap (λ v, match v with VRef l => Some l | VUndefined => None end) vs.

(** The references that an object holds. *)
Definition children (o : obj) : list loc :=
  match o with
  | OCondition _ _ => []
  | OArray _ vs => refs vs
  | OFilter _ cl => [cl]
  | ORule fl _ => [fl]
  | OParam _ _ rl => [rl]
  end.

(** [reach h x y]: object [y] is [x] or can be reached from [x] by following
    references. *)
Inductive reach (h : heap) : loc → loc → Prop :=
  | reach_here x : reach h x x
  | reach_child x o c y :
      h !! x = Some o → c ∈ children o → reach h c y → reach h x y.

End Store.

(** ** The component *)

Module FeaturesTab.
Import Store JsArray Lodash Validator.

(** What [apiService.updateFeatureFlag] is called with; [callRules] is the
    deep value of the rules array that is sent. *)
Record ApiCall := mkCall {
  callName : string;
  callMessage : string;
  callRules : option (list PlatformParameterRule)
}.

(** The [error] field of an [HttpErrorResponse]: [None] when it is falsy,
    otherwise the body's own [error] field, [None] when that is absent. *)
Definition ErrorBody : Type := option (option string).

(** What a rejected call throws: an [HttpErrorResponse], or anything else,
    named here by a description. *)
Inductive Failure :=
  | HttpErrorResponse (error : ErrorBody)
  | OtherFailure (what : string).

Inductive ApiOutcome :=
  | Resolved
  | Rejected (e : Failure).

(** What the component does to the outside, in the order it does it: a
    request to the update API, or a message emitted on [setStatusMessage]. *)
Inductive Event :=
  | Request (c : ApiCall)
  | StatusMessage (m : string).

Record State := mkState {
  store : heap;
  serverStage : string;
  featureFlags : list loc;
  featureFlagNameToBackupMap : gmap string loc;
  defaultNewFilter : loc;
  defaultNewRule : loc;
  trace : list Event
}.

Definition setStore (h : heap) (st : State) : State :=
  mkState h (serverStage st) (featureFlags st)
    (featureFlagNameToBackupMap st) (defaultNewFilter st) (defaultNewRule st)
    (trace st).

Definition setBackupMap (m : gmap string loc) (st : State) : State :=
  mkState (store st) (serverStage st) (featureFlags st) m
    (defaultNewFilter st) (defaultNewRule st) (trace st).

Definition record (e : Event) (st : State) : State :=
  mkState (store st) (serverStage st) (featureFlags st)
    (featureFlagNameToBackupMap st) (defaultNewFilter st) (defaultNewRule st)
    (push (trace st) e).

(** How a method ends: it returns, it throws [new Error(message)], or the
    store does not have the shape that the types promise ([Stuck], outside
    the model). *)
Inductive Completion (A : Type) :=
  | Returned (a : A) (st : State)
  | Thrown (message : string) (st : State)
  | Stuck.
Arguments Returned {A} a st.
Arguments Thrown {A} message st.
Arguments Stuck {A}.

Definition bind {A B} (m : Completion A) (f : A → State → Completion B)
  : Completion B :=
  match m with
  | Returned a st => f a st
  | Thrown message st => Thrown message st
  | Stuck => Stuck
  end.

(** [feature.rules]: the array object and its slots. *)
Definition rulesOf (h : heap) (feature : loc) : option (loc * list val) :=
  match h !! feature with
  | Some (OParam _ _ rl) =>
    match h !! rl with
    | Some (OArray KRule vs) => Some (rl, vs)
    | _ => None
    end
  | _ => None
  end.

(** [feature.rules.splice(start, deleteCount, ...items)]. *)
Definition spliceRules (feature : loc) (start deleteCount : Z)
    (items : list val) (st : State) : Completion unit :=
  match rulesOf (store st) feature with
  | Some (rl, vs) =>
    Returned tt
      (setStore (<[rl := OArray KRule (splice vs start deleteCount items)]>
                   (store st)) st)
  | None => Stuck
  end.

Definition addNewRuleToTop (feature : loc) (st : State) : Completion unit :=
  match rulesOf (store st) feature with
  | Some (rl, vs) =>
    match cloneDeepRule (VRef (defaultNewRule st)) (store st) with
    | Some (v, h1) =>
      Returned tt (setStore (<[rl := OArray KRule (unshift vs v)]> h1) st)
    | None => Stuck
    end
  | None => Stuck
  end.

Definition addNewRuleToBottom (feature : loc) (st : State)
  : Completion unit :=
  match rulesOf (store st) feature with
  | Some (rl, vs) =>
    match cloneDeepRule (VRef (defaultNewRule st)) (store st) with
    | Some (v, h1) =>
      Returned tt (setStore (<[rl := OArray KRule (push vs v)]> h1) st)
    | None => Stuck
    end
  | None => Stuck
  end.

Definition removeRule (feature : loc) (ruleIndex : Z) (st : State)
  : Completion unit :=
  spliceRules feature ruleIndex 1 [] st.

(** [feature.rules[ruleIndex]]. *)
Definition ruleAt (feature : loc) (ruleIndex : Z) (st : State)
  : Completion val :=
  match rulesOf (store st) feature with
  | Some (_, vs) => Returned (default VUndefined (at_index vs ruleIndex)) st
  | None => Stuck
  end.

Definition moveRuleUp (feature : loc) (ruleIndex : Z) (st : State)
  : Completion unit :=
  bind (ruleAt feature ruleIndex st) (λ rule st1,
  bind (removeRule feature ruleIndex st1) (λ _ st2,
  spliceRules feature (ruleIndex - 1) 0 [rule] st2)).

Definition moveRuleDown (feature : loc) (ruleIndex : Z) (st : State)
  : Completion unit :=
  bind (ruleAt feature ruleIndex st) (λ rule st1,
  bind (removeRule feature ruleIndex st1) (λ _ st2,
  spliceRules feature (ruleIndex + 1) 0 [rule] st2)).

Definition DEV_SERVER_STAGE : string := "dev".
Definition TEST_SERVER_STAGE : string := "test".
Definition PROD_SERVER_STAGE : string := "prod".

Definition getFeatureValidOnCurrentServer (st : State) (feature : loc)
  : option bool :=
  match store st !! feature with
  | Some (OParam _ stage _) =>
    Some
      (if String.eqb (serverStage st) DEV_SERVER_STAGE then true
       else if String.eqb (serverStage st) TEST_SERVER_STAGE then
         if String.eqb stage TEST_SERVER_STAGE
            || String.eqb stage PROD_SERVER_STAGE then true else false
       else if String.eqb (serverStage st) PROD_SERVER_STAGE then
         if String.eqb stage PROD_SERVER_STAGE then true else false
       else false)
  | _ => None
  end.

(** JavaScript truthiness of [e.error && e.error.error]: the body and its
    [error] field are there and the field is not the empty string. *)
Definition serverMessage (error : ErrorBody) : option string :=
  match error with
  | Some (Some m) => if String.eqb m EmptyString then None else Some m
  | _ => None
  end.

Section Persistence.

(** [apiService.updateFeatureFlag]: how the backend answers a call, given
    everything the component did before. *)
Variable updateFeatureFlagApi : list Event → ApiCall → ApiOutcome.

Definition updateFeatureFlag (feature : loc) (commitMessage : string)
    (st : State) : Completion unit :=
  match store st !! feature with
  | Some (OParam n _ rl) =>
    let call := mkCall n commitMessage (readRules (store st) rl) in
    let st1 := record (Request call) st in
    match updateFeatureFlagApi (trace st) call with
    | Resolved =>
      match cloneDeepParam feature (store st1) with
      | Some (b, h') =>
        Returned tt
          (record (StatusMessage "Saved successfully.")
             (setBackupMap (<[n := b]> (featureFlagNameToBackupMap st1))
                (setStore h' st1)))
      | None => Stuck
      end
    | Rejected (HttpErrorResponse error) =>
      match serverMessage error with
      | Some m =>
        Returned tt (record (StatusMessage ("Update failed: " +:+ m)) st1)
      | None => Returned tt (record (StatusMessage "Update failed.") st1)
      end
    | Rejected (OtherFailure _) => Thrown "Unexpected error response." st1
    end
  | _ => Stuck
  end.

(** The body of [for (let feature of this.featureFlags)]. *)
Fixpoint saveEach (features : list loc) (st : State) : Completion unit :=
  match features with
  | [] => Returned tt st
  | feature :: rest =>
    match store st !! feature with
    | Some (OParam n _ _) =>
      let commitMessage := "Update default value for '" +:+ n +:+ "'." in
      bind (updateFeatureFlag feature commitMessage st) (λ _ st1,
      saveEach rest st1)
    | _ => Stuck
    end
  end.

(** [confirmed] is the answer to [window.confirm]. *)
Definition saveDefaultValueToStorage (confirmed : bool) (st : State)
  : Completion unit :=
  if negb confirmed then Returned tt st
  else saveEach (featureFlags st) st.

End Persistence.

(** [confirmed] is the answer to [window.confirm]. *)
Definition clearChanges (confirmed : bool) (featureFlag : loc) (st : State)
  : Completion unit :=
  if negb confirmed then Returned tt st
  else
    match store st !! featureFlag with
    | Some (OParam n stage rl) =>
      match featureFlagNameToBackupMap st !! n with
      | Some backup =>
        match store st !! backup with
        | Some (OParam _ _ brl) =>
          match cloneDeepRules brl (store st) with
          | Some (rl', h1) =>
            Returned tt
              (setStore (<[featureFlag := OParam n stage rl']> h1) st)
          | None => Stuck
          end
        | _ => Stuck
        end
      | None => Returned tt st
      end
    | _ => Stuck
    end.

(** [isEqual(a, b)] on two rule arrays of the store. *)
Definition isEqualAt (h : heap) (a b : loc) : option bool :=
  match readRules h a, readRules h b with
  | Some rs, Some ss => Some (isEqualRules rs ss)
  | _, _ => None
  end.

Definition isFeatureFlagChanged (feature : loc) (st : State)
  : Completion bool :=
  match store st !! feature with
  | Some (OParam n _ rl) =>
    match featureFlagNameToBackupMap st !! n with
    | None => Thrown ("Backup not found for feature flag: " +:+ n) st
    | Some original =>
      match store st !! original with
      | Some (OParam _ _ orl) =>
        match isEqualAt (store st) orl rl with
        | Some b => Returned (negb b) st
        | None => Stuck
        end
      | _ => Stuck
      end
    end
  | _ => Stuck
  end.

(** [validateFeatureFlag] as a method: it reads the flag and returns the
    issues. *)
Definition validateFeatureFlagOf (feature : loc) (st : State)
  : Completion (list string) :=
  match readParam (store st) feature with
  | Some p => Returned (validateFeatureFlag p) st
  | None => Stuck
  end.

(** *** Construction and loading *)

(** Modelled from the spec: [createFromBackendDict] of the three classes of
    [domain/platform_feature] is not part of this file's source.  It builds,
    from the plain data of a backend dict, one new object per condition,
    filter, rule and flag, and one new array per sequence; [newElems] does
    so for the elements of a sequence, in order. *)
Fixpoint newElems {A} (new : A → heap → val * heap) (xs : list A) (h : heap)
  : list val * heap :=
  match xs with
  | [] => ([], h)
  | x :: xs' =>
    let '(v, h1) := new x h in
    let '(vs, h2) := newElems new xs' h1 in
    (v :: vs, h2)
  end.

(** Modelled from the spec: a condition of a backend dict becomes a new
    pair. *)
Definition newCondition (c : Condition) (h : heap) : val * heap :=
  let '(l, h1) := alloc (OCondition c.1 c.2) h in (VRef l, h1).

(** Modelled from the spec: [PlatformParameterFilter.createFromBackendDict],
    which is not part of this file's source. *)
Definition newFilter (f : PlatformParameterFilter) (h : heap) : val * heap :=
  let '(vs, h1) := newElems newCondition (conditions f) h in
  let '(cl, h2) := alloc (OArray KCondition vs) h1 in
  let '(l, h3) := alloc (OFilter (type f) cl) h2 in
  (VRef l, h3).

(** Modelled from the spec: [PlatformParameterRule.createFromBackendDict],
    which is not part of this file's source. *)
Definition newRule (r : PlatformParameterRule) (h : heap) : val * heap :=
  let '(vs, h1) := newElems newFilter (filters r) h in
  let '(fl, h2) := alloc (OArray KFilter vs) h1 in
  let '(l, h3) := alloc (ORule fl (valueWhenMatched r)) h2 in
  (VRef l, h3).

(** Modelled from the spec: [PlatformParameter.createFromBackendDict], which
    is not part of this file's source. *)
Definition newParam (p : PlatformParameter) (h : heap) : val * heap :=
  let '(vs, h1) := newElems newRule (rules p) h in
  let '(rl, h2) := alloc (OArray KRule vs) h1 in
  let '(l, h3) := alloc (OParam (name p) (featureStage p) rl) h2 in
  (VRef l, h3).

(** The value of [defaultNewFilter]. *)
Definition defaultFilterValue : PlatformParameterFilter :=
  mkFilter PlatformType [].

(** The value of [defaultNewRule]. *)
Definition defaultRuleValue : PlatformParameterRule :=
  mkRule [defaultFilterValue] false.

(** The component once its field initialisers have run. *)
Definition newComponent : State :=
  let '(f, h1) := newFilter defaultFilterValue [] in
  let '(r, h2) := newRule defaultRuleValue h1 in
  mkState h2 EmptyString [] ∅
    (match f with VRef l => l | VUndefined => 0%nat end)
    (match r with VRef l => l | VUndefined => 0%nat end)
    [].

(** [new Map(this.featureFlags.map(feature => [feature.name,
    cloneDeep(feature)]))]: the copies are made in list order and a later
    entry replaces an earlier one of the same name. *)
Fixpoint backupAll (features : list loc) (m : gmap string loc) (h : heap)
  : option (gmap string loc * heap) :=
  match features with
  | [] => Some (m, h)
  | feature :: rest =>
    match h !! feature with
    | Some (OParam n _ _) =>
      match cloneDeepParam feature h with
      | Some (b, h1) => backupAll rest (<[n := b]> m) h1
      | None => None
      end
    | _ => None
    end
  end.

(** [reloadFeatureFlagsAsync], given what [apiService.getFeatureFlags]
    resolves to. *)
Definition reloadFeatureFlagsAsync (dataServerStage : string)
    (dataFeatureFlags : list PlatformParameter) (st : State)
  : Completion unit :=
  let '(vs, h1) := newElems newParam dataFeatureFlags (store st) in
  match backupAll (refs vs) ∅ h1 with
  | Some (m, h2) =>
    Returned tt
      (mkState h2 dataServerStage (refs vs) m
         (defaultNewFilter st) (defaultNewRule st) (trace st))
  | None => Stuck
  end.

End FeaturesTab.

(** ** The rest of the editor *)

Module RuleEditor.
Import Store JsArray Lodash Validator FeaturesTab.

(** [xs.splice(start)]: without a delete count, everything from the start
    position on is removed. *)
Definition spliceFrom {A} (xs : list A) (start : Z) : list A :=
  take (spliceStart (length xs) start) xs.

(** An entry of [filterTypeToContext], without the fields that only the
    template reads ([optionFilter], [inputRegex]). *)
Record FilterContext := mkContext {
  displayName : string;
  operators : list string;
  options : option (list string);
  placeholder : option string
}.

Section Contexts.

(** [AdminFeaturesTabConstants.ALLOWED_PLATFORM_TYPES] and
    [AdminFeaturesTabConstants.ALLOWED_APP_VERSION_FLAVORS], which are
    declared in [features-tab.constants]. *)
Variable ALLOWED_PLATFORM_TYPES : list string.
Variable ALLOWED_APP_VERSION_FLAVORS : list string.

Definition filterTypeToContext (t : PlatformParameterFilterType)
  : FilterContext :=
  match t with
  | PlatformType =>
    mkContext "Platform Type" ["="] (Some ALLOWED_PLATFORM_TYPES) None
  | AppVersion =>
    mkContext "App Version" ["="; "<"; ">"; "<="; ">="] None
      (Some "e.g. 1.0.0")
  | AppVersionFlavor =>
    mkContext "App Version Flavor" ["="; "<"; ">"; "<="; ">="]
      (Some ALLOWED_APP_VERSION_FLAVORS) None
  end.

(** [filter.conditions.push([context.operators[0], context.options ?
    context.options[0] : ''])].  An options array is truthy even when it is
    empty; its first element is then [undefined], which no condition of the
    model holds ([Stuck]). *)
Definition addNewCondition (filter : loc) (st : State) : Completion unit :=
  match store st !! filter with
  | Some (OFilter t cl) =>
    match store st !! cl with
    | Some (OArray KCondition vs) =>
      let context := filterTypeToContext t in
      let operand :=
        match options context with
        | Some opts => opts !! 0
        | None => Some EmptyString
        end in
      match operators context !! 0, operand with
      | Some operator, Some operand =>
        let '(l, h1) := alloc (OCondition operator operand) (store st) in
        Returned tt
          (setStore (<[cl := OArray KCondition (push vs (VRef l))]> h1) st)
      | _, _ => Stuck
      end
    | _ => Stuck
    end
  | _ => Stuck
  end.

End Contexts.


Definition removeFilter (rule : loc) (filterIndex : Z) (st : State)
  : Completion unit :=
  match store st !! rule with
  | Some (ORule fl _) =>
    match store st !! fl with
    | Some (OArray KFilter vs) =>
      Returned tt
        (setStore (<[fl := OArray KFilter (splice vs filterIndex 1 [])]>
                     (store st)) st)
    | _ => Stuck
    end
  | _ => Stuck
  end.

Definition removeCondition (filter : loc) (conditionIndex : Z) (st : State)
  : Completion unit :=
  match store st !! filter with
  | Some (OFilter _ cl) =>
    match store st !! cl with
    | Some (OArray KCondition vs) =>
      Returned tt
        (setStore (<[cl := OArray KCondition (splice vs conditionIndex 1 [])]>
                     (store st)) st)
    | _ => Stuck
    end
  | _ => Stuck
  end.

Definition clearFilterConditions (filter : loc) (st : State)
  : Completion unit :=
  match store st !! filter with
  | Some (OFilter _ cl) =>
    match store st !! cl with
    | Some (OArray KCondition vs) =>
      Returned tt
        (setStore (<[cl := OArray KCondition (spliceFrom vs 0)]> (store st))
           st)
    | _ => Stuck
    end
  | _ => Stuck
  end.



End RuleEditor.

(** ** Vocabulary of the properties *)

Module Vocabulary.
Import Store JsArray Lodash Validator FeaturesTab.

(** No two sibling filters of the rule are equal, and no two sibling
    conditions of any of its filters. *)
Definition distinctInside (r : PlatformParameterRule) : Prop :=
  NoDup (filters r) ∧ Forall (λ f, NoDup (conditions f)) (filters r).

Global Instance distinctInside_dec r : Decision (distinctInside r).
Proof. unfold distinctInside. apply _. Defined.


(** The rule sequence with [r] put in at index [k]. *)
Definition withRuleAt (k : nat) (r : PlatformParameterRule)
    (feature : PlatformParameter) : PlatformParameter :=
  mkParam (name feature) (featureStage feature)
    (take k (rules feature) ++ r :: drop k (rules feature)).

(** [vs'] is [vs] with the elements at [i] and [i + 1] exchanged. *)
Definition swapped {A} (i : nat) (vs vs' : list A) : Prop :=
  length vs' = length vs
  ∧ vs' !! i = vs !! S i
  ∧ vs' !! S i = vs !! i
  ∧ ∀ j, j ≠ i → j ≠ S i → vs' !! j = vs !! j.

(** The objects that make up the value of a rule. *)
Definition in_rule (o : obj) : Prop :=
  match o with
  | OArray KRule _ | OParam _ _ _ => False
  | _ => True
  end.

(** The objects that make up the value of a rules array. *)
Definition in_rules (o : obj) : Prop :=
  match o with
  | OParam _ _ _ => False
  | _ => True
  end.

(** [h2] has every object of [h] that is of sort [K], at the same
    reference. *)
Definition sub (K : obj → Prop) (h h2 : heap) : Prop :=
  ∀ l o, h !! l = Some o → K o → h2 !! l = Some o.

(** The objects [k], allocated from reference [n] on, refer to nothing
    below [n]. *)
Definition fresh_from (n : nat) (k : list obj) : Prop :=
  Forall (λ o, Forall (λ c, n ≤ c) (children o)) k.

(** [h2] has the objects [k] where they were allocated, from [n] on. *)
Definition keeps (n : nat) (k : list obj) (h2 : heap) : Prop :=
  ∀ i o, k !! i = Some o → h2 !! (n + i) = Some o.

(** [cl] copies what [rd] reads: the copy is a new object, the objects
    allocated for it refer to new objects only, and they alone determine
    that the copy reads as the original did. *)
Definition copies {A} (rd : heap → val → option A)
    (cl : val → heap → option (val * heap)) : Prop :=
  ∀ h v a, rd h v = Some a →
    ∃ l' k, cl v h = Some (VRef l', h ++ k)
      ∧ length h ≤ l' < length h + length k
      ∧ fresh_from (length h) k
      ∧ ∀ h2, keeps (length h) k h2 → rd h2 (VRef l') = Some a.

(** The same, for an array named by its reference. *)
Definition copiesAt {A} (rd : heap → loc → option A)
    (cl : loc → heap → option (loc * heap)) : Prop :=
  ∀ h l a, rd h l = Some a →
    ∃ l' k, cl l h = Some (l', h ++ k)
      ∧ length h ≤ l' < length h + length k
      ∧ fresh_from (length h) k
      ∧ ∀ h2, keeps (length h) k h2 → rd h2 l' = Some a.

(** [rd] keeps its result when the store grows. *)
Definition stable {A} (rd : heap → val → option A) : Prop :=
  ∀ h k v a, rd h v = Some a → rd (h ++ k) v = Some a.

(** What it means that [l'] is a deep copy just made, when the store went
    from [h] to [h'] and the array [rl] was the only old object written:
    - the copy and every object reachable from it are new;
    - it reads as [r];
    - every other old object is what it was, and every rule that could be
      read before reads the same;
    - writing to any object of the copy changes no rule that could be read
      before;
    - writing to any old object does not change what the copy reads as. *)
Definition freshCopy (h h' : heap) (rl l' : loc) (r : PlatformParameterRule)
  : Prop :=
  length h ≤ l'
  ∧ (∀ y, reach h' l' y → length h ≤ y)
  ∧ readRule h' (VRef l') = Some r
  ∧ (∀ l o, l ≠ rl → h !! l = Some o → h' !! l = Some o)
  ∧ (∀ v r', readRule h v = Some r' → readRule h' v = Some r')
  ∧ (∀ x o, reach h' l' x →
       ∀ v r', readRule h v = Some r' → readRule (<[x := o]> h') v = Some r')
  ∧ (∀ x o, x < length h → readRule (<[x := o]> h') (VRef l') = Some r).

(** The commit message that the bulk save generates for a flag. *)
Definition commitMessageFor (n : string) : string :=
  "Update default value for '" +:+ n +:+ "'.".

(** The request that the bulk save makes for a flag of value [p]. *)
Definition callFor (p : PlatformParameter) : ApiCall :=
  mkCall (name p) (commitMessageFor (name p)) (Some (rules p)).

(** The status message that ends a save, for the answers that end one. *)
Definition notification (o : ApiOutcome) : option string :=
  match o with
  | Resolved => Some "Saved successfully."
  | Rejected (HttpErrorResponse error) =>
    Some match serverMessage error with
         | Some m => "Update failed: " +:+ m
         | None => "Update failed."
         end
  | Rejected (OtherFailure _) => None
  end.

(** [saved api tr ps tr']: from the trace [tr] on, the flags [ps] are saved
    one after the other, each request answered and its status message
    emitted before the next request is made; the trace is then [tr']. *)
Inductive saved (api : list Event → ApiCall → ApiOutcome)
  : list Event → list PlatformParameter → list Event → Prop :=
  | saved_none tr : saved api tr [] tr
  | saved_next tr p ps m tr' :
      notification (api tr (callFor p)) = Some m →
      saved api (tr ++ [Request (callFor p); StatusMessage m]) ps tr' →
      saved api tr (p :: ps) tr'.

End Vocabulary.

(** ** Example data *)

Module Examples.
Import Store JsArray Lodash Validator FeaturesTab Vocabulary.

Definition webRule : PlatformParameterRule :=
  mkRule [mkFilter PlatformType [("=", "Web")]] true.

Definition versionRule : PlatformParameterRule :=
  mkRule [mkFilter AppVersion [(">=", "1.0.0"); ("<", "2.0.0")]] true.

Definition flavorRule : PlatformParameterRule :=
  mkRule [mkFilter PlatformType [("=", "Android")];
          mkFilter AppVersionFlavor [("=", "beta")]] false.

Definition fooFlag : PlatformParameter :=
  mkParam "Foo" "dev" [webRule; versionRule; flavorRule].

Definition barFlag : PlatformParameter :=
  mkParam "Bar" "test" [webRule; versionRule].

Definition bazFlag : PlatformParameter := mkParam "Baz" "prod" [].

(** [webRule] at the indices 0 and 2. *)
Definition fooFlagWithDuplicate : PlatformParameter :=
  mkParam "Foo" "dev" [webRule; versionRule; webRule; flavorRule].

Definition stateOf {A} (c : Completion A) : State :=
  match c with
  | Returned _ st | Thrown _ st => st
  | Stuck => newComponent
  end.

(** The component after it loaded three flags from a test server. *)
Definition loaded : State :=
  stateOf (reloadFeatureFlagsAsync "test" [fooFlag; barFlag; bazFlag]
             newComponent).

Definition foo : loc := default 0 (featureFlags loaded !! 0).
Definition bar : loc := default 0 (featureFlags loaded !! 1).
Definition baz : loc := default 0 (featureFlags loaded !! 2).

Definition fooRules : loc * list val :=
  default (0, []) (rulesOf (store loaded) foo).

Definition fooBackup : loc :=
  default 0 (featureFlagNameToBackupMap loaded !! "Foo").

(** The same component with its backups lost. *)
Definition loadedWithoutBackups : State := setBackupMap ∅ loaded.

(** [loaded] after the first rule of [Foo] was removed. *)
Definition edited : State := stateOf (removeRule foo 0 loaded).

(** A backend that accepts [Foo], fails on [Bar] with something that is not
    an [HttpErrorResponse], and rejects every other flag with a message. *)
Definition failingOnBar (_ : list Event) (c : ApiCall) : ApiOutcome :=
  if String.eqb (callName c) "Foo" then Resolved
  else if String.eqb (callName c) "Bar" then
    Rejected (OtherFailure "TypeError: Failed to fetch")
  else Rejected (HttpErrorResponse (Some (Some "Not allowed."))).

(** A backend that accepts [Foo] and rejects every other flag, [Bar] with a
    message and the rest without one. *)
Definition rejectingOthers (_ : list Event) (c : ApiCall) : ApiOutcome :=
  if String.eqb (callName c) "Foo" then Resolved
  else if String.eqb (callName c) "Bar" then
    Rejected (HttpErrorResponse (Some (Some "Not allowed.")))
  else Rejected (HttpErrorResponse (Some None)).

End Examples.

(** ** Vocabulary and example data of the further properties *)

Module MoreVocabulary.
Import Store JsArray Lodash Validator FeaturesTab Vocabulary.

(** The objects that make up the value of a filter. *)
Definition in_filter (o : obj) : Prop :=
  match o with
  | OCondition _ _ | OArray KCondition _ | OFilter _ _ => True
  | _ => False
  end.

(** The objects that make up the value of a condition. *)
Definition in_condition (o : obj) : Prop :=
  match o with
  | OCondition _ _ => True
  | _ => False
  end.

(** [new] builds an object that [rd] reads as the value it was built
    from. *)
Definition builds_spec {A} (rd : heap → val → option A)
    (new : A → heap → val * heap) : Prop :=
  ∀ x h, ∃ l k, new x h = (VRef l, h ++ k) ∧ rd (h ++ k) (VRef l) = Some x.

(** A flag named by a slot. *)
Definition readParamAt (h : heap) (v : val) : option PlatformParameter :=
  match v with
  | VRef l => readParam h l
  | VUndefined => None
  end.

(** The state on a server of stage [s]. *)
Definition onServer (s : string) (st : State) : State :=
  mkState (store st) s (featureFlags st) (featureFlagNameToBackupMap st)
    (defaultNewFilter st) (defaultNewRule st) (trace st).

End MoreVocabulary.

Module MoreExamples.
Import Store JsArray Lodash Validator FeaturesTab Vocabulary Examples.
Import RuleEditor.

Definition webFilter : PlatformParameterFilter :=
  mkFilter PlatformType [("=", "Web")].

(** A rule whose first and third filter are equal. *)
Definition ruleWithDuplicateFilter : PlatformParameterRule :=
  mkRule [webFilter; mkFilter AppVersion [(">=", "1.0.0")]; webFilter] true.

Definition flagWithDuplicateFilter : PlatformParameter :=
  mkParam "Foo" "dev" [webRule; ruleWithDuplicateFilter].

(** A rule whose second filter has its first condition again as the
    third. *)
Definition ruleWithDuplicateCondition : PlatformParameterRule :=
  mkRule [webFilter;
          mkFilter AppVersion [(">=", "1.0.0"); ("<", "2.0.0");
                               (">=", "1.0.0")]] true.

Definition flagWithDuplicateCondition : PlatformParameter :=
  mkParam "Foo" "dev" [webRule; ruleWithDuplicateCondition].


(** Two pairs of equal rules, [webRule] at the positions 1 and 2 and
    [versionRule] at the positions 3 and 4. *)
Definition flagWithTwoPairs : PlatformParameter :=
  mkParam "Foo" "dev" [webRule; webRule; versionRule; versionRule].

End MoreExamples.

(** * Properties *)

(** ** Deep equality *)

Module LodashFacts.
Import Lodash.

Lemma isEqualArray_spec {A} (eq : A → A → bool) :
  (∀ x y, eq x y = true ↔ x = y) →
  ∀ xs ys, isEqualArray eq xs ys = true ↔ xs = ys.
Proof.
  intros Heq xs. induction xs as [|x xs IH]; intros [|y ys]; simpl;
    try (split; [discriminate | discriminate]); [done|].
  rewrite andb_true_iff, Heq, IH. split.
  - by intros [-> ->].
  - by intros [= -> ->].
Qed.

Lemma isEqualCondition_spec c d : isEqualCondition c d = true ↔ c = d.
Proof.
  destruct c as [a b], d as [a' b']. unfold isEqualCondition. simpl.
  rewrite andb_true_iff, !String.eqb_eq. split.
  - by intros [-> ->].
  - by intros [= -> ->].
Qed.

Lemma isEqualFilter_spec f g : isEqualFilter f g = true ↔ f = g.
Proof.
  destruct f as [t cs], g as [t' cs']. unfold isEqualFilter. simpl.
  rewrite andb_true_iff, bool_decide_eq_true,
    (isEqualArray_spec _ isEqualCondition_spec). split.
  - by intros [-> ->].
  - by intros [= -> ->].
Qed.

Lemma isEqualRule_spec r s : isEqualRule r s = true ↔ r = s.
Proof.
  destruct r as [fs b], s as [fs' b']. unfold isEqualRule. simpl.
  rewrite andb_true_iff, Bool.eqb_true_iff,
    (isEqualArray_spec _ isEqualFilter_spec). split.
  - by intros [-> ->].
  - by intros [= -> ->].
Qed.

Lemma isEqualRules_spec rs ss : isEqualRules rs ss = true ↔ rs = ss.
Proof. apply isEqualArray_spec, isEqualRule_spec. Qed.

End LodashFacts.

(** ** Arrays *)

Module JsArrayFacts.
Import JsArray.
Local Open Scope Z_scope.

Lemma findIndexFrom_absent {A} (p : A → bool) i xs :
  Forall (λ x, p x = false) xs → findIndexFrom p i xs = -1.
Proof.
  intros H. revert i. induction H as [|x xs Hx _ IH]; intros i; simpl; [done|].
  by rewrite Hx.
Qed.

Lemma findIndexFrom_first {A} (p : A → bool) i before x after :
  Forall (λ y, p y = false) before → p x = true →
  findIndexFrom p i (before ++ x :: after) = i + Z.of_nat (length before).
Proof.
  intros H Hx. revert i. induction H as [|y ys Hy _ IH]; intros i; simpl.
  - rewrite Hx. lia.
  - rewrite Hy, IH. lia.
Qed.

Lemma findIndex_absent {A} (p : A → bool) xs :
  Forall (λ x, p x = false) xs → findIndex p xs = -1.
Proof. apply findIndexFrom_absent. Qed.

Lemma findIndex_first {A} (p : A → bool) before x after :
  Forall (λ y, p y = false) before → p x = true →
  findIndex p (before ++ x :: after) = Z.of_nat (length before).
Proof. intros. unfold findIndex. by rewrite findIndexFrom_first. Qed.

Lemma splice_delete {A} (xs : list A) (i : nat) :
  (i < length xs)%nat →
  splice xs (Z.of_nat i) 1 [] = take i xs ++ drop (S i) xs.
Proof.
  intros Hi. unfold splice, spliceStart.
  destruct (Z.ltb_spec (Z.of_nat i) 0); [lia|].
  replace (Z.to_nat (Z.of_nat i `min` Z.of_nat (length xs))) with i by lia.
  replace (i + Z.to_nat ((1 `max` 0) `min` Z.of_nat (length xs - i)))%nat
    with (S i) by lia.
  done.
Qed.

(** An insertion at a start position inside the array, or at its end. *)
Lemma splice_insert {A} (xs : list A) (k : nat) (x : A) :
  (k ≤ length xs)%nat →
  splice xs (Z.of_nat k) 0 [x] = take k xs ++ x :: drop k xs.
Proof.
  intros Hk. unfold splice, spliceStart.
  destruct (Z.ltb_spec (Z.of_nat k) 0); [lia|].
  replace (Z.to_nat (Z.of_nat k `min` Z.of_nat (length xs))) with k by lia.
  replace (k + Z.to_nat ((0 `max` 0) `min` Z.of_nat (length xs - k)))%nat
    with k by lia.
  done.
Qed.

(** A start position past the end clamps to the end. *)
Lemma splice_insert_past {A} (xs : list A) (start : Z) (x : A) :
  Z.of_nat (length xs) ≤ start → splice xs start 0 [x] = xs ++ [x].
Proof.
  intros Hk. unfold splice, spliceStart.
  destruct (Z.ltb_spec start 0); [lia|].
  replace (Z.to_nat (start `min` Z.of_nat (length xs))) with (length xs) by lia.
  rewrite Nat.sub_diag. simpl. rewrite Nat.add_0_r.
  by rewrite firstn_all, drop_all.
Qed.

(** A negative start position counts from the end: [-1] inserts before the
    last element, or at the front of an array without one. *)
Lemma splice_insert_minus_one {A} (xs : list A) (x : A) :
  splice xs (-1) 0 [x]
  = take (length xs - 1) xs ++ x :: drop (length xs - 1) xs.
Proof.
  unfold splice, spliceStart. simpl.
  replace (Z.to_nat ((Z.of_nat (length xs) + -1) `max` 0))
    with (length xs - 1)%nat by lia.
  do 3 f_equal. lia.
Qed.

Lemma at_index_nat {A} (xs : list A) (i : nat) :
  at_index xs (Z.of_nat i) = xs !! i.
Proof.
  unfold at_index. destruct (Z.ltb_spec (Z.of_nat i) 0); [lia|].
  by rewrite Nat2Z.id.
Qed.

End JsArrayFacts.

(** ** The validator *)

Module ValidatorFacts.
Import Lodash JsArray Validator Vocabulary LodashFacts JsArrayFacts.
Local Open Scope Z_scope.

Lemma absent_from_seen {A} (eq : A → A → bool) (x : A) seen :
  (∀ a b, eq a b = true ↔ a = b) → x ∉ seen →
  findIndex (λ s, eq s x) seen = -1.
Proof.
  intros Heq Hx. apply findIndex_absent. apply Forall_forall. intros y Hy.
  destruct (eq y x) eqn:E; [|done]. apply Heq in E. subst. contradiction.
Qed.

Lemma conditionsLoop_distinct ri fi ci cs seen issues :
  NoDup (seen ++ cs) →
  conditionsLoop ri fi ci cs seen issues = (seen ++ cs, issues).
Proof.
  revert ci seen. induction cs as [|c cs IH]; intros ci seen Hnd; simpl.
  - by rewrite app_nil_r.
  - rewrite (absent_from_seen isEqualCondition); [simpl|
      apply isEqualCondition_spec|].
    + unfold push. rewrite IH; rewrite <- app_assoc; done.
    + apply NoDup_app in Hnd as (_ & Hd & _). intros Hin.
      apply (Hd _ Hin). left.
Qed.

Lemma filtersLoop_distinct ri fi fs seen issues :
  NoDup (seen ++ fs) → Forall (λ f, NoDup (conditions f)) fs →
  filtersLoop ri fi fs seen issues = (seen ++ fs, issues).
Proof.
  revert fi seen. induction fs as [|f fs IH]; intros fi seen Hnd Hin; simpl.
  - by rewrite app_nil_r.
  - apply Forall_cons in Hin as [Hf Hin].
    rewrite (absent_from_seen isEqualFilter); [simpl|
      apply isEqualFilter_spec|].
    + rewrite conditionsLoop_distinct by done. simpl.
      unfold push. rewrite IH; rewrite <- ?app_assoc; done.
    + apply NoDup_app in Hnd as (_ & Hd & _). intros Hx.
      apply (Hd _ Hx). left.
Qed.

Lemma rulesLoop_distinct ri rs seen issues :
  NoDup (seen ++ rs) → Forall distinctInside rs →
  rulesLoop ri rs seen issues = (seen ++ rs, issues).
Proof.
  revert ri seen. induction rs as [|r rs IH]; intros ri seen Hnd Hin; simpl.
  - by rewrite app_nil_r.
  - apply Forall_cons in Hin as [[Hr1 Hr2] Hin].
    rewrite (absent_from_seen isEqualRule); [simpl|
      apply isEqualRule_spec|].
    + rewrite filtersLoop_distinct by done. simpl.
      unfold push. rewrite IH; rewrite <- ?app_assoc; done.
    + apply NoDup_app in Hnd as (_ & Hd & _). intros Hx.
      apply (Hd _ Hx). left.
Qed.

(** A rule that was seen before: one issue, nothing pushed to [seenRules],
    and its filters are not looked at. *)
Lemma rulesLoop_seen ri r rs before after issues :
  r ∉ before →
  rulesLoop ri (r :: rs) (before ++ r :: after) issues
  = rulesLoop (ri + 1) rs (before ++ r :: after)
      (issues ++ [ruleIssue (Z.of_nat (length before)) ri]).
Proof.
  intros Hb. simpl.
  rewrite findIndex_first.
  - by destruct (length before).
  - apply Forall_forall. intros y Hy.
    destruct (isEqualRule y r) eqn:E; [|done].
    apply isEqualRule_spec in E. subst. contradiction.
  - by apply isEqualRule_spec.
Qed.

Lemma rulesLoop_app ri rs1 rs2 seen issues :
  rulesLoop ri (rs1 ++ rs2) seen issues
  = let '(seen1, issues1) := rulesLoop ri rs1 seen issues in
    rulesLoop (ri + Z.of_nat (length rs1)) rs2 seen1 issues1.
Proof.
  revert ri seen issues. induction rs1 as [|r rs1 IH]; intros; simpl.
  - by rewrite Z.add_0_r.
  - destruct (negb _); rewrite IH;
      replace (ri + 1 + Z.of_nat (length rs1))
        with (ri + Z.pos (Pos.of_succ_nat (length rs1))) by lia; done.
Qed.

(** From a seen rule [r] on: the rules [mid] are new, then [r] comes
    again. *)
Lemma rulesLoop_again ri before r after mid rest issues :
  NoDup (before ++ r :: after ++ mid) → Forall distinctInside mid →
  rulesLoop ri (mid ++ r :: rest) (before ++ r :: after) issues
  = rulesLoop (ri + Z.of_nat (length mid) + 1) rest
      (before ++ r :: after ++ mid)
      (issues
       ++ [ruleIssue (Z.of_nat (length before)) (ri + Z.of_nat (length mid))]).
Proof.
  intros Hnd Hin. rewrite rulesLoop_app.
  rewrite (rulesLoop_distinct ri mid); [| by rewrite <- app_assoc | done].
  rewrite <- app_assoc. simpl app.
  rewrite (rulesLoop_seen _ r rest before (after ++ mid)); [done|].
  apply NoDup_app in Hnd as (_ & Hd & _). intros Hx. apply (Hd _ Hx). left.
Qed.

Lemma rulesLoop_first_time rs1 r rest :
  NoDup (rs1 ++ [r]) → Forall distinctInside (rs1 ++ [r]) →
  rulesLoop 0 (rs1 ++ r :: rest) [] []
  = rulesLoop (Z.of_nat (length rs1) + 1) rest (rs1 ++ [r]) [].
Proof.
  intros Hnd Hin. rewrite (cons_middle r rs1 rest), app_assoc, rulesLoop_app.
  rewrite (rulesLoop_distinct 0 (rs1 ++ [r])) by done. simpl.
  rewrite length_app. simpl. f_equal. lia.
Qed.

Lemma split_at_two {A} (xs : list A) (i j : nat) (x : A) :
  (i < j)%nat → xs !! i = Some x → xs !! j = Some x →
  ∃ l1 l2 l3, xs = l1 ++ x :: l2 ++ x :: l3
    ∧ length l1 = i ∧ (length l1 + 1 + length l2)%nat = j
    ∧ delete j xs = l1 ++ x :: l2 ++ l3.
Proof.
  intros Hij Hi Hj.
  pose proof (take_drop_middle _ _ _ Hj) as Hsplit.
  assert (take j xs !! i = Some x) as Hi'.
  { by rewrite lookup_take_lt. }
  pose proof (take_drop_middle _ _ _ Hi') as Hsplit'.
  apply lookup_lt_Some in Hi as Hli. apply lookup_lt_Some in Hj as Hlj.
  exists (take i (take j xs)), (drop (S i) (take j xs)), (drop (S j) xs).
  split_and!.
  - rewrite (app_comm_cons _ _ x), app_assoc, Hsplit'. by rewrite Hsplit.
  - rewrite !length_take. lia.
  - rewrite length_drop, !length_take. lia.
  - rewrite (app_comm_cons _ _ x), app_assoc, Hsplit'.
    apply delete_take_drop.
Qed.

End ValidatorFacts.

(** ** The store: reading, copying, reaching *)

Module StoreFacts.
Import Store Vocabulary.

Lemma sub_weaken (K K' : obj → Prop) h h2 :
  (∀ o, K' o → K o) → sub K h h2 → sub K' h h2.
Proof. intros HK Hs l o Hl Ho. apply Hs; auto. Qed.

Lemma sub_app K h k : sub K h (h ++ k).
Proof. intros l o Hl _. by apply lookup_app_l_Some. Qed.

Lemma sub_trans K h1 h2 h3 : sub K h1 h2 → sub K h2 h3 → sub K h1 h3.
Proof. intros H12 H23 l o Hl Ho. apply H23; auto. Qed.

(** Overwriting an object that is not of sort [K], or a reference that is
    not allocated. *)
Lemma sub_insert K h x o' :
  (∀ o, h !! x = Some o → ¬ K o) → sub K h (<[x := o']> h).
Proof.
  intros Hx l o Hl Ho. destruct (decide (x = l)) as [->|Hne].
  - destruct (Hx _ Hl Ho).
  - by rewrite list_lookup_insert_ne.
Qed.

Lemma mapM_mono {A} (f g : val → option A) vs xs :
  (∀ v a, f v = Some a → g v = Some a) →
  mapM f vs = Some xs → mapM g vs = Some xs.
Proof.
  intros Hfg. rewrite !mapM_Some. intros H. eapply Forall2_impl; eauto.
Qed.

Lemma readArray_mono {A} kd (rd rd2 : val → option A) h h2 l xs :
  (∀ o, h !! l = Some o → h2 !! l = Some o) →
  (∀ v a, rd v = Some a → rd2 v = Some a) →
  readArray kd rd h l = Some xs → readArray kd rd2 h2 l = Some xs.
Proof.
  unfold readArray. intros Hl Hrd.
  destruct (h !! l) as [[|k' vs| | |]|] eqn:E; try done.
  rewrite (Hl _ eq_refl). case_decide; [|done]. by apply mapM_mono.
Qed.

Lemma readCondition_sub h h2 v c :
  sub in_rule h h2 → readCondition h v = Some c → readCondition h2 v = Some c.
Proof.
  intros Hs. destruct v as [|l]; simpl; [done|].
  destruct (h !! l) as [[]|] eqn:E; try done.
  by rewrite (Hs _ _ E I).
Qed.

Lemma readFilter_sub h h2 v f :
  sub in_rule h h2 → readFilter h v = Some f → readFilter h2 v = Some f.
Proof.
  intros Hs. destruct v as [|l]; simpl; [done|].
  destruct (h !! l) as [[| |t cl| |]|] eqn:E; try done.
  rewrite (Hs _ _ E I).
  destruct (readArray KCondition (readCondition h) h cl) as [cs|] eqn:Ha;
    [|done].
  erewrite readArray_mono; [done | | | exact Ha].
  - intros o Ho. apply Hs; [done|].
    unfold readArray in Ha. rewrite Ho in Ha.
    destruct o as [|[] ?| | |]; done.
  - intros ??. by apply readCondition_sub.
Qed.

Lemma readRule_sub h h2 v r :
  sub in_rule h h2 → readRule h v = Some r → readRule h2 v = Some r.
Proof.
  intros Hs. destruct v as [|l]; simpl; [done|].
  destruct (h !! l) as [[| | |fl b|]|] eqn:E; try done.
  rewrite (Hs _ _ E I).
  destruct (readArray KFilter (readFilter h) h fl) as [fs|] eqn:Ha; [|done].
  erewrite readArray_mono; [done | | | exact Ha].
  - intros o Ho. apply Hs; [done|].
    unfold readArray in Ha. rewrite Ho in Ha.
    destruct o as [|[] ?| | |]; done.
  - intros ??. by apply readFilter_sub.
Qed.

Lemma readRules_sub h h2 l rs :
  sub in_rules h h2 → readRules h l = Some rs → readRules h2 l = Some rs.
Proof.
  intros Hs Hr. unfold readRules in *.
  eapply readArray_mono; [| |exact Hr].
  - intros o Ho. apply Hs; [done|].
    unfold readArray in Hr. rewrite Ho in Hr. destruct o; done.
  - intros ??. apply readRule_sub. eapply sub_weaken; [|exact Hs].
    by intros [|[]| | |].
Qed.

(** A flag reads the same when its own object and everything below it are
    still there. *)
Lemma readParam_sub h h2 l p :
  (∀ o, h !! l = Some o → h2 !! l = Some o) → sub in_rules h h2 →
  readParam h l = Some p → readParam h2 l = Some p.
Proof.
  intros Hl Hs. unfold readParam.
  destruct (h !! l) as [[| | | |n stage rl]|] eqn:E; try done.
  rewrite (Hl _ eq_refl).
  destruct (readRules h rl) as [rs|] eqn:Hr; [|done].
  by rewrite (readRules_sub _ _ _ _ Hs Hr).
Qed.

Lemma readCondition_stable : stable readCondition.
Proof. intros h k v a. apply readCondition_sub, sub_app. Qed.

Lemma readFilter_stable : stable readFilter.
Proof. intros h k v a. apply readFilter_sub, sub_app. Qed.

Lemma readRule_stable : stable readRule.
Proof. intros h k v a. apply readRule_sub, sub_app. Qed.

Lemma fresh_from_weaken n m k : n ≤ m → fresh_from m k → fresh_from n k.
Proof.
  intros Hnm H. unfold fresh_from in *.
  eapply Forall_impl; [exact H|]. intros o Ho. simpl in Ho.
  eapply Forall_impl; [exact Ho|]. intros c. simpl. lia.
Qed.

Lemma fresh_from_app n k1 k2 :
  fresh_from n k1 → fresh_from n k2 → fresh_from n (k1 ++ k2).
Proof. intros H1 H2. by apply Forall_app. Qed.

Lemma fresh_from_one n o :
  Forall (λ c, n ≤ c) (children o) → fresh_from n [o].
Proof. intros H. by repeat constructor. Qed.

Lemma keeps_app n k1 k2 h2 :
  keeps n (k1 ++ k2) h2 → keeps n k1 h2 ∧ keeps (n + length k1) k2 h2.
Proof.
  intros Hk. split; intros i o Hi.
  - apply Hk. by apply lookup_app_l_Some.
  - rewrite <- Nat.add_assoc. apply Hk.
    rewrite lookup_app_r by lia.
    by replace (length k1 + i - length k1) with i by lia.
Qed.

Lemma keeps_self h k : keeps (length h) k (h ++ k).
Proof.
  intros i o Hi. rewrite lookup_app_r by lia.
  by replace (length h + i - length h) with i by lia.
Qed.

Lemma keeps_last n k o h2 : keeps n (k ++ [o]) h2 → h2 !! (n + length k) = Some o.
Proof. intros Hk. apply Hk. by rewrite list_lookup_middle. Qed.

(** Overwriting below [n] keeps what was allocated from [n] on. *)
Lemma keeps_insert n k h2 x o :
  x < n → keeps n k h2 → keeps n k (<[x := o]> h2).
Proof.
  intros Hx Hk i o' Hi. rewrite list_lookup_insert_ne by lia. by apply Hk.
Qed.

Lemma cloneElems_copies {A} (rd : heap → val → option A) cl :
  copies rd cl → stable rd →
  ∀ vs h xs, mapM (rd h) vs = Some xs →
    ∃ vs' k, cloneElems cl vs h = Some (vs', h ++ k)
      ∧ Forall (λ c, length h ≤ c) (refs vs')
      ∧ fresh_from (length h) k
      ∧ ∀ h2, keeps (length h) k h2 → mapM (rd h2) vs' = Some xs.
Proof.
  intros Hcl Hst vs. induction vs as [|v vs IH]; intros h xs Hm.
  - apply mapM_Some in Hm. apply Forall2_nil_inv_l in Hm as ->.
    exists [], []. rewrite app_nil_r.
    split_and!; [done | constructor | constructor | done].
  - apply mapM_Some in Hm.
    apply Forall2_cons_inv_l in Hm as (a & xs' & Ha & Hxs & ->).
    destruct (Hcl _ _ _ Ha) as (l' & k1 & Hc & Hb & Hf & Hr).
    assert (mapM (rd (h ++ k1)) vs = Some xs') as Hm'.
    { apply mapM_Some. eapply Forall2_impl; [exact Hxs|]. intros ??.
      apply Hst. }
    destruct (IH _ _ Hm') as (vs' & k2 & Hc2 & Hb2 & Hf2 & Hr2).
    exists (VRef l' :: vs'), (k1 ++ k2). simpl. rewrite Hc, Hc2.
    rewrite length_app in *. split_and!.
    + by rewrite app_assoc.
    + constructor; [lia|]. eapply Forall_impl; [exact Hb2|].
      intros c. simpl. lia.
    + apply fresh_from_app; [done|].
      eapply fresh_from_weaken; [|exact Hf2]. lia.
    + intros h2 Hk. apply keeps_app in Hk as [Hk1 Hk2].
      rewrite (Hr _ Hk1). simpl. by rewrite (Hr2 _ Hk2).
Qed.

Lemma cloneArray_copies {A} kd (rd : heap → val → option A) cl :
  copies rd cl → stable rd →
  copiesAt (λ h l, readArray kd (rd h) h l) (cloneArray cl).
Proof.
  intros Hcl Hst h l xs Hr. unfold readArray in Hr. unfold cloneArray.
  destruct (h !! l) as [[|k' vs| | |]|] eqn:E; try done.
  case_decide as Hk; [subst k'|done].
  destruct (cloneElems_copies rd cl Hcl Hst _ _ _ Hr)
    as (vs' & k & Hc & Hb & Hf & Hrd).
  exists (length (h ++ k)), (k ++ [OArray kd vs']).
  rewrite Hc. unfold alloc. rewrite !length_app. simpl. split_and!.
  - by rewrite app_assoc.
  - lia.
  - lia.
  - apply fresh_from_app; [done|]. by apply fresh_from_one.
  - intros h2 Hk. pose proof (keeps_last _ _ _ _ Hk) as Hlast.
    apply keeps_app in Hk as [Hk _].
    unfold readArray. rewrite Hlast. rewrite decide_True by done.
    by apply Hrd.
Qed.

Lemma cloneDeepCondition_copies : copies readCondition cloneDeepCondition.
Proof.
  intros h v c Hr. destruct v as [|l]; simpl in *; [done|].
  destruct (h !! l) as [[operator operand| | | |]|] eqn:E; try done.
  exists (length h), [OCondition operator operand]. simpl. split_and!.
  - done.
  - lia.
  - lia.
  - by repeat constructor.
  - intros h2 Hk. specialize (Hk 0 _ eq_refl).
    rewrite Nat.add_0_r in Hk. by rewrite Hk.
Qed.

Lemma cloneDeepFilter_copies : copies readFilter cloneDeepFilter.
Proof.
  intros h v f Hr. destruct v as [|l]; simpl in *; [done|].
  destruct (h !! l) as [[| |t cl| |]|] eqn:E; try done.
  destruct (readArray KCondition (readCondition h) h cl) as [cs|] eqn:Ha;
    [|done].
  destruct (cloneArray_copies KCondition readCondition cloneDeepCondition
              cloneDeepCondition_copies readCondition_stable _ _ _ Ha)
    as (cl' & k & Hc & Hb & Hf & Hrd).
  exists (length (h ++ k)), (k ++ [OFilter t cl']).
  rewrite Hc. simpl. rewrite !length_app. simpl. split_and!.
  - by rewrite app_assoc.
  - lia.
  - lia.
  - apply fresh_from_app; [done|]. apply fresh_from_one.
    repeat constructor. lia.
  - intros h2 Hk. pose proof (keeps_last _ _ _ _ Hk) as Hlast.
    apply keeps_app in Hk as [Hk _].
    rewrite Hlast, (Hrd _ Hk). by simplify_eq.
Qed.

Lemma cloneDeepRule_copies : copies readRule cloneDeepRule.
Proof.
  intros h v r Hr. destruct v as [|l]; simpl in *; [done|].
  destruct (h !! l) as [[| | |fl b|]|] eqn:E; try done.
  destruct (readArray KFilter (readFilter h) h fl) as [fs|] eqn:Ha; [|done].
  destruct (cloneArray_copies KFilter readFilter cloneDeepFilter
              cloneDeepFilter_copies readFilter_stable _ _ _ Ha)
    as (fl' & k & Hc & Hb & Hf & Hrd).
  exists (length (h ++ k)), (k ++ [ORule fl' b]).
  rewrite Hc. simpl. rewrite !length_app. simpl. split_and!.
  - by rewrite app_assoc.
  - lia.
  - lia.
  - apply fresh_from_app; [done|]. apply fresh_from_one.
    repeat constructor. lia.
  - intros h2 Hk. pose proof (keeps_last _ _ _ _ Hk) as Hlast.
    apply keeps_app in Hk as [Hk _].
    rewrite Hlast, (Hrd _ Hk). by simplify_eq.
Qed.

Lemma cloneDeepRules_copies : copiesAt readRules cloneDeepRules.
Proof.
  apply (cloneArray_copies KRule readRule cloneDeepRule
           cloneDeepRule_copies readRule_stable).
Qed.

Lemma cloneDeepParam_copies : copiesAt readParam cloneDeepParam.
Proof.
  intros h l p Hr. unfold readParam in Hr. unfold cloneDeepParam.
  destruct (h !! l) as [[| | | |n stage rl]|] eqn:E; try done.
  destruct (readRules h rl) as [rs|] eqn:Ha; [|done].
  destruct (cloneDeepRules_copies _ _ _ Ha) as (rl' & k & Hc & Hb & Hf & Hrd).
  exists (length (h ++ k)), (k ++ [OParam n stage rl']).
  rewrite Hc. unfold alloc. rewrite !length_app. simpl. split_and!.
  - by rewrite app_assoc.
  - lia.
  - lia.
  - apply fresh_from_app; [done|]. apply fresh_from_one.
    repeat constructor. lia.
  - intros h2 Hk. pose proof (keeps_last _ _ _ _ Hk) as Hlast.
    apply keeps_app in Hk as [Hk _].
    unfold readParam. rewrite Hlast, (Hrd _ Hk). by simplify_eq.
Qed.

(** Following references from a new object of a store whose new objects
    refer to new objects only leads to new objects only. *)
Lemma reach_fresh n h :
  (∀ l o, n ≤ l → h !! l = Some o → Forall (λ c, n ≤ c) (children o)) →
  ∀ x y, reach h x y → n ≤ x → n ≤ y.
Proof.
  intros Hcl x y Hreach. induction Hreach as [x|x o c y Hx Hc _ IH]; [done|].
  intros Hn. apply IH.
  pose proof (Hcl _ _ Hn Hx) as Hall.
  by apply (proj1 (Forall_forall _ _) Hall).
Qed.

(** The closure condition of [reach_fresh], for a store that keeps freshly
    allocated objects [k] and has nothing beyond them. *)
Lemma fresh_closed n k h :
  fresh_from n k → length h = n + length k →
  (∀ i o, k !! i = Some o → h !! (n + i) = Some o) →
  ∀ l o, n ≤ l → h !! l = Some o → Forall (λ c, n ≤ c) (children o).
Proof.
  intros Hf Hlen Hk l o Hn Hl.
  pose proof (lookup_lt_Some _ _ _ Hl) as Hlt.
  destruct (lookup_lt_is_Some_2 k (l - n)) as [o' Ho']; [lia|].
  pose proof (Hk _ _ Ho') as Hl'.
  replace (n + (l - n)) with l in Hl' by lia. simplify_eq.
  by apply (proj1 (Forall_lookup _ _) Hf _ _ Ho').
Qed.

(** New objects [k] behind a store in which one old object was overwritten:
    what is reachable from a new object is new. *)
Lemma reach_new h k x o l' y :
  fresh_from (length h) k → x < length h →
  reach (<[x := o]> (h ++ k)) l' y → length h ≤ l' → length h ≤ y.
Proof.
  intros Hf Hx Hreach Hl'. eapply reach_fresh; [|exact Hreach|done].
  intros l o' Hl Ho. rewrite list_lookup_insert_ne in Ho by lia.
  eapply (fresh_closed (length h) k (h ++ k)); eauto.
  - by rewrite length_app.
  - apply keeps_self.
Qed.

Lemma reach_new_app h k l' y :
  fresh_from (length h) k →
  reach (h ++ k) l' y → length h ≤ l' → length h ≤ y.
Proof.
  intros Hf Hreach Hl'. eapply reach_fresh; [|exact Hreach|done].
  intros l o' Hl Ho.
  eapply (fresh_closed (length h) k (h ++ k)); eauto.
  - by rewrite length_app.
  - apply keeps_self.
Qed.

End StoreFacts.

(** ** Reordering *)

Module ReorderFacts.
Import Store JsArray FeaturesTab Vocabulary JsArrayFacts.

Lemma swapped_intro {A} (vs : list A) i x y :
  vs !! i = Some x → vs !! S i = Some y →
  swapped i vs (take i vs ++ y :: x :: drop (S (S i)) vs).
Proof.
  intros Hx Hy.
  pose proof (lookup_lt_Some _ _ _ Hy) as Hlt.
  assert (length (take i vs) = i) as Hlen by (rewrite length_take; lia).
  assert (vs = take i vs ++ x :: y :: drop (S (S i)) vs) as Hvs.
  { rewrite <- (drop_S _ _ _ Hy), <- (drop_S _ _ _ Hx). by rewrite take_drop. }
  split_and!.
  - rewrite Hvs at 3. rewrite !length_app. simpl. done.
  - rewrite Hy. rewrite lookup_app_r by lia. by rewrite Hlen, Nat.sub_diag.
  - rewrite Hx. rewrite lookup_app_r by lia.
    by replace (S i - length (take i vs))%nat with 1%nat by lia.
  - intros j Hj1 Hj2. rewrite Hvs at 3.
    destruct (decide (j < i)%nat).
    + by rewrite !lookup_app_l by lia.
    + rewrite !lookup_app_r by lia. rewrite Hlen.
      destruct (j - i)%nat as [|[|d]] eqn:E; [lia | lia | done].
Qed.

Lemma rulesOf_insert h feature rl vs vs' :
  rulesOf h feature = Some (rl, vs) →
  rulesOf (<[rl := OArray KRule vs']> h) feature = Some (rl, vs').
Proof.
  unfold rulesOf. intros H.
  destruct (h !! feature) as [[| | | |n stage rl0]|] eqn:Hf; try done.
  destruct (h !! rl0) as [[|[] vs0| | |]|] eqn:Hr; try done.
  simplify_eq.
  assert (rl ≠ feature) as Hne by (intros ->; congruence).
  rewrite list_lookup_insert_ne by done. rewrite Hf.
  rewrite list_lookup_insert_eq by (by eapply lookup_lt_Some).
  done.
Qed.

Lemma setStore_same st : setStore (store st) st = st.
Proof. by destruct st. Qed.

Lemma spliceRules_run feature start deleteCount items st rl vs :
  rulesOf (store st) feature = Some (rl, vs) →
  spliceRules feature start deleteCount items st
  = Returned tt
      (setStore (<[rl := OArray KRule (splice vs start deleteCount items)]>
                   (store st)) st).
Proof. intros H. unfold spliceRules. by rewrite H. Qed.

(** Both moves: the array afterwards, as two splices of the array before. *)
Lemma moveRule_run feature ruleIndex (target : Z) st rl vs :
  rulesOf (store st) feature = Some (rl, vs) →
  bind (ruleAt feature ruleIndex st) (λ rule st1,
  bind (removeRule feature ruleIndex st1) (λ _ st2,
  spliceRules feature target 0 [rule] st2))
  = Returned tt
      (setStore
         (<[rl := OArray KRule
                    (splice (splice vs ruleIndex 1 []) target 0
                       [default VUndefined (at_index vs ruleIndex)])]>
            (store st)) st).
Proof.
  intros H. unfold ruleAt, removeRule. rewrite H. simpl.
  rewrite (spliceRules_run _ _ _ _ _ _ _ H). simpl.
  erewrite spliceRules_run by (simpl; eapply rulesOf_insert, H).
  simpl. by rewrite list_insert_insert_eq.
Qed.

End ReorderFacts.

(** ** Inserting a copy of the default rule *)

Module InsertFacts.
Import Store JsArray FeaturesTab Vocabulary StoreFacts ReorderFacts.

Lemma sub_insert_fresh K h h2 x o :
  sub K h h2 → length h ≤ x → sub K h (<[x := o]> h2).
Proof.
  intros Hs Hx l o' Hl Ho. pose proof (lookup_lt_Some _ _ _ Hl).
  rewrite list_lookup_insert_ne by lia. by apply Hs.
Qed.

Lemma rulesOf_lookup h feature rl vs :
  rulesOf h feature = Some (rl, vs) →
  (∃ n stage, h !! feature = Some (OParam n stage rl))
  ∧ h !! rl = Some (OArray KRule vs).
Proof.
  unfold rulesOf. intros H.
  destruct (h !! feature) as [[| | | |n stage rl0]|] eqn:Hf; try done.
  destruct (h !! rl0) as [[|[] vs0| | |]|] eqn:Hr; try done.
  simplify_eq. eauto.
Qed.

Lemma rulesOf_app h k feature rl vs :
  rulesOf h feature = Some (rl, vs) → rulesOf (h ++ k) feature = Some (rl, vs).
Proof.
  intros H. destruct (rulesOf_lookup _ _ _ _ H) as [(n & stage & Hf) Hr].
  unfold rulesOf.
  by rewrite (lookup_app_l_Some _ _ _ _ Hf), (lookup_app_l_Some _ _ _ _ Hr).
Qed.

(** Cloning the rule at [tmpl] and writing the array [rl] with the copy put
    somewhere among its slots. *)
Lemma clone_into_array h feature rl vs tmpl r (place : val → list val) :
  rulesOf h feature = Some (rl, vs) →
  readRule h (VRef tmpl) = Some r →
  ∃ l' k,
    cloneDeepRule (VRef tmpl) h = Some (VRef l', h ++ k)
    ∧ rulesOf (<[rl := OArray KRule (place (VRef l'))]> (h ++ k)) feature
      = Some (rl, place (VRef l'))
    ∧ freshCopy h (<[rl := OArray KRule (place (VRef l'))]> (h ++ k)) rl l' r.
Proof.
  intros Hro Hr.
  destruct (cloneDeepRule_copies _ _ _ Hr) as (l' & k & Hc & Hb & Hf & Hrd).
  exists l', k. split; [done|].
  destruct (rulesOf_lookup _ _ _ _ Hro) as [_ Hrl].
  pose proof (lookup_lt_Some _ _ _ Hrl) as Hlt.
  set (h' := <[rl := OArray KRule (place (VRef l'))]> (h ++ k)).
  assert (keeps (length h) k h') as Hk.
  { apply keeps_insert; [done|]. apply keeps_self. }
  assert (sub in_rule h h') as Hsub.
  { eapply sub_trans; [apply (sub_app _ h k)|]. apply sub_insert.
    intros o Ho. rewrite (lookup_app_l_Some _ _ _ _ Hrl) in Ho.
    simplify_eq. simpl. tauto. }
  assert (∀ y, reach h' l' y → length h ≤ y) as Hreach.
  { intros y Hy. eapply reach_new; [exact Hf|exact Hlt|exact Hy|lia]. }
  split; [by eapply rulesOf_insert, rulesOf_app|].
  split_and!.
  - lia.
  - done.
  - by apply Hrd.
  - intros l o Hne Hl. unfold h'. rewrite list_lookup_insert_ne by done.
    by apply lookup_app_l_Some.
  - intros v r'. by apply readRule_sub.
  - intros x o Hx v r'. apply readRule_sub, sub_insert_fresh; auto.
  - intros x o Hx. apply Hrd. by apply keeps_insert.
Qed.

(** The array's value after the copy was put in front or at the end. *)
Lemma readRules_unshift h h' rl vs l' r rs :
  h' !! rl = Some (OArray KRule (unshift vs (VRef l'))) →
  h !! rl = Some (OArray KRule vs) →
  readRule h' (VRef l') = Some r →
  (∀ v r', readRule h v = Some r' → readRule h' v = Some r') →
  readRules h rl = Some rs → readRules h' rl = Some (r :: rs).
Proof.
  unfold readRules, readArray, unshift. intros -> -> Hr Hold.
  rewrite !decide_True by done. intros Hm.
  apply (mapM_mono _ (readRule h')) in Hm; [|done].
  change (mapM (readRule h') (VRef l' :: vs))
    with (readRule h' (VRef l')
          ≫= λ y, mapM (readRule h') vs ≫= λ k, mret (y :: k)).
  by rewrite Hr, Hm.
Qed.

Lemma readRules_push h h' rl vs l' r rs :
  h' !! rl = Some (OArray KRule (push vs (VRef l'))) →
  h !! rl = Some (OArray KRule vs) →
  readRule h' (VRef l') = Some r →
  (∀ v r', readRule h v = Some r' → readRule h' v = Some r') →
  readRules h rl = Some rs → readRules h' rl = Some (rs ++ [r]).
Proof.
  unfold readRules, readArray, push. intros -> -> Hr Hold.
  rewrite !decide_True by done. intros Hm.
  apply (mapM_mono _ (readRule h')) in Hm; [|done].
  apply mapM_Some. apply mapM_Some in Hm.
  apply Forall2_app; [done|]. by repeat constructor.
Qed.

End InsertFacts.

(** ** Saving and reverting *)

Module PersistenceFacts.
Import Store JsArray Lodash FeaturesTab Vocabulary LodashFacts StoreFacts.

Lemma readParam_lookup h l p :
  readParam h l = Some p →
  ∃ rl, h !! l = Some (OParam (name p) (featureStage p) rl)
    ∧ readRules h rl = Some (rules p).
Proof.
  unfold readParam. intros H.
  destruct (h !! l) as [[| | | |n stage rl]|] eqn:E; try done.
  destruct (readRules h rl) as [rs|] eqn:Hr; [|done].
  simplify_eq. eauto.
Qed.

Lemma readParam_app h k l p :
  readParam h l = Some p → readParam (h ++ k) l = Some p.
Proof.
  apply readParam_sub; [|apply sub_app].
  intros o. apply lookup_app_l_Some.
Qed.

Section Save.
Variable api : list Event → ApiCall → ApiOutcome.

(** One save, by the answer it gets. *)
Lemma updateFeatureFlag_step st feature commitMessage p :
  readParam (store st) feature = Some p →
  match api (trace st) (mkCall (name p) commitMessage (Some (rules p))) with
  | Resolved =>
    ∃ b k,
      cloneDeepParam feature (store st) = Some (b, store st ++ k)
      ∧ length (store st) ≤ b
      ∧ fresh_from (length (store st)) k
      ∧ readParam (store st ++ k) b = Some p
      ∧ updateFeatureFlag api feature commitMessage st
        = Returned tt
            (mkState (store st ++ k) (serverStage st) (featureFlags st)
               (<[name p := b]> (featureFlagNameToBackupMap st))
               (defaultNewFilter st) (defaultNewRule st)
               (trace st
                ++ [Request (mkCall (name p) commitMessage (Some (rules p)));
                    StatusMessage "Saved successfully."]))
  | Rejected (HttpErrorResponse error) =>
    updateFeatureFlag api feature commitMessage st
    = Returned tt
        (mkState (store st) (serverStage st) (featureFlags st)
           (featureFlagNameToBackupMap st)
           (defaultNewFilter st) (defaultNewRule st)
           (trace st
            ++ [Request (mkCall (name p) commitMessage (Some (rules p)));
                StatusMessage
                  match serverMessage error with
                  | Some m => "Update failed: " +:+ m
                  | None => "Update failed."
                  end]))
  | Rejected (OtherFailure _) =>
    updateFeatureFlag api feature commitMessage st
    = Thrown "Unexpected error response."
        (mkState (store st) (serverStage st) (featureFlags st)
           (featureFlagNameToBackupMap st)
           (defaultNewFilter st) (defaultNewRule st)
           (trace st
            ++ [Request (mkCall (name p) commitMessage (Some (rules p)))]))
  end.
Proof.
  intros Hp. destruct (readParam_lookup _ _ _ Hp) as (rl & Hl & Hrs).
  unfold updateFeatureFlag. rewrite Hl, Hrs.
  destruct (api _ _) as [|[error|what]] eqn:Hapi.
  - destruct (cloneDeepParam_copies _ _ _ Hp) as (b & k & Hc & Hb & Hf & Hrd).
    exists b, k. simpl. rewrite Hc. split_and!; try done; [lia| |].
    + apply Hrd, keeps_self.
    + unfold record, setBackupMap, setStore, push. simpl.
      by rewrite <- app_assoc.
  - destruct (serverMessage error);
      unfold record, push; simpl; by rewrite <- app_assoc.
  - done.
Qed.

(** The loop of the bulk save: the flags [before] are saved, then either
    the list is at its end, or the next request is answered with a failure
    that is not an [HttpErrorResponse]. *)
Lemma saveEach_run before :
  ∀ st fs rest tr1,
    Forall2 (λ f p, readParam (store st) f = Some p) fs (before ++ rest) →
    saved api (trace st) before tr1 →
    (rest = [] →
       ∃ st', saveEach api fs st = Returned tt st' ∧ trace st' = tr1)
    ∧ (∀ pN after what, rest = pN :: after →
         api tr1 (callFor pN) = Rejected (OtherFailure what) →
         ∃ st', saveEach api fs st = Thrown "Unexpected error response." st'
           ∧ trace st' = tr1 ++ [Request (callFor pN)]).
Proof.
  induction before as [|p before IH]; intros st fs rest tr1 Hfs Hsaved.
  - inversion Hsaved; subst. simpl in Hfs. split.
    + intros ->. apply Forall2_nil_inv_r in Hfs as ->. by exists st.
    + intros pN after what -> Hapi.
      apply Forall2_cons_inv_r in Hfs as (f & fs' & Hf & _ & ->).
      destruct (readParam_lookup _ _ _ Hf) as (rl & Hl & _).
      pose proof (updateFeatureFlag_step st f (commitMessageFor (name pN))
                    pN Hf) as Hstep.
      fold (callFor pN) in Hstep. rewrite Hapi in Hstep.
      simpl. rewrite Hl. fold (commitMessageFor (name pN)).
      rewrite Hstep. simpl. eauto.
  - inversion Hsaved as [|? ? ? m ? Hm Hsaved']; subst. simpl in Hfs.
    apply Forall2_cons_inv_r in Hfs as (f & fs' & Hf & Hfs' & ->).
    destruct (readParam_lookup _ _ _ Hf) as (rl & Hl & _).
    pose proof (updateFeatureFlag_step st f (commitMessageFor (name p))
                  p Hf) as Hstep.
    fold (callFor p) in Hstep.
    simpl saveEach. rewrite Hl. fold (commitMessageFor (name p)).
    destruct (api (trace st) (callFor p)) as [|[error|what]] eqn:Hapi;
      simpl in Hm; simplify_eq.
    + destruct Hstep as (b & k & _ & _ & _ & _ & Hrun). rewrite Hrun.
      simpl bind. apply IH; simpl; [|done].
      eapply Forall2_impl; [exact Hfs'|]. intros ??. apply readParam_app.
    + rewrite Hstep. simpl bind. apply IH; simpl; done.
Qed.

End Save.

End PersistenceFacts.

(** * The claims *)

Import Lodash JsArray Validator Store FeaturesTab Vocabulary.
Import LodashFacts JsArrayFacts ValidatorFacts StoreFacts ReorderFacts.
Import InsertFacts PersistenceFacts Examples.

(** C8. A flag in which no two sibling rules, no two sibling filters of a
    rule and no two sibling conditions of a filter are equal has no issues,
    and validating a flag of the store returns with the state it started
    from. *)
Theorem validateFeatureFlag_distinct (feature : PlatformParameter) :
  NoDup (rules feature) → Forall distinctInside (rules feature) →
  validateFeatureFlag feature = []
  ∧ ∀ (st : State) (l : loc),
      readParam (store st) l = Some feature →
      validateFeatureFlagOf l st = Returned [] st.
Proof.
  intros Hnd Hin.
  assert (validateFeatureFlag feature = []) as Hv.
  { unfold validateFeatureFlag. by rewrite rulesLoop_distinct. }
  split; [done|]. intros st l Hl.
  unfold validateFeatureFlagOf. by rewrite Hl, Hv.
Qed.

(** The three rules of [fooFlag] are distinct, inside and out. *)
Lemma validateFeatureFlag_distinct_witness :
  NoDup (rules fooFlag) ∧ Forall distinctInside (rules fooFlag)
  ∧ validateFeatureFlag fooFlag = []
  ∧ validateFeatureFlagOf foo loaded = Returned [] loaded.
Proof.
  assert (NoDup (rules fooFlag)) as H1 by compute_done.
  assert (Forall distinctInside (rules fooFlag)) as H2 by compute_done.
  destruct (validateFeatureFlag_distinct fooFlag H1 H2) as [Hv Hst].
  split_and!; [exact H1 | exact H2 | exact Hv |].
  apply Hst. vm_compute. reflexivity.
Defined.

(** C1. Two equal rules at indices [i < j] (positions [i + 1] and [j + 1]),
    everything else distinct: the only issue names this pair; [seenRules]
    ends as the rules without the one at [j], so it holds the duplicated
    rule once; and with a third copy of the rule at a later index [k], the
    third copy is reported against [i]. *)
Theorem validateFeatureFlag_one_duplicate
    (feature : PlatformParameter) (i j : nat) (r : PlatformParameterRule) :
  (i < j)%nat →
  rules feature !! i = Some r → rules feature !! j = Some r →
  NoDup (delete j (rules feature)) →
  Forall distinctInside (rules feature) →
  validateFeatureFlag feature = [ruleIssue (Z.of_nat i) (Z.of_nat j)]
  ∧ seenRulesOf feature = delete j (rules feature)
  ∧ r ∈ seenRulesOf feature ∧ NoDup (seenRulesOf feature)
  ∧ ∀ k : nat, (j < k ≤ length (rules feature))%nat →
      validateFeatureFlag (withRuleAt k r feature)
      = [ruleIssue (Z.of_nat i) (Z.of_nat j);
         ruleIssue (Z.of_nat i) (Z.of_nat k)].
Proof.
  intros Hij Hi Hj Hnd Hin.
  destruct (split_at_two _ _ _ _ Hij Hi Hj)
    as (l1 & l2 & l3 & Hrs & Hl1 & Hl2 & Hdel).
  rewrite Hdel in Hnd. rewrite Hrs in Hin.
  assert (l1 ++ r :: l2 ++ l3 = (l1 ++ r :: l2) ++ l3) as Hassoc.
  { by rewrite <- app_assoc. }
  assert (NoDup (l1 ++ r :: l2)) as Hn2.
  { rewrite Hassoc in Hnd. by apply NoDup_app in Hnd as [? _]. }
  assert (NoDup (l1 ++ [r])) as Hn1.
  { rewrite (cons_middle r), app_assoc in Hn2.
    by apply NoDup_app in Hn2 as [? _]. }
  assert (Forall distinctInside (l1 ++ [r]) ∧ Forall distinctInside l2
          ∧ Forall distinctInside l3) as (Hd1 & Hd2 & Hd3).
  { rewrite !Forall_app, !Forall_cons, !Forall_app, !Forall_cons in Hin.
    rewrite Forall_app, Forall_singleton. tauto. }
  assert (rulesLoop 0 (rules feature) [] []
          = (l1 ++ r :: l2 ++ l3,
             [ruleIssue (Z.of_nat i) (Z.of_nat j)])) as Hrun.
  { rewrite Hrs, rulesLoop_first_time by done.
    rewrite (rulesLoop_again _ l1 r [] l2) by done.
    rewrite rulesLoop_distinct by (by rewrite ?app_nil_l, ?Hassoc in * ).
    simpl. rewrite <- Hassoc. do 3 f_equal; lia. }
  unfold validateFeatureFlag, seenRulesOf. rewrite Hrun, Hdel. simpl.
  split_and!; [done | done | set_solver | done |].
  intros k Hk.
  assert (length (rules feature) = (j + 1 + length l3)%nat) as Hlen.
  { rewrite Hrs, !length_app; simpl; rewrite !length_app; simpl. lia. }
  set (m := (k - j - 1)%nat).
  assert (take k (rules feature) ++ r :: drop k (rules feature)
          = l1 ++ r :: l2 ++ r :: take m l3 ++ r :: drop m l3) as Hins.
  { rewrite Hrs.
    replace (l1 ++ r :: l2 ++ r :: l3) with ((l1 ++ r :: l2 ++ [r]) ++ l3)
      by (by rewrite <- !app_assoc; simpl; rewrite <- !app_assoc).
    assert (length (l1 ++ r :: l2 ++ [r]) = (j + 1)%nat) as Hl.
    { rewrite !length_app; simpl; rewrite !length_app; simpl. lia. }
    rewrite take_app_ge, drop_app_ge by lia. rewrite Hl.
    replace (k - (j + 1))%nat with m by lia.
    rewrite <- !app_assoc. simpl. by rewrite <- !app_assoc. }
  simpl. rewrite Hins.
  pose proof (take_drop m l3) as Htd.
  assert (Forall distinctInside (take m l3)
          ∧ Forall distinctInside (drop m l3)) as [Hd4 Hd5].
  { rewrite <- Htd in Hd3. by apply Forall_app in Hd3. }
  assert (NoDup (l1 ++ r :: (l2 ++ take m l3) ++ drop m l3)) as Hn3.
  { by rewrite <- app_assoc, Htd. }
  assert (NoDup (l1 ++ r :: l2 ++ take m l3)) as Hn4.
  { rewrite (app_comm_cons _ _ r), app_assoc in Hn3.
    by apply NoDup_app in Hn3 as [? _]. }
  rewrite rulesLoop_first_time by done.
  rewrite (rulesLoop_again _ l1 r [] l2) by done.
  rewrite app_nil_l.
  rewrite (rulesLoop_again _ l1 r l2 (take m l3)) by done.
  rewrite rulesLoop_distinct;
    [| rewrite <- app_assoc; exact Hn3 | done].
  simpl. rewrite length_take. subst m. f_equal; [f_equal; lia|].
  f_equal. f_equal; lia.
Qed.

(** [webRule] at the positions 1 and 3, and then also at position 5. *)
Lemma validateFeatureFlag_one_duplicate_witness :
  validateFeatureFlag fooFlagWithDuplicate
  = ["The 1-th & 3-th rules are identical."]
  ∧ seenRulesOf fooFlagWithDuplicate = [webRule; versionRule; flavorRule]
  ∧ validateFeatureFlag (withRuleAt 4 webRule fooFlagWithDuplicate)
    = ["The 1-th & 3-th rules are identical.";
       "The 1-th & 5-th rules are identical."].
Proof.
  assert (NoDup (delete 2 (rules fooFlagWithDuplicate))) as H1
    by compute_done.
  assert (Forall distinctInside (rules fooFlagWithDuplicate)) as H2
    by compute_done.
  assert (0 < 2) as H0 by lia.
  destruct (validateFeatureFlag_one_duplicate fooFlagWithDuplicate 0 2 webRule
              H0 eq_refl eq_refl H1 H2) as (Hv & Hseen & _ & _ & Hthird).
  split_and!.
  - rewrite Hv. vm_compute. reflexivity.
  - rewrite Hseen. reflexivity.
  - rewrite (Hthird 4); [vm_compute; reflexivity | simpl; lia].
Defined.

(** C6. For two neighbouring rules at indices [i] and [i + 1], moving the
    rule at [i + 1] up and moving the rule at [i] down both exchange the two
    and leave every other rule where it was; nothing but the rules array
    changes. *)
Theorem moveRule_interior
    (st : State) (feature rl : loc) (vs : list val) (i : nat) (x y : val) :
  rulesOf (store st) feature = Some (rl, vs) →
  vs !! i = Some x → vs !! S i = Some y →
  let vs' := take i vs ++ y :: x :: drop (S (S i)) vs in
  swapped i vs vs'
  ∧ moveRuleUp feature (Z.of_nat (S i)) st
    = Returned tt (setStore (<[rl := OArray KRule vs']> (store st)) st)
  ∧ moveRuleDown feature (Z.of_nat i) st
    = Returned tt (setStore (<[rl := OArray KRule vs']> (store st)) st).
Proof.
  intros Hr Hx Hy vs'. subst vs'.
  pose proof (lookup_lt_Some _ _ _ Hx) as Hltx.
  pose proof (lookup_lt_Some _ _ _ Hy) as Hlty.
  assert (length (take i vs) = i) as Hlen by (rewrite length_take; lia).
  split_and!.
  - by apply swapped_intro.
  - unfold moveRuleUp. rewrite (moveRule_run _ _ _ _ _ _ Hr).
    rewrite at_index_nat, Hy. simpl default.
    rewrite splice_delete by done.
    replace (Z.of_nat (S i) - 1)%Z with (Z.of_nat i) by lia.
    rewrite splice_insert by (rewrite length_app, length_take; lia).
    rewrite (take_S_r _ _ _ Hx), <- app_assoc.
    rewrite take_app_length', drop_app_length' by done. done.
  - unfold moveRuleDown. rewrite (moveRule_run _ _ _ _ _ _ Hr).
    rewrite at_index_nat, Hx. simpl default.
    rewrite splice_delete by done.
    replace (Z.of_nat i + 1)%Z with (Z.of_nat (S i)) by lia.
    rewrite (drop_S _ _ _ Hy).
    rewrite splice_insert by (rewrite length_app, length_take; simpl; lia).
    rewrite (cons_middle y), app_assoc.
    rewrite take_app_length', drop_app_length'
      by (rewrite length_app; simpl; lia).
    by rewrite <- app_assoc.
Qed.

(** The second and the third rule of [Foo] change places. *)
Lemma moveRule_interior_witness :
  rulesOf (store loaded) foo = Some (25, [VRef 10; VRef 16; VRef 24])
  ∧ swapped 1 [VRef 10; VRef 16; VRef 24] [VRef 10; VRef 24; VRef 16]
  ∧ moveRuleUp foo 2 loaded
    = Returned tt
        (setStore (<[25 := OArray KRule [VRef 10; VRef 24; VRef 16]]>
                     (store loaded)) loaded)
  ∧ moveRuleDown foo 1 loaded
    = Returned tt
        (setStore (<[25 := OArray KRule [VRef 10; VRef 24; VRef 16]]>
                     (store loaded)) loaded).
Proof.
  assert (rulesOf (store loaded) foo
          = Some (25, [VRef 10; VRef 16; VRef 24])) as H by reflexivity.
  split; [exact H|].
  exact (moveRule_interior loaded foo 25 [VRef 10; VRef 16; VRef 24] 1
           (VRef 16) (VRef 24) H eq_refl eq_refl).
Defined.

(** C9. Moving the last rule down changes nothing.  Moving the first of at
    least two rules up puts it just before the last rule: [r0, mid...,
    rlast] becomes [mid..., r0, rlast], which is the sequence itself when
    there are exactly two rules. *)
Theorem moveRule_at_the_ends
    (st : State) (feature rl : loc) (vs : list val) :
  rulesOf (store st) feature = Some (rl, vs) →
  (∀ rlast, last vs = Some rlast →
     moveRuleDown feature (Z.of_nat (length vs) - 1) st = Returned tt st)
  ∧ (∀ r0 mid rlast, vs = r0 :: mid ++ [rlast] →
     moveRuleUp feature 0 st
     = Returned tt
         (setStore (<[rl := OArray KRule (mid ++ [r0; rlast])]> (store st))
            st))
  ∧ (∀ r0 rlast, vs = [r0; rlast] →
     moveRuleUp feature 0 st = Returned tt st).
Proof.
  intros Hr.
  assert (store st !! rl = Some (OArray KRule vs)) as Hrl.
  { unfold rulesOf in Hr. repeat case_match; naive_solver. }
  assert (setStore (<[rl := OArray KRule vs]> (store st)) st = st) as Hid.
  { rewrite list_insert_id by done. apply setStore_same. }
  split.
  - intros rlast Hlast. unfold moveRuleDown.
    rewrite (moveRule_run _ _ _ _ _ _ Hr).
    destruct (last_Some vs rlast) as [[front ->] _]; [done|].
    rewrite length_app. simpl length.
    replace (Z.of_nat (length front + 1) - 1)%Z
      with (Z.of_nat (length front)) by lia.
    rewrite at_index_nat, list_lookup_middle by done. simpl default.
    rewrite splice_delete by (rewrite length_app; simpl; lia).
    rewrite take_app_length, drop_app_ge by (simpl; lia).
    replace (S (length front) - length front)%nat with 1%nat by lia.
    simpl drop. rewrite app_nil_r.
    rewrite splice_insert_past by lia.
    by rewrite Hid.
  - assert (∀ r0 mid rlast, vs = r0 :: mid ++ [rlast] →
            moveRuleUp feature 0 st
            = Returned tt
                (setStore
                   (<[rl := OArray KRule (mid ++ [r0; rlast])]> (store st))
                   st)) as Hup.
    { intros r0 mid rlast ->.
      unfold moveRuleUp. rewrite (moveRule_run _ _ _ _ _ _ Hr).
      change 0%Z with (Z.of_nat 0). rewrite at_index_nat. simpl.
      rewrite (splice_delete _ 0) by (simpl; lia). simpl.
      rewrite drop_0, splice_insert_minus_one, length_app. simpl.
      replace (length mid + 1 - 1)%nat with (length mid) by lia.
      by rewrite take_app_length, drop_app_length. }
    split; [exact Hup|]. intros r0 rlast ->.
    rewrite (Hup r0 [] rlast eq_refl). simpl app in *. by rewrite Hid.
Qed.

(** [Foo] has three rules and [Bar] has two. *)
Lemma moveRule_at_the_ends_witness :
  rulesOf (store loaded) foo = Some (25, [VRef 10; VRef 16; VRef 24])
  ∧ rulesOf (store loaded) bar = Some (38, [VRef 31; VRef 37])
  ∧ moveRuleDown foo 2 loaded = Returned tt loaded
  ∧ moveRuleUp foo 0 loaded
    = Returned tt
        (setStore (<[25 := OArray KRule [VRef 16; VRef 10; VRef 24]]>
                     (store loaded)) loaded)
  ∧ moveRuleUp bar 0 loaded = Returned tt loaded.
Proof.
  assert (rulesOf (store loaded) foo
          = Some (25, [VRef 10; VRef 16; VRef 24])) as Hfoo by reflexivity.
  assert (rulesOf (store loaded) bar
          = Some (38, [VRef 31; VRef 37])) as Hbar by reflexivity.
  destruct (moveRule_at_the_ends loaded foo 25 _ Hfoo) as (Hdown & Hup & _).
  destruct (moveRule_at_the_ends loaded bar 38 _ Hbar) as (_ & _ & Htwo).
  split_and!; [exact Hfoo | exact Hbar | | |].
  - exact (Hdown (VRef 24) eq_refl).
  - exact (Hup (VRef 10) [VRef 16] (VRef 24) eq_refl).
  - exact (Htwo (VRef 31) (VRef 37) eq_refl).
Defined.

(** C5. [addNewRuleToTop] puts a new rule in front of the flag's rules and
    [addNewRuleToBottom] puts one behind them.  The new rule reads as the
    default rule: one filter of type [PlatformType] without conditions, and
    [valueWhenMatched = false].  The rules that were there keep their
    references, their order and their values.  The new rule is a deep copy
    made for this call ([freshCopy]): all its objects are new, a write to any
    of them changes neither the template nor any rule inserted before, and a
    write to any older object does not change the new rule. *)
Theorem addNewRule_inserts_fresh_default
    (st : State) (feature rl : loc) (vs : list val) :
  rulesOf (store st) feature = Some (rl, vs) →
  readRule (store st) (VRef (defaultNewRule st)) = Some defaultRuleValue →
  defaultRuleValue = mkRule [mkFilter PlatformType []] false
  ∧ (∃ l' st',
       addNewRuleToTop feature st = Returned tt st'
       ∧ rulesOf (store st') feature = Some (rl, VRef l' :: vs)
       ∧ freshCopy (store st) (store st') rl l' defaultRuleValue
       ∧ ∀ rs, readRules (store st) rl = Some rs →
           readRules (store st') rl = Some (defaultRuleValue :: rs))
  ∧ (∃ l' st',
       addNewRuleToBottom feature st = Returned tt st'
       ∧ rulesOf (store st') feature = Some (rl, vs ++ [VRef l'])
       ∧ freshCopy (store st) (store st') rl l' defaultRuleValue
       ∧ ∀ rs, readRules (store st) rl = Some rs →
           readRules (store st') rl = Some (rs ++ [defaultRuleValue])).
Proof.
  intros Hro Hr. split; [done|].
  destruct (rulesOf_lookup _ _ _ _ Hro) as [_ Hrl].
  split.
  - destruct (clone_into_array _ _ _ _ _ _ (unshift vs) Hro Hr)
      as (l' & k & Hc & Hro' & Hfc).
    eexists l', _. unfold addNewRuleToTop. rewrite Hro, Hc.
    split; [done|]. simpl. split; [done|]. split; [done|].
    intros rs Hrs. destruct Hfc as (_ & _ & Hr' & _ & Hold & _).
    destruct (rulesOf_lookup _ _ _ _ Hro') as [_ Hrl'].
    by eapply readRules_unshift.
  - destruct (clone_into_array _ _ _ _ _ _ (push vs) Hro Hr)
      as (l' & k & Hc & Hro' & Hfc).
    eexists l', _. unfold addNewRuleToBottom. rewrite Hro, Hc.
    split; [done|]. simpl. split; [done|]. split; [done|].
    intros rs Hrs. destruct Hfc as (_ & _ & Hr' & _ & Hold & _).
    destruct (rulesOf_lookup _ _ _ _ Hro') as [_ Hrl'].
    by eapply readRules_push.
Qed.

(** A rule added to [Foo] in the loaded component, whose template was built
    by the field initialisers. *)
Lemma addNewRule_inserts_fresh_default_witness :
  rulesOf (store loaded) foo = Some (25, [VRef 10; VRef 16; VRef 24])
  ∧ readRule (store loaded) (VRef (defaultNewRule loaded))
    = Some defaultRuleValue
  ∧ (∃ l' st',
       addNewRuleToTop foo loaded = Returned tt st'
       ∧ rulesOf (store st') foo
         = Some (25, [VRef l'; VRef 10; VRef 16; VRef 24])
       ∧ freshCopy (store loaded) (store st') 25 l' defaultRuleValue
       ∧ readRules (store st') 25 = Some (defaultRuleValue :: rules fooFlag))
  ∧ (∃ l' st',
       addNewRuleToBottom foo loaded = Returned tt st'
       ∧ rulesOf (store st') foo
         = Some (25, [VRef 10; VRef 16; VRef 24; VRef l'])
       ∧ freshCopy (store loaded) (store st') 25 l' defaultRuleValue
       ∧ readRules (store st') 25
         = Some (rules fooFlag ++ [defaultRuleValue])).
Proof.
  assert (rulesOf (store loaded) foo
          = Some (25, [VRef 10; VRef 16; VRef 24])) as H1 by reflexivity.
  assert (readRule (store loaded) (VRef (defaultNewRule loaded))
          = Some defaultRuleValue) as H2 by reflexivity.
  assert (readRules (store loaded) 25 = Some (rules fooFlag)) as H3
    by reflexivity.
  destruct (addNewRule_inserts_fresh_default loaded foo 25 _ H1 H2)
    as (_ & (lt & stt & Ht1 & Ht2 & Ht3 & Ht4)
          & (lb & stb & Hb1 & Hb2 & Hb3 & Hb4)).
  split_and!; [exact H1 | exact H2 | |].
  - exists lt, stt. split_and!; [exact Ht1 | exact Ht2 | exact Ht3 |].
    exact (Ht4 _ H3).
  - exists lb, stb. split_and!; [exact Hb1 | exact Hb2 | exact Hb3 |].
    exact (Hb4 _ H3).
Defined.

(** C7. Whether a flag is valid on the current server depends on the server
    stage and the flag's stage only: on [dev] every flag is valid, on [test]
    exactly the flags staged [test] or [prod], on [prod] exactly the flags
    staged [prod]. *)
Theorem getFeatureValidOnCurrentServer_by_stage
    (st : State) (feature : loc) (n stage : string) (rl : loc) :
  store st !! feature = Some (OParam n stage rl) →
  ∃ b,
    getFeatureValidOnCurrentServer st feature = Some b
    ∧ (serverStage st = "dev" → b = true)
    ∧ (serverStage st = "test" → (b = true ↔ stage = "test" ∨ stage = "prod"))
    ∧ (serverStage st = "prod" → (b = true ↔ stage = "prod"))
    ∧ ∀ st2 feature2 n2 rl2,
        serverStage st2 = serverStage st →
        store st2 !! feature2 = Some (OParam n2 stage rl2) →
        getFeatureValidOnCurrentServer st2 feature2 = Some b.
Proof.
  intros Hf. unfold getFeatureValidOnCurrentServer. rewrite Hf.
  eexists. split; [done|].
  unfold DEV_SERVER_STAGE, TEST_SERVER_STAGE, PROD_SERVER_STAGE.
  split_and!.
  - intros ->. reflexivity.
  - intros ->. simpl.
    destruct (String.eqb_spec stage "test"), (String.eqb_spec stage "prod");
      simpl; intuition congruence.
  - intros ->. simpl.
    destruct (String.eqb_spec stage "prod"); intuition congruence.
  - intros st2 feature2 n2 rl2 -> ->. done.
Qed.

(** On the test server: [Foo] is staged [dev], [Bar] [test], [Baz]
    [prod]. *)
Lemma getFeatureValidOnCurrentServer_by_stage_witness :
  serverStage loaded = "test"
  ∧ getFeatureValidOnCurrentServer loaded foo = Some false
  ∧ getFeatureValidOnCurrentServer loaded bar = Some true
  ∧ getFeatureValidOnCurrentServer loaded baz = Some true.
Proof.
  assert (store loaded !! foo = Some (OParam "Foo" "dev" 25)) as Hfoo
    by reflexivity.
  assert (store loaded !! bar = Some (OParam "Bar" "test" 38)) as Hbar
    by reflexivity.
  assert (store loaded !! baz = Some (OParam "Baz" "prod" 40)) as Hbaz
    by reflexivity.
  destruct (getFeatureValidOnCurrentServer_by_stage loaded foo _ _ _ Hfoo)
    as (b1 & E1 & _ & T1 & _).
  destruct (getFeatureValidOnCurrentServer_by_stage loaded bar _ _ _ Hbar)
    as (b2 & E2 & _ & T2 & _).
  destruct (getFeatureValidOnCurrentServer_by_stage loaded baz _ _ _ Hbaz)
    as (b3 & E3 & _ & T3 & _).
  specialize (T1 eq_refl). specialize (T2 eq_refl). specialize (T3 eq_refl).
  split_and!; [reflexivity | | |].
  - rewrite E1. f_equal. destruct b1; [|reflexivity].
    destruct (proj1 T1 eq_refl); discriminate.
  - rewrite E2. f_equal. apply T2. by left.
  - rewrite E3. f_equal. apply T3. by right.
Defined.

(** C2. Without a backup for the flag's name, [isFeatureFlagChanged]
    throws.  With one, it returns [true] exactly when the flag's rules are
    not the backup's rules, and [false] exactly when the two sequences have
    the same length and equal rules at every index. *)
Theorem isFeatureFlagChanged_compares_with_backup
    (st : State) (feature : loc) (p : PlatformParameter) :
  readParam (store st) feature = Some p →
  (featureFlagNameToBackupMap st !! name p = None →
     isFeatureFlagChanged feature st
     = Thrown ("Backup not found for feature flag: " +:+ name p) st)
  ∧ (∀ original bp,
       featureFlagNameToBackupMap st !! name p = Some original →
       readParam (store st) original = Some bp →
       ∃ b,
         isFeatureFlagChanged feature st = Returned b st
         ∧ (b = true ↔ rules bp ≠ rules p)
         ∧ (b = false ↔
              length (rules bp) = length (rules p)
              ∧ ∀ i, rules bp !! i = rules p !! i)).
Proof.
  intros Hp. destruct (readParam_lookup _ _ _ Hp) as (rl & Hl & Hrs).
  unfold isFeatureFlagChanged. rewrite Hl. split.
  - by intros ->.
  - intros original bp -> Hbp.
    destruct (readParam_lookup _ _ _ Hbp) as (orl & Hol & Hors).
    rewrite Hol. unfold isEqualAt. rewrite Hors, Hrs.
    eexists. split; [done|].
    pose proof (isEqualRules_spec (rules bp) (rules p)) as Heq.
    assert (rules bp = rules p
            ↔ length (rules bp) = length (rules p)
              ∧ ∀ i, rules bp !! i = rules p !! i) as Hpointwise.
    { split; [by intros ->|]. intros [_ Hi]. by apply list_eq. }
    rewrite <- Hpointwise, <- Heq.
    destruct (isEqualRules (rules bp) (rules p)); simpl; split;
      split; congruence.
Qed.

(** [Foo] right after loading, after an edit, and without its backup. *)
Lemma isFeatureFlagChanged_compares_with_backup_witness :
  readParam (store loaded) foo = Some fooFlag
  ∧ isFeatureFlagChanged foo loaded = Returned false loaded
  ∧ isFeatureFlagChanged foo edited = Returned true edited
  ∧ isFeatureFlagChanged foo loadedWithoutBackups
    = Thrown "Backup not found for feature flag: Foo" loadedWithoutBackups.
Proof.
  assert (readParam (store loaded) foo = Some fooFlag) as H1 by reflexivity.
  assert (readParam (store edited) foo
          = Some (mkParam "Foo" "dev" [versionRule; flavorRule])) as H2
    by reflexivity.
  assert (readParam (store loadedWithoutBackups) foo = Some fooFlag) as H3
    by reflexivity.
  destruct (isFeatureFlagChanged_compares_with_backup loaded foo _ H1)
    as [_ Hsame].
  destruct (isFeatureFlagChanged_compares_with_backup edited foo _ H2)
    as [_ Hdiff].
  destruct (isFeatureFlagChanged_compares_with_backup loadedWithoutBackups
              foo _ H3) as [Hnone _].
  split_and!; [exact H1 | | |].
  - destruct (Hsame fooBackup fooFlag) as (b & E & Ht & _);
      [vm_compute; reflexivity | reflexivity |].
    rewrite E. f_equal. destruct b; [|reflexivity].
    by destruct (proj1 Ht eq_refl).
  - destruct (Hdiff fooBackup fooFlag) as (b & E & Ht & _);
      [vm_compute; reflexivity | reflexivity |].
    rewrite E. f_equal. apply Ht. discriminate.
  - apply Hnone. vm_compute. reflexivity.
Defined.

(** C10. After the user confirms: without a backup for the flag's name,
    [clearChanges] returns with the state as it was, where
    [isFeatureFlagChanged] throws; with a backup, the flag's [rules] becomes
    a new array that reads as the backup's rules and is made of new objects
    only, the backup and every object but the flag stay as they were. *)
Theorem clearChanges_restores_backup
    (st : State) (featureFlag : loc) (n stage : string) (rl : loc) :
  store st !! featureFlag = Some (OParam n stage rl) →
  (featureFlagNameToBackupMap st !! n = None →
     clearChanges true featureFlag st = Returned tt st
     ∧ isFeatureFlagChanged featureFlag st
       = Thrown ("Backup not found for feature flag: " +:+ n) st)
  ∧ (∀ backup bp,
       featureFlagNameToBackupMap st !! n = Some backup →
       readParam (store st) backup = Some bp →
       ∃ rl' st',
         clearChanges true featureFlag st = Returned tt st'
         ∧ store st' !! featureFlag = Some (OParam n stage rl')
         ∧ readRules (store st') rl' = Some (rules bp)
         ∧ readParam (store st') featureFlag
           = Some (mkParam n stage (rules bp))
         ∧ length (store st) ≤ rl'
         ∧ (∀ y, reach (store st') rl' y → length (store st) ≤ y)
         ∧ readParam (store st') backup = Some bp
         ∧ ∀ l o, l ≠ featureFlag →
             store st !! l = Some o → store st' !! l = Some o).
Proof.
  intros Hf. split.
  - intros Hnone. unfold clearChanges, isFeatureFlagChanged.
    simpl. by rewrite Hf, Hnone.
  - intros backup bp Hb Hbp.
    destruct (readParam_lookup _ _ _ Hbp) as (brl & Hbl & Hbrs).
    destruct (cloneDeepRules_copies _ _ _ Hbrs)
      as (rl' & k & Hc & Hbd & Hfr & Hrd).
    pose proof (lookup_lt_Some _ _ _ Hf) as Hlt.
    set (h' := <[featureFlag := OParam n stage rl']> (store st ++ k)).
    assert (keeps (length (store st)) k h') as Hk.
    { apply keeps_insert; [done|]. apply keeps_self. }
    assert (h' !! featureFlag = Some (OParam n stage rl')) as Hf'.
    { apply list_lookup_insert_eq. rewrite length_app. lia. }
    assert (readParam h' featureFlag = Some (mkParam n stage (rules bp)))
      as Hnew.
    { unfold readParam. by rewrite Hf', (Hrd _ Hk). }
    exists rl', (setStore h' st).
    unfold clearChanges. simpl. rewrite Hf, Hb, Hbl, Hc. simpl.
    split_and!; try done.
    + by apply Hrd.
    + lia.
    + intros y Hy. eapply reach_new; [exact Hfr|exact Hlt|exact Hy|lia].
    + destruct (decide (backup = featureFlag)) as [->|Hne].
      * rewrite Hnew. f_equal. simplify_eq. by destruct bp.
      * eapply readParam_sub; [| |exact Hbp].
        -- intros o Ho. unfold h'. rewrite list_lookup_insert_ne by done.
           by apply lookup_app_l_Some.
        -- eapply sub_trans; [apply (sub_app _ _ k)|]. apply sub_insert.
           intros o Ho. rewrite (lookup_app_l_Some _ _ _ _ Hf) in Ho.
           simplify_eq. simpl. tauto.
    + intros l o Hne Hl. unfold h'. rewrite list_lookup_insert_ne by done.
      by apply lookup_app_l_Some.
Qed.

(** Reverting the edit of [Foo], with and without its backup. *)
Lemma clearChanges_restores_backup_witness :
  store edited !! foo = Some (OParam "Foo" "dev" 25)
  ∧ clearChanges true foo loadedWithoutBackups
    = Returned tt loadedWithoutBackups
  ∧ ∃ rl' st',
      clearChanges true foo edited = Returned tt st'
      ∧ readParam (store st') foo = Some fooFlag
      ∧ length (store edited) ≤ rl'
      ∧ readParam (store st') fooBackup = Some fooFlag.
Proof.
  assert (store edited !! foo = Some (OParam "Foo" "dev" 25)) as H1
    by reflexivity.
  assert (store loadedWithoutBackups !! foo = Some (OParam "Foo" "dev" 25))
    as H2 by reflexivity.
  destruct (clearChanges_restores_backup edited foo _ _ _ H1) as [_ Hsome].
  destruct (clearChanges_restores_backup loadedWithoutBackups foo _ _ _ H2)
    as [Hnone _].
  split_and!; [exact H1 | |].
  - apply Hnone. vm_compute. reflexivity.
  - destruct (Hsome fooBackup fooFlag)
      as (rl' & st' & E & _ & _ & Hp & Hn & _ & Hb & _);
      [vm_compute; reflexivity | reflexivity |].
    exists rl', st'. split_and!; [exact E | exact Hp | exact Hn | exact Hb].
Defined.

(** C3. One save of a flag, by the answer of the update API to the request.
    - Resolved: the backup entry of the flag's name becomes a new deep copy
      of the flag, and "Saved successfully." is emitted.
    - An [HttpErrorResponse] with a server message (a body that has a
      non-empty [error]): "Update failed: " followed by that message.
    - An [HttpErrorResponse] without one: "Update failed.".
    - Any other failure, whatever it is: [Error('Unexpected error
      response.')] is thrown, no message is emitted, and the backup map and
      the store are what they were. *)
Theorem updateFeatureFlag_outcomes
    (api : list Event → ApiCall → ApiOutcome)
    (st : State) (feature : loc) (commitMessage : string)
    (p : PlatformParameter) :
  readParam (store st) feature = Some p →
  let call := mkCall (name p) commitMessage (Some (rules p)) in
  (api (trace st) call = Resolved →
     ∃ b st',
       updateFeatureFlag api feature commitMessage st = Returned tt st'
       ∧ featureFlagNameToBackupMap st'
         = <[name p := b]> (featureFlagNameToBackupMap st)
       ∧ readParam (store st') b = Some p
       ∧ length (store st) ≤ b
       ∧ (∀ y, reach (store st') b y → length (store st) ≤ y)
       ∧ (∃ k, store st' = store st ++ k)
       ∧ trace st'
         = trace st ++ [Request call; StatusMessage "Saved successfully."])
  ∧ (∀ m, api (trace st) call = Rejected (HttpErrorResponse (Some (Some m))) →
       m ≠ EmptyString →
       ∃ st',
         updateFeatureFlag api feature commitMessage st = Returned tt st'
         ∧ featureFlagNameToBackupMap st' = featureFlagNameToBackupMap st
         ∧ store st' = store st
         ∧ trace st'
           = trace st
             ++ [Request call; StatusMessage ("Update failed: " +:+ m)])
  ∧ (∀ error, api (trace st) call = Rejected (HttpErrorResponse error) →
       error = None ∨ error = Some None ∨ error = Some (Some EmptyString) →
       ∃ st',
         updateFeatureFlag api feature commitMessage st = Returned tt st'
         ∧ featureFlagNameToBackupMap st' = featureFlagNameToBackupMap st
         ∧ store st' = store st
         ∧ trace st'
           = trace st ++ [Request call; StatusMessage "Update failed."])
  ∧ (∀ what, api (trace st) call = Rejected (OtherFailure what) →
       ∃ st',
         updateFeatureFlag api feature commitMessage st
         = Thrown "Unexpected error response." st'
         ∧ featureFlagNameToBackupMap st' = featureFlagNameToBackupMap st
         ∧ store st' = store st
         ∧ trace st' = trace st ++ [Request call]).
Proof.
  intros Hp call.
  pose proof (updateFeatureFlag_step api st feature commitMessage p Hp)
    as Hstep.
  fold call in Hstep. split_and!.
  - intros Hapi. rewrite Hapi in Hstep.
    destruct Hstep as (b & k & Hc & Hb & Hf & Hrd & Hrun).
    eexists b, _. split; [exact Hrun|]. simpl. split_and!; try done.
    + intros y Hy. by eapply reach_new_app.
    + by exists k.
  - intros m Hapi Hm. rewrite Hapi in Hstep. simpl in Hstep.
    destruct (String.eqb m EmptyString) eqn:E;
      [by apply String.eqb_eq in E|].
    eexists. split; [exact Hstep|]. done.
  - intros error Hapi He. rewrite Hapi in Hstep.
    assert (serverMessage error = None) as Hnone.
    { by destruct He as [->|[->| ->]]. }
    rewrite Hnone in Hstep. eexists. split; [exact Hstep|]. done.
  - intros what Hapi. rewrite Hapi in Hstep.
    eexists. split; [exact Hstep|]. done.
Qed.

(** The four kinds of answer, on the loaded component. *)
Lemma updateFeatureFlag_outcomes_witness :
  (∃ b st',
     updateFeatureFlag failingOnBar foo "Update feature 'Foo'." loaded
     = Returned tt st'
     ∧ featureFlagNameToBackupMap st'
       = <["Foo" := b]> (featureFlagNameToBackupMap loaded)
     ∧ readParam (store st') b = Some fooFlag
     ∧ length (store loaded) ≤ b)
  ∧ (∃ st',
       updateFeatureFlag failingOnBar baz "Update feature 'Baz'." loaded
       = Returned tt st'
       ∧ trace st'
         = [Request (mkCall "Baz" "Update feature 'Baz'." (Some []));
            StatusMessage "Update failed: Not allowed."])
  ∧ (∃ st',
       updateFeatureFlag rejectingOthers baz "Update feature 'Baz'." loaded
       = Returned tt st'
       ∧ trace st'
         = [Request (mkCall "Baz" "Update feature 'Baz'." (Some []));
            StatusMessage "Update failed."])
  ∧ (∃ st',
       updateFeatureFlag failingOnBar bar "Update feature 'Bar'." loaded
       = Thrown "Unexpected error response." st'
       ∧ featureFlagNameToBackupMap st' = featureFlagNameToBackupMap loaded
       ∧ trace st'
         = [Request (mkCall "Bar" "Update feature 'Bar'."
                       (Some (rules barFlag)))]).
Proof.
  assert (readParam (store loaded) foo = Some fooFlag) as Hfoo by reflexivity.
  assert (readParam (store loaded) bar = Some barFlag) as Hbar by reflexivity.
  assert (readParam (store loaded) baz = Some bazFlag) as Hbaz by reflexivity.
  split_and!.
  - destruct (updateFeatureFlag_outcomes failingOnBar loaded foo
                "Update feature 'Foo'." _ Hfoo) as (H & _).
    destruct (H eq_refl) as (b & st' & E & Hm & Hr & Hl & _).
    exists b, st'. split_and!; [exact E | exact Hm | exact Hr | exact Hl].
  - destruct (updateFeatureFlag_outcomes failingOnBar loaded baz
                "Update feature 'Baz'." _ Hbaz) as (_ & H & _).
    destruct (H "Not allowed." eq_refl) as (st' & E & _ & _ & Ht);
      [discriminate|].
    exists st'. split; [exact E | exact Ht].
  - destruct (updateFeatureFlag_outcomes rejectingOthers loaded baz
                "Update feature 'Baz'." _ Hbaz) as (_ & _ & H & _).
    destruct (H (Some None) eq_refl) as (st' & E & _ & _ & Ht);
      [by right; left|].
    exists st'. split; [exact E | exact Ht].
  - destruct (updateFeatureFlag_outcomes failingOnBar loaded bar
                "Update feature 'Bar'." _ Hbar) as (_ & _ & _ & H).
    destruct (H _ eq_refl) as (st' & E & Hm & _ & Ht).
    exists st'. split_and!; [exact E | exact Hm | exact Ht].
Defined.

(** C4. The bulk save, once confirmed, saves the loaded flags in list order,
    each save ending (with its status message) before the next request is
    made, whether the save was accepted or failed with an
    [HttpErrorResponse].  If the flags [before] are saved this way and
    nothing is left, it returns.  If the next flag's request is answered
    with another failure, it throws right after that request: the saves of
    [before] are complete and no flag of [after] is requested. *)
Theorem saveDefaultValueToStorage_in_order
    (api : list Event → ApiCall → ApiOutcome) (st : State)
    (before rest : list PlatformParameter) (tr1 : list Event) :
  Forall2 (λ f p, readParam (store st) f = Some p)
    (featureFlags st) (before ++ rest) →
  saved api (trace st) before tr1 →
  (rest = [] →
     ∃ st',
       saveDefaultValueToStorage api true st = Returned tt st'
       ∧ trace st' = tr1)
  ∧ (∀ pN after what, rest = pN :: after →
       api tr1 (callFor pN) = Rejected (OtherFailure what) →
       ∃ st',
         saveDefaultValueToStorage api true st
         = Thrown "Unexpected error response." st'
         ∧ trace st' = tr1 ++ [Request (callFor pN)]).
Proof.
  intros Hfs Hsaved. unfold saveDefaultValueToStorage. simpl.
  by apply (saveEach_run api before).
Qed.

(** Three flags.  With a backend that fails on the second one, the first
    save is complete and the third is not requested; with a backend that
    only rejects, all three are requested in order. *)
Lemma saveDefaultValueToStorage_in_order_witness :
  (∃ st',
     saveDefaultValueToStorage failingOnBar true loaded
     = Thrown "Unexpected error response." st'
     ∧ trace st'
       = [Request (callFor fooFlag); StatusMessage "Saved successfully.";
          Request (callFor barFlag)])
  ∧ (∃ st',
       saveDefaultValueToStorage rejectingOthers true loaded
       = Returned tt st'
       ∧ trace st'
         = [Request (callFor fooFlag); StatusMessage "Saved successfully.";
            Request (callFor barFlag);
            StatusMessage "Update failed: Not allowed.";
            Request (callFor bazFlag); StatusMessage "Update failed."]).
Proof.
  assert (Forall2 (λ f p, readParam (store loaded) f = Some p)
            (featureFlags loaded) [fooFlag; barFlag; bazFlag]) as Hfs.
  { assert (featureFlags loaded = [foo; bar; baz]) as ->
      by (vm_compute; reflexivity).
    repeat (apply List.Forall2_cons; [vm_compute; reflexivity|]).
    apply List.Forall2_nil. }
  split.
  - assert (saved failingOnBar (trace loaded) [fooFlag]
              [Request (callFor fooFlag);
               StatusMessage "Saved successfully."]) as Hsaved.
    { apply (saved_next _ _ _ _ "Saved successfully.");
        [vm_compute; reflexivity|].
      apply saved_none. }
    destruct (saveDefaultValueToStorage_in_order failingOnBar loaded
                [fooFlag] [barFlag; bazFlag] _ Hfs Hsaved) as [_ H].
    exact (H barFlag [bazFlag] _ eq_refl eq_refl).
  - assert (saved rejectingOthers (trace loaded) [fooFlag; barFlag; bazFlag]
              [Request (callFor fooFlag); StatusMessage "Saved successfully.";
               Request (callFor barFlag);
               StatusMessage "Update failed: Not allowed.";
               Request (callFor bazFlag); StatusMessage "Update failed."])
      as Hsaved.
    { apply (saved_next _ _ _ _ "Saved successfully.");
        [vm_compute; reflexivity|].
      apply (saved_next _ _ _ _ "Update failed: Not allowed.");
        [vm_compute; reflexivity|].
      apply (saved_next _ _ _ _ "Update failed.");
        [vm_compute; reflexivity|].
      apply saved_none. }
    destruct (saveDefaultValueToStorage_in_order rejectingOthers loaded
                [fooFlag; barFlag; bazFlag] [] _ Hfs Hsaved) as [H _].
    exact (H eq_refl).
Defined.


(** * Further properties *)

(** ** The validator, in both directions and at every level *)

Module ValidatorMoreFacts.
Import Lodash JsArray Validator Vocabulary LodashFacts JsArrayFacts.
Import ValidatorFacts.
Local Open Scope Z_scope.

Lemma findIndexFrom_range {A} (p : A → bool) i xs :
  findIndexFrom p i xs = -1 ∨ i ≤ findIndexFrom p i xs.
Proof.
  revert i. induction xs as [|x xs IH]; intros i; simpl; [by left|].
  destruct (p x); [right; lia|]. destruct (IH (i + 1)); [by left|right; lia].
Qed.

Lemma findIndexFrom_minus_one {A} (p : A → bool) i xs :
  0 ≤ i → findIndexFrom p i xs = -1 → Forall (λ x, p x = false) xs.
Proof.
  revert i. induction xs as [|x xs IH]; intros i Hi; simpl; [constructor|].
  destruct (p x) eqn:E; [lia|]. intros H. constructor; [done|].
  apply (IH (i + 1)); [lia|done].
Qed.

Lemma findIndex_minus_one {A} (eq : A → A → bool) (x : A) seen :
  (∀ a b, eq a b = true ↔ a = b) →
  findIndex (λ s, eq s x) seen = -1 → x ∉ seen.
Proof.
  intros Heq H Hin. apply findIndexFrom_minus_one in H; [|lia].
  pose proof (proj1 (Forall_forall _ _) H _ Hin) as Hx. simpl in Hx.
  assert (eq x x = true) by (by apply Heq). congruence.
Qed.

(** Issues are only ever appended, and what is seen does not depend on
    them. *)
Lemma conditionsLoop_acc ri fi cs : ∀ ci seen issues,
  conditionsLoop ri fi ci cs seen issues
  = ((conditionsLoop ri fi ci cs seen []).1,
     issues ++ (conditionsLoop ri fi ci cs seen []).2).
Proof.
  induction cs as [|c cs IH]; intros ci seen issues; simpl.
  - by rewrite app_nil_r.
  - destruct (negb _).
    + rewrite (IH _ _ (push issues _)), (IH _ _ (push [] _)). simpl.
      unfold push. by rewrite <- app_assoc.
    + apply IH.
Qed.

Lemma filtersLoop_acc ri fs : ∀ fi seen issues,
  filtersLoop ri fi fs seen issues
  = ((filtersLoop ri fi fs seen []).1,
     issues ++ (filtersLoop ri fi fs seen []).2).
Proof.
  induction fs as [|f fs IH]; intros fi seen issues; simpl.
  - by rewrite app_nil_r.
  - destruct (negb _).
    + rewrite (IH _ _ (push issues _)), (IH _ _ (push [] _)). simpl.
      unfold push. by rewrite <- app_assoc.
    + rewrite (conditionsLoop_acc _ _ _ _ _ issues). simpl.
      rewrite (IH _ _ (issues ++ _)), (IH _ _ (conditionsLoop _ _ _ _ _ _).2).
      simpl. by rewrite <- app_assoc.
Qed.

Lemma rulesLoop_acc rs : ∀ ri seen issues,
  rulesLoop ri rs seen issues
  = ((rulesLoop ri rs seen []).1, issues ++ (rulesLoop ri rs seen []).2).
Proof.
  induction rs as [|r rs IH]; intros ri seen issues; simpl.
  - by rewrite app_nil_r.
  - destruct (negb _).
    + rewrite (IH _ _ (push issues _)), (IH _ _ (push [] _)). simpl.
      unfold push. by rewrite <- app_assoc.
    + rewrite (filtersLoop_acc _ _ _ _ issues). simpl.
      rewrite (IH _ _ (issues ++ _)), (IH _ _ (filtersLoop _ _ _ _ _).2).
      simpl. by rewrite <- app_assoc.
Qed.

(** A loop that pushed no issue met no element twice. *)
Lemma conditionsLoop_silent ri fi cs : ∀ ci seen,
  NoDup seen → (conditionsLoop ri fi ci cs seen []).2 = [] →
  NoDup (seen ++ cs).
Proof.
  induction cs as [|c cs IH]; intros ci seen Hseen; simpl.
  - by rewrite app_nil_r.
  - destruct (findIndex _ seen =? -1) eqn:E; simpl.
    + apply Z.eqb_eq, (findIndex_minus_one isEqualCondition) in E;
        [|apply isEqualCondition_spec].
      intros H. rewrite (cons_middle c), app_assoc. apply (IH (ci + 1)); [|done].
      apply NoDup_app. split_and!; [done| |apply NoDup_singleton].
      intros x Hx Hc. apply list_elem_of_singleton in Hc. by subst.
    + rewrite conditionsLoop_acc. simpl. unfold push. simpl. done.
Qed.

Lemma filtersLoop_silent ri fs : ∀ fi seen,
  NoDup seen → (filtersLoop ri fi fs seen []).2 = [] →
  NoDup (seen ++ fs) ∧ Forall (λ f, NoDup (conditions f)) fs.
Proof.
  induction fs as [|f fs IH]; intros fi seen Hseen; simpl.
  - rewrite app_nil_r. by split.
  - destruct (findIndex _ seen =? -1) eqn:E; simpl.
    + apply Z.eqb_eq, (findIndex_minus_one isEqualFilter) in E;
        [|apply isEqualFilter_spec].
      rewrite filtersLoop_acc. simpl. intros H.
      apply app_eq_nil in H as [Hc H].
      apply (IH (fi + 1)) in H as [Hnd Hall].
      * split; [by rewrite (cons_middle f), app_assoc|].
        constructor; [|done].
        by apply (conditionsLoop_silent ri fi (conditions f) 0 []);
          [constructor|].
      * apply NoDup_app. split_and!; [done| |apply NoDup_singleton].
        intros x Hx Hc'. apply list_elem_of_singleton in Hc'. by subst.
    + rewrite filtersLoop_acc. simpl. unfold push. simpl. done.
Qed.

Lemma rulesLoop_silent rs : ∀ ri seen,
  NoDup seen → (rulesLoop ri rs seen []).2 = [] →
  NoDup (seen ++ rs) ∧ Forall distinctInside rs.
Proof.
  induction rs as [|r rs IH]; intros ri seen Hseen; simpl.
  - rewrite app_nil_r. by split.
  - destruct (findIndex _ seen =? -1) eqn:E; simpl.
    + apply Z.eqb_eq, (findIndex_minus_one isEqualRule) in E;
        [|apply isEqualRule_spec].
      rewrite rulesLoop_acc. simpl. intros H.
      apply app_eq_nil in H as [Hc H].
      apply (IH (ri + 1)) in H as [Hnd Hall].
      * split; [by rewrite (cons_middle r), app_assoc|].
        constructor; [|done].
        apply (filtersLoop_silent ri (filters r) 0 []) in Hc;
          [|constructor].
        by rewrite app_nil_l in Hc.
      * apply NoDup_app. split_and!; [done| |apply NoDup_singleton].
        intros x Hx Hc'. apply list_elem_of_singleton in Hc'. by subst.
    + rewrite rulesLoop_acc. simpl. unfold push. simpl. done.
Qed.

Lemma conditionsLoop_app ri fi cs1 cs2 : ∀ ci seen issues,
  conditionsLoop ri fi ci (cs1 ++ cs2) seen issues
  = conditionsLoop ri fi (ci + Z.of_nat (length cs1)) cs2
      (conditionsLoop ri fi ci cs1 seen issues).1
      (conditionsLoop ri fi ci cs1 seen issues).2.
Proof.
  induction cs1 as [|c cs1 IH]; intros ci seen issues; simpl.
  - by rewrite Z.add_0_r.
  - destruct (negb _); rewrite IH;
      replace (ci + 1 + Z.of_nat (length cs1))
        with (ci + Z.pos (Pos.of_succ_nat (length cs1))) by lia; done.
Qed.

Lemma filtersLoop_app ri fs1 fs2 : ∀ fi seen issues,
  filtersLoop ri fi (fs1 ++ fs2) seen issues
  = filtersLoop ri (fi + Z.of_nat (length fs1)) fs2
      (filtersLoop ri fi fs1 seen issues).1
      (filtersLoop ri fi fs1 seen issues).2.
Proof.
  induction fs1 as [|f fs1 IH]; intros fi seen issues; simpl.
  - by rewrite Z.add_0_r.
  - destruct (negb _); rewrite IH;
      replace (fi + 1 + Z.of_nat (length fs1))
        with (fi + Z.pos (Pos.of_succ_nat (length fs1))) by lia; done.
Qed.

(** The element [x] is in [before ++ x :: after] and not in [before]:
    [findIndex] gives its index. *)
Lemma findIndex_seen {A} (eq : A → A → bool) (x : A) before after :
  (∀ a b, eq a b = true ↔ a = b) → x ∉ before →
  findIndex (λ s, eq s x) (before ++ x :: after) = Z.of_nat (length before).
Proof.
  intros Heq Hx. apply findIndex_first; [|by apply Heq].
  apply Forall_forall. intros y Hy.
  destruct (eq y x) eqn:E; [|done]. apply Heq in E. subst. contradiction.
Qed.

(** Two equal conditions among otherwise distinct ones. *)
Lemma conditionsLoop_pair ri fi l1 c l2 l3 :
  NoDup (l1 ++ c :: l2 ++ l3) →
  conditionsLoop ri fi 0 (l1 ++ c :: l2 ++ c :: l3) [] []
  = (l1 ++ c :: l2 ++ l3,
     [conditionIssue ri fi (Z.of_nat (length l1))
        (Z.of_nat (length l1 + 1 + length l2))]).
Proof.
  intros Hnd.
  assert (l1 ++ c :: l2 ++ l3 = (l1 ++ c :: l2) ++ l3) as Hassoc
    by (by rewrite <- app_assoc).
  assert (NoDup (l1 ++ c :: l2)) as Hn2.
  { rewrite Hassoc in Hnd. by apply NoDup_app in Hnd as [? _]. }
  assert (c ∉ l1) as Hc.
  { apply NoDup_app in Hn2 as (_ & Hd & _). intros Hx. apply (Hd _ Hx). left. }
  replace (l1 ++ c :: l2 ++ c :: l3) with ((l1 ++ c :: l2) ++ c :: l3)
    by (by rewrite <- app_assoc).
  rewrite conditionsLoop_app.
  rewrite (conditionsLoop_distinct ri fi 0 (l1 ++ c :: l2) [] []) by done.
  simpl. rewrite (findIndex_seen isEqualCondition);
    [|apply isEqualCondition_spec|done].
  replace (negb (Z.of_nat (length l1) =? -1)) with true
    by (symmetry; apply negb_true_iff, Z.eqb_neq; lia).
  rewrite conditionsLoop_distinct by (by rewrite <- Hassoc).
  rewrite <- Hassoc. unfold push. simpl. do 3 f_equal.
  rewrite length_app. simpl. lia.
Qed.

(** Two equal filters among otherwise distinct ones. *)
Lemma filtersLoop_pair ri l1 f l2 l3 :
  NoDup (l1 ++ f :: l2 ++ l3) →
  Forall (λ g, NoDup (conditions g)) (l1 ++ f :: l2 ++ l3) →
  filtersLoop ri 0 (l1 ++ f :: l2 ++ f :: l3) [] []
  = (l1 ++ f :: l2 ++ l3,
     [filterIssue ri (Z.of_nat (length l1))
        (Z.of_nat (length l1 + 1 + length l2))]).
Proof.
  intros Hnd Hin.
  assert (l1 ++ f :: l2 ++ l3 = (l1 ++ f :: l2) ++ l3) as Hassoc
    by (by rewrite <- app_assoc).
  rewrite Hassoc in Hin. apply Forall_app in Hin as [Hin1 Hin3].
  assert (NoDup (l1 ++ f :: l2)) as Hn2.
  { rewrite Hassoc in Hnd. by apply NoDup_app in Hnd as [? _]. }
  assert (f ∉ l1) as Hf.
  { apply NoDup_app in Hn2 as (_ & Hd & _). intros Hx. apply (Hd _ Hx). left. }
  replace (l1 ++ f :: l2 ++ f :: l3) with ((l1 ++ f :: l2) ++ f :: l3)
    by (by rewrite <- app_assoc).
  rewrite filtersLoop_app.
  rewrite (filtersLoop_distinct ri 0 (l1 ++ f :: l2) [] []) by done.
  simpl. rewrite (findIndex_seen isEqualFilter);
    [|apply isEqualFilter_spec|done].
  replace (negb (Z.of_nat (length l1) =? -1)) with true
    by (symmetry; apply negb_true_iff, Z.eqb_neq; lia).
  rewrite filtersLoop_distinct by (by rewrite <- ?Hassoc).
  rewrite <- Hassoc. unfold push. simpl. do 3 f_equal.
  rewrite length_app. simpl. lia.
Qed.

(** One filter among distinct ones, with conditions of its own kind: the
    issues are those of its conditions. *)
Lemma filtersLoop_one ri l1 f l2 :
  NoDup (l1 ++ f :: l2) →
  Forall (λ g, NoDup (conditions g)) (l1 ++ l2) →
  (filtersLoop ri 0 (l1 ++ f :: l2) [] []).2
  = (conditionsLoop ri (Z.of_nat (length l1)) 0 (conditions f) [] []).2.
Proof.
  intros Hnd Hin. apply Forall_app in Hin as [Hin1 Hin2].
  assert (NoDup l1) as Hn1 by (by apply NoDup_app in Hnd as [? _]).
  assert (f ∉ l1) as Hf.
  { apply NoDup_app in Hnd as (_ & Hd & _). intros Hx. apply (Hd _ Hx). left. }
  rewrite filtersLoop_app.
  rewrite (filtersLoop_distinct ri 0 l1 [] []) by done.
  simpl. rewrite (absent_from_seen isEqualFilter);
    [|apply isEqualFilter_spec|done].
  simpl. rewrite filtersLoop_acc. simpl.
  rewrite filtersLoop_distinct;
    [| by unfold push; rewrite <- app_assoc | done].
  simpl. by rewrite app_nil_r.
Qed.

(** One rule among distinct ones that are distinct inside: the issues are
    those of its filters. *)
Lemma rulesLoop_one l1 r l2 :
  NoDup (l1 ++ r :: l2) → Forall distinctInside (l1 ++ l2) →
  (rulesLoop 0 (l1 ++ r :: l2) [] []).2
  = (filtersLoop (Z.of_nat (length l1)) 0 (filters r) [] []).2.
Proof.
  intros Hnd Hin. apply Forall_app in Hin as [Hin1 Hin2].
  assert (NoDup l1) as Hn1 by (by apply NoDup_app in Hnd as [? _]).
  assert (r ∉ l1) as Hr.
  { apply NoDup_app in Hnd as (_ & Hd & _). intros Hx. apply (Hd _ Hx). left. }
  rewrite rulesLoop_app.
  rewrite (rulesLoop_distinct 0 l1 [] []) by done.
  simpl. rewrite (absent_from_seen isEqualRule);
    [|apply isEqualRule_spec|done].
  simpl. rewrite rulesLoop_acc. simpl.
  rewrite rulesLoop_distinct;
    [| by unfold push; rewrite <- app_assoc | done].
  simpl. by rewrite app_nil_r.
Qed.

(** A list around its element at [k]. *)
Lemma split_at_one {A} (xs : list A) (k : nat) (x : A) :
  xs !! k = Some x →
  ∃ l1 l2, xs = l1 ++ x :: l2 ∧ length l1 = k ∧ delete k xs = l1 ++ l2.
Proof.
  intros Hk. pose proof (lookup_lt_Some _ _ _ Hk) as Hlt.
  exists (take k xs), (drop (S k) xs). split_and!.
  - by rewrite take_drop_middle.
  - rewrite length_take. lia.
  - apply delete_take_drop.
Qed.

End ValidatorMoreFacts.

Import ValidatorMoreFacts.

(** X1. A flag for which [validateFeatureFlag] returns no issue has no two
    equal sibling rules, no two equal sibling filters in a rule, and no two
    equal sibling conditions in a filter. *)
Theorem validateFeatureFlag_silent_means_distinct
    (feature : PlatformParameter) :
  validateFeatureFlag feature = [] →
  NoDup (rules feature) ∧ Forall distinctInside (rules feature).
Proof.
  unfold validateFeatureFlag. intros H.
  apply rulesLoop_silent in H; [|constructor]. by rewrite app_nil_l in H.
Qed.

Lemma validateFeatureFlag_silent_means_distinct_witness :
  validateFeatureFlag fooFlag = []
  ∧ NoDup (rules fooFlag) ∧ Forall distinctInside (rules fooFlag).
Proof.
  assert (validateFeatureFlag fooFlag = []) as H by (vm_compute; reflexivity).
  split; [exact H|].
  exact (validateFeatureFlag_silent_means_distinct fooFlag H).
Defined.

(** X2. Distinct rules, of which the one at index [k] has two equal filters
    at indices [i < j] and nothing else equal, and the others nothing equal
    inside: the only issue is the filter issue of rule [k + 1] naming the
    filters [i + 1] and [j + 1]. *)
Theorem validateFeatureFlag_duplicate_filter
    (feature : PlatformParameter) (k i j : nat)
    (r : PlatformParameterRule) (f : PlatformParameterFilter) :
  NoDup (rules feature) →
  rules feature !! k = Some r →
  Forall distinctInside (delete k (rules feature)) →
  i < j → filters r !! i = Some f → filters r !! j = Some f →
  NoDup (delete j (filters r)) →
  Forall (λ g, NoDup (conditions g)) (filters r) →
  validateFeatureFlag feature
  = [filterIssue (Z.of_nat k) (Z.of_nat i) (Z.of_nat j)].
Proof.
  intros Hnd Hk Hothers Hij Hi Hj Hndf Hconds.
  destruct (split_at_one _ _ _ Hk) as (l1 & l2 & Hrs & Hl1 & Hdel).
  destruct (split_at_two _ _ _ _ Hij Hi Hj)
    as (m1 & m2 & m3 & Hfs & Hm1 & Hm2 & Hdelf).
  unfold validateFeatureFlag. rewrite Hrs.
  rewrite rulesLoop_one; [| by rewrite <- Hrs | by rewrite <- Hdel].
  rewrite Hfs, filtersLoop_pair.
  - simpl. do 2 f_equal; lia.
  - by rewrite <- Hdelf.
  - rewrite Hfs in Hconds.
    rewrite !Forall_app, !Forall_cons, !Forall_app, !Forall_cons in Hconds.
    rewrite !Forall_app, !Forall_cons, !Forall_app. tauto.
Qed.

Lemma validateFeatureFlag_duplicate_filter_witness :
  validateFeatureFlag MoreExamples.flagWithDuplicateFilter
  = ["In the 2-th rule: the 1-th & 3-th filters are identical."].
Proof.
  rewrite (validateFeatureFlag_duplicate_filter
             MoreExamples.flagWithDuplicateFilter 1 0 2
             MoreExamples.ruleWithDuplicateFilter MoreExamples.webFilter).
  - vm_compute. reflexivity.
  - compute_done.
  - reflexivity.
  - compute_done.
  - lia.
  - reflexivity.
  - reflexivity.
  - compute_done.
  - compute_done.
Defined.

(** X3. Distinct rules, of which the one at index [k] has distinct filters,
    the filter at index [m] with two equal conditions at indices [i < j]
    and no others equal, and nothing else equal anywhere: the only issue is
    the condition issue of rule [k + 1], filter [m + 1], naming the
    conditions [i + 1] and [j + 1]. *)
Theorem validateFeatureFlag_duplicate_condition
    (feature : PlatformParameter) (k m i j : nat)
    (r : PlatformParameterRule) (f : PlatformParameterFilter)
    (c : Condition) :
  NoDup (rules feature) →
  rules feature !! k = Some r →
  Forall distinctInside (delete k (rules feature)) →
  NoDup (filters r) →
  filters r !! m = Some f →
  Forall (λ g, NoDup (conditions g)) (delete m (filters r)) →
  i < j → conditions f !! i = Some c → conditions f !! j = Some c →
  NoDup (delete j (conditions f)) →
  validateFeatureFlag feature
  = [conditionIssue (Z.of_nat k) (Z.of_nat m) (Z.of_nat i) (Z.of_nat j)].
Proof.
  intros Hnd Hk Hothers Hndf Hm Hconds Hij Hi Hj Hndc.
  destruct (split_at_one _ _ _ Hk) as (l1 & l2 & Hrs & Hl1 & Hdel).
  destruct (split_at_one _ _ _ Hm) as (m1 & m2 & Hfs & Hm1 & Hdelf).
  destruct (split_at_two _ _ _ _ Hij Hi Hj)
    as (c1 & c2 & c3 & Hcs & Hc1 & Hc2 & Hdelc).
  unfold validateFeatureFlag. rewrite Hrs.
  rewrite rulesLoop_one; [| by rewrite <- Hrs | by rewrite <- Hdel].
  rewrite Hfs.
  rewrite filtersLoop_one; [| by rewrite <- Hfs | by rewrite <- Hdelf].
  rewrite Hcs, conditionsLoop_pair by (by rewrite <- Hdelc).
  simpl. do 2 f_equal; lia.
Qed.

(** ** Removing and moving, at every index *)

Module ReorderMoreFacts.
Import Store JsArray FeaturesTab Vocabulary JsArrayFacts ReorderFacts.
Import InsertFacts.
Local Open Scope Z_scope.

Lemma spliceStart_bound len start : (spliceStart len start ≤ len)%nat.
Proof. unfold spliceStart. destruct (Z.ltb_spec start 0); lia. Qed.

(** [splice(start, 1)] removes the element at the start position, if there
    is one. *)
Lemma splice_one {A} (xs : list A) (start : Z) :
  splice xs start 1 [] = delete (spliceStart (length xs) start) xs.
Proof.
  unfold splice. set (s := spliceStart (length xs) start).
  pose proof (spliceStart_bound (length xs) start) as Hs. fold s in Hs.
  simpl. rewrite delete_take_drop. f_equal.
  destruct (decide (s = length xs)) as [E|E].
  - by rewrite !drop_ge by lia.
  - f_equal. lia.
Qed.

(** [splice(start, 0, x)] puts [x] in at the start position. *)
Lemma splice_zero {A} (xs : list A) (start : Z) (x : A) :
  splice xs start 0 [x]
  = take (spliceStart (length xs) start) xs
    ++ x :: drop (spliceStart (length xs) start) xs.
Proof.
  unfold splice. simpl. do 3 f_equal. lia.
Qed.

Lemma splice_zero_perm {A} (xs : list A) (start : Z) (x : A) :
  splice xs start 0 [x] ≡ₚ x :: xs.
Proof.
  rewrite splice_zero. rewrite <- Permutation_middle.
  by rewrite take_drop.
Qed.

Lemma delete_perm {A} (xs : list A) (i : nat) (x : A) :
  xs !! i = Some x → x :: delete i xs ≡ₚ xs.
Proof.
  intros H. rewrite delete_take_drop.
  rewrite <- (take_drop_middle _ _ _ H) at 3.
  by rewrite <- Permutation_middle.
Qed.

(** The two moves of a rule that is there, whatever the index it is moved
    to. *)
Lemma moveRule_in_range feature (i : nat) (target : Z) st rl vs x :
  rulesOf (store st) feature = Some (rl, vs) → vs !! i = Some x →
  bind (ruleAt feature (Z.of_nat i) st) (λ rule st1,
  bind (removeRule feature (Z.of_nat i) st1) (λ _ st2,
  spliceRules feature target 0 [rule] st2))
  = Returned tt
      (setStore
         (<[rl := OArray KRule (splice (delete i vs) target 0 [x])]>
            (store st)) st).
Proof.
  intros Hr Hx. rewrite (moveRule_run _ _ _ _ _ _ Hr).
  rewrite at_index_nat, Hx, splice_one. simpl.
  pose proof (lookup_lt_Some _ _ _ Hx).
  replace (spliceStart (length vs) (Z.of_nat i)) with i; [done|].
  unfold spliceStart. destruct (Z.ltb_spec (Z.of_nat i) 0); lia.
Qed.

(** The two moves when no rule is at the index. *)
Lemma moveRule_out_of_range feature (ruleIndex target : Z) st rl vs :
  rulesOf (store st) feature = Some (rl, vs) →
  ruleIndex < 0 ∨ Z.of_nat (length vs) ≤ ruleIndex →
  ∃ vs',
    VUndefined ∈ vs'
    ∧ bind (ruleAt feature ruleIndex st) (λ rule st1,
      bind (removeRule feature ruleIndex st1) (λ _ st2,
      spliceRules feature target 0 [rule] st2))
      = Returned tt (setStore (<[rl := OArray KRule vs']> (store st)) st).
Proof.
  intros Hr Hi. rewrite (moveRule_run _ _ _ _ _ _ Hr).
  assert (at_index vs ruleIndex = None) as ->.
  { unfold at_index. destruct (Z.ltb_spec ruleIndex 0); [done|].
    apply lookup_ge_None. lia. }
  eexists. split; [|done]. simpl. rewrite splice_zero.
  apply elem_of_app. right. left.
Qed.

(** An array with an [undefined] slot is not a sequence of rules. *)
Lemma readRules_undefined h rl vs :
  h !! rl = Some (OArray KRule vs) → VUndefined ∈ vs → readRules h rl = None.
Proof.
  intros Hrl Hin. unfold readRules, readArray. rewrite Hrl.
  rewrite decide_True by done.
  destruct (mapM (readRule h) vs) as [rs|] eqn:E; [|done].
  apply mapM_Some in E.
  apply list_elem_of_lookup in Hin as [i Hi].
  destruct (Forall2_lookup_l _ _ _ _ _ E Hi) as (r & _ & Hr). done.
Qed.

(** The two moves of neighbours, as in [moveRule_in_range]. *)
Lemma moveRule_swap feature (i : nat) st rl vs x y :
  rulesOf (store st) feature = Some (rl, vs) →
  vs !! i = Some x → vs !! S i = Some y →
  moveRuleUp feature (Z.of_nat (S i)) st
  = Returned tt
      (setStore (<[rl := OArray KRule
                            (take i vs ++ y :: x :: drop (S (S i)) vs)]>
                   (store st)) st)
  ∧ moveRuleDown feature (Z.of_nat i) st
    = Returned tt
        (setStore (<[rl := OArray KRule
                              (take i vs ++ y :: x :: drop (S (S i)) vs)]>
                     (store st)) st).
Proof.
  intros Hr Hx Hy.
  pose proof (lookup_lt_Some _ _ _ Hy) as Hlty.
  assert (length (take i vs) = i) as Hlen by (rewrite length_take; lia).
  split.
  - unfold moveRuleUp. rewrite (moveRule_in_range _ _ _ _ _ _ _ Hr Hy).
    rewrite delete_take_drop.
    replace (Z.of_nat (S i) - 1) with (Z.of_nat i) by lia.
    rewrite splice_insert by (rewrite length_app, length_take; lia).
    rewrite (take_S_r _ _ _ Hx), <- app_assoc.
    by rewrite take_app_length', drop_app_length' by done.
  - unfold moveRuleDown. rewrite (moveRule_in_range _ _ _ _ _ _ _ Hr Hx).
    rewrite delete_take_drop.
    replace (Z.of_nat i + 1) with (Z.of_nat (S i)) by lia.
    rewrite (drop_S _ _ _ Hy).
    rewrite splice_insert by (rewrite length_app, length_take; simpl; lia).
    rewrite (cons_middle y), app_assoc.
    rewrite take_app_length', drop_app_length'
      by (rewrite length_app; simpl; lia).
    by rewrite <- app_assoc.
Qed.

(** Exchanging two neighbours twice gives the list back. *)
Lemma swap_twice {A} (vs : list A) i x y :
  vs !! i = Some x → vs !! S i = Some y →
  let vs1 := take i vs ++ y :: x :: drop (S (S i)) vs in
  vs1 !! i = Some y ∧ vs1 !! S i = Some x
  ∧ take i vs1 ++ x :: y :: drop (S (S i)) vs1 = vs.
Proof.
  intros Hx Hy vs1.
  pose proof (lookup_lt_Some _ _ _ Hy) as Hlt.
  assert (length (take i vs) = i) as Hlen by (rewrite length_take; lia).
  subst vs1. split_and!.
  - rewrite lookup_app_r by lia. by rewrite Hlen, Nat.sub_diag.
  - rewrite lookup_app_r by lia.
    by replace (S i - length (take i vs))%nat with 1%nat by lia.
  - rewrite take_app_length' by done.
    replace (take i vs ++ y :: x :: drop (S (S i)) vs)
      with ((take i vs ++ [y; x]) ++ drop (S (S i)) vs)
      by (by rewrite <- app_assoc).
    rewrite drop_app_length' by (rewrite length_app; simpl; lia).
    rewrite <- (drop_S _ _ _ Hy), <- (drop_S _ _ _ Hx). apply take_drop.
Qed.

Lemma setStore_insert_back st rl vs vs1 :
  store st !! rl = Some (OArray KRule vs) →
  setStore (<[rl := OArray KRule vs]>
              (store (setStore (<[rl := OArray KRule vs1]> (store st)) st)))
    (setStore (<[rl := OArray KRule vs1]> (store st)) st)
  = st.
Proof.
  intros Hrl. simpl. rewrite list_insert_insert_eq.
  rewrite list_insert_id by done. by destruct st.
Qed.

End ReorderMoreFacts.

Import ReorderMoreFacts.

(** X4. [removeRule] at every index.  An index of a rule removes that rule;
    an index at or past the end removes nothing; a negative index counts
    from the end, [-1] removing the last rule; and an index below minus the
    length removes the first rule. *)
Theorem removeRule_by_index
    (st : State) (feature rl : loc) (vs : list val) (ruleIndex : Z) :
  rulesOf (store st) feature = Some (rl, vs) →
  ∃ vs',
    removeRule feature ruleIndex st
    = Returned tt (setStore (<[rl := OArray KRule vs']> (store st)) st)
    ∧ (0 ≤ ruleIndex < Z.of_nat (length vs) →
         vs' = delete (Z.to_nat ruleIndex) vs)%Z
    ∧ (Z.of_nat (length vs) ≤ ruleIndex →
         vs' = vs ∧ removeRule feature ruleIndex st = Returned tt st)%Z
    ∧ (- Z.of_nat (length vs) ≤ ruleIndex < 0 →
         vs' = delete (Z.to_nat (Z.of_nat (length vs) + ruleIndex)) vs)%Z
    ∧ (ruleIndex < - Z.of_nat (length vs) → vs' = delete 0%nat vs)%Z.
Proof.
  intros Hr. exists (delete (spliceStart (length vs) ruleIndex) vs).
  assert (removeRule feature ruleIndex st
          = Returned tt
              (setStore
                 (<[rl := OArray KRule
                            (delete (spliceStart (length vs) ruleIndex) vs)]>
                    (store st)) st)) as Hrun.
  { unfold removeRule. rewrite (spliceRules_run _ _ _ _ _ _ _ Hr).
    by rewrite splice_one. }
  destruct (rulesOf_lookup _ _ _ _ Hr) as [_ Hrl].
  unfold spliceStart in *.
  split_and!; [exact Hrun| | | |].
  - intros Hi. destruct (Z.ltb_spec ruleIndex 0); [lia|]. f_equal. lia.
  - intros Hi. destruct (Z.ltb_spec ruleIndex 0); [lia|].
    assert (delete (Z.to_nat (ruleIndex `min` Z.of_nat (length vs))) vs = vs)
      as Hsame.
    { rewrite delete_take_drop, drop_ge by lia.
      rewrite take_ge by lia. apply app_nil_r. }
    split; [exact Hsame|].
    rewrite Hrun, Hsame, list_insert_id by done. by rewrite setStore_same.
  - intros Hi. destruct (Z.ltb_spec ruleIndex 0); [|lia]. f_equal. lia.
  - intros Hi. destruct (Z.ltb_spec ruleIndex 0); [|lia]. f_equal. lia.
Qed.

(** [Foo] has three rules. *)
Lemma removeRule_by_index_witness :
  rulesOf (store loaded) foo = Some (25, [VRef 10; VRef 16; VRef 24])
  ∧ ∃ vs',
      removeRule foo (-1) loaded
      = Returned tt
          (setStore (<[25 := OArray KRule vs']> (store loaded)) loaded)
      ∧ vs' = [VRef 10; VRef 16].
Proof.
  assert (rulesOf (store loaded) foo
          = Some (25, [VRef 10; VRef 16; VRef 24])) as H by reflexivity.
  split; [exact H|].
  destruct (removeRule_by_index loaded foo 25 _ (-1)%Z H)
    as (vs' & Hrun & _ & _ & Hneg & _).
  exists vs'. split; [exact Hrun|]. apply Hneg. simpl. lia.
Defined.

(** X5. Moving a rule up and then moving it down again, or down and then up
    again, or up twice from the same index, gives back the state, for two
    neighbouring rules at the indices [i] and [i + 1]. *)
Theorem moveRule_round_trip
    (st : State) (feature rl : loc) (vs : list val) (i : nat) (x y : val) :
  rulesOf (store st) feature = Some (rl, vs) →
  vs !! i = Some x → vs !! S i = Some y →
  bind (moveRuleUp feature (Z.of_nat (S i)) st)
    (λ _, moveRuleDown feature (Z.of_nat i)) = Returned tt st
  ∧ bind (moveRuleDown feature (Z.of_nat i) st)
      (λ _, moveRuleUp feature (Z.of_nat (S i))) = Returned tt st
  ∧ bind (moveRuleUp feature (Z.of_nat (S i)) st)
      (λ _, moveRuleUp feature (Z.of_nat (S i))) = Returned tt st.
Proof.
  intros Hr Hx Hy.
  destruct (moveRule_swap _ _ _ _ _ _ _ Hr Hx Hy) as [Hup Hdown].
  destruct (swap_twice vs i x y Hx Hy) as (Hy1 & Hx1 & Hback).
  destruct (rulesOf_lookup _ _ _ _ Hr) as [_ Hrl].
  set (vs1 := take i vs ++ y :: x :: drop (S (S i)) vs) in *.
  set (st1 := setStore (<[rl := OArray KRule vs1]> (store st)) st) in *.
  assert (rulesOf (store st1) feature = Some (rl, vs1)) as Hr1.
  { by eapply rulesOf_insert. }
  destruct (moveRule_swap _ _ _ _ _ _ _ Hr1 Hy1 Hx1) as [Hup1 Hdown1].
  rewrite Hback in Hup1, Hdown1.
  pose proof (setStore_insert_back st rl vs vs1 Hrl) as Hst.
  fold st1 in Hst. rewrite Hst in Hup1, Hdown1.
  rewrite Hup, Hdown. simpl. by rewrite Hup1, Hdown1.
Qed.

Lemma moveRule_round_trip_witness :
  rulesOf (store loaded) foo = Some (25, [VRef 10; VRef 16; VRef 24])
  ∧ bind (moveRuleUp foo 2 loaded) (λ _, moveRuleDown foo 1)
    = Returned tt loaded
  ∧ bind (moveRuleDown foo 1 loaded) (λ _, moveRuleUp foo 2)
    = Returned tt loaded
  ∧ bind (moveRuleUp foo 2 loaded) (λ _, moveRuleUp foo 2)
    = Returned tt loaded.
Proof.
  assert (rulesOf (store loaded) foo
          = Some (25, [VRef 10; VRef 16; VRef 24])) as H by reflexivity.
  split; [exact H|].
  exact (moveRule_round_trip loaded foo 25 _ 1 (VRef 16) (VRef 24)
           H eq_refl eq_refl).
Defined.

(** X6. Moving a rule that is there, up or down, from any index of the
    array (the first and the last included), leaves the same rules in some
    order: none is lost, none is added, none is doubled. *)
Theorem moveRule_permutes
    (st : State) (feature rl : loc) (vs : list val) (i : nat) (x : val) :
  rulesOf (store st) feature = Some (rl, vs) → vs !! i = Some x →
  ∃ up down,
    moveRuleUp feature (Z.of_nat i) st
    = Returned tt (setStore (<[rl := OArray KRule up]> (store st)) st)
    ∧ up ≡ₚ vs
    ∧ moveRuleDown feature (Z.of_nat i) st
      = Returned tt (setStore (<[rl := OArray KRule down]> (store st)) st)
    ∧ down ≡ₚ vs.
Proof.
  intros Hr Hx. eexists _, _. split_and!.
  - unfold moveRuleUp. apply (moveRule_in_range _ _ _ _ _ _ _ Hr Hx).
  - rewrite splice_zero_perm. by apply delete_perm.
  - unfold moveRuleDown. apply (moveRule_in_range _ _ _ _ _ _ _ Hr Hx).
  - rewrite splice_zero_perm. by apply delete_perm.
Qed.

Lemma moveRule_permutes_witness :
  rulesOf (store loaded) foo = Some (25, [VRef 10; VRef 16; VRef 24])
  ∧ ∃ up down,
      moveRuleUp foo 0 loaded
      = Returned tt (setStore (<[25 := OArray KRule up]> (store loaded)) loaded)
      ∧ up ≡ₚ [VRef 10; VRef 16; VRef 24]
      ∧ moveRuleDown foo 0 loaded
        = Returned tt
            (setStore (<[25 := OArray KRule down]> (store loaded)) loaded)
      ∧ down ≡ₚ [VRef 10; VRef 16; VRef 24].
Proof.
  assert (rulesOf (store loaded) foo
          = Some (25, [VRef 10; VRef 16; VRef 24])) as H by reflexivity.
  split; [exact H|].
  exact (moveRule_permutes loaded foo 25 _ 0 (VRef 10) H eq_refl).
Defined.

(** X7. Moving from an index at which there is no rule (negative, or at or
    past the end) puts [undefined] into the rules array, up as well as down;
    the flag then no longer has rules that can be read. *)
Theorem moveRule_out_of_range_adds_undefined
    (st : State) (feature rl : loc) (vs : list val) (ruleIndex : Z) :
  rulesOf (store st) feature = Some (rl, vs) →
  (ruleIndex < 0 ∨ Z.of_nat (length vs) ≤ ruleIndex)%Z →
  (∃ up st',
     moveRuleUp feature ruleIndex st = Returned tt st'
     ∧ rulesOf (store st') feature = Some (rl, up)
     ∧ VUndefined ∈ up
     ∧ readParam (store st') feature = None)
  ∧ (∃ down st',
       moveRuleDown feature ruleIndex st = Returned tt st'
       ∧ rulesOf (store st') feature = Some (rl, down)
       ∧ VUndefined ∈ down
       ∧ readParam (store st') feature = None).
Proof.
  intros Hr Hi.
  assert (∀ vs',
            VUndefined ∈ vs' →
            rulesOf (<[rl := OArray KRule vs']> (store st)) feature
            = Some (rl, vs')
            ∧ readParam (<[rl := OArray KRule vs']> (store st)) feature
              = None) as Hafter.
  { intros vs' Hin.
    assert (rulesOf (<[rl := OArray KRule vs']> (store st)) feature
            = Some (rl, vs')) as Hr' by (by eapply rulesOf_insert).
    split; [exact Hr'|].
    destruct (rulesOf_lookup _ _ _ _ Hr') as [(n & stage & Hf) Hrl].
    unfold readParam. rewrite Hf.
    by rewrite (readRules_undefined _ _ _ Hrl Hin). }
  split.
  - destruct (moveRule_out_of_range feature ruleIndex (ruleIndex - 1)%Z
                st rl vs Hr Hi) as (up & Hin & Hrun).
    destruct (Hafter up Hin) as [Hr' Hp].
    exists up. eexists. split; [exact Hrun|]. by split_and!.
  - destruct (moveRule_out_of_range feature ruleIndex (ruleIndex + 1)%Z
                st rl vs Hr Hi) as (down & Hin & Hrun).
    destruct (Hafter down Hin) as [Hr' Hp].
    exists down. eexists. split; [exact Hrun|]. by split_and!.
Qed.

Lemma moveRule_out_of_range_adds_undefined_witness :
  rulesOf (store loaded) foo = Some (25, [VRef 10; VRef 16; VRef 24])
  ∧ ∃ up st',
      moveRuleUp foo 3 loaded = Returned tt st'
      ∧ rulesOf (store st') foo = Some (25, up)
      ∧ VUndefined ∈ up
      ∧ readParam (store st') foo = None.
Proof.
  assert (rulesOf (store loaded) foo
          = Some (25, [VRef 10; VRef 16; VRef 24])) as H by reflexivity.
  split; [exact H|].
  refine (proj1 (moveRule_out_of_range_adds_undefined loaded foo 25 _ 3%Z
                   H _)).
  right. simpl. lia.
Defined.

Lemma validateFeatureFlag_duplicate_condition_witness :
  validateFeatureFlag MoreExamples.flagWithDuplicateCondition
  = ["In the 2-th rule, 2-th filter: the 1-th & 3-th conditions are identical."].
Proof.
  rewrite (validateFeatureFlag_duplicate_condition
             MoreExamples.flagWithDuplicateCondition 1 1 0 2
             MoreExamples.ruleWithDuplicateCondition
             (mkFilter AppVersion [(">=", "1.0.0"); ("<", "2.0.0");
                                   (">=", "1.0.0")])
             (">=", "1.0.0")).
  - vm_compute. reflexivity.
  - compute_done.
  - reflexivity.
  - compute_done.
  - compute_done.
  - reflexivity.
  - compute_done.
  - lia.
  - reflexivity.
  - reflexivity.
  - compute_done.
Defined.

(** ** Editing inside a rule *)

Module EditorFacts.
Import Store JsArray FeaturesTab RuleEditor Vocabulary MoreVocabulary.
Import JsArrayFacts StoreFacts ReorderFacts InsertFacts PersistenceFacts.
Import ReorderMoreFacts.

Lemma readCondition_sub_condition h h2 v c :
  sub in_condition h h2 →
  readCondition h v = Some c → readCondition h2 v = Some c.
Proof.
  intros Hs. destruct v as [|l]; simpl; [done|].
  destruct (h !! l) as [[]|] eqn:E; try done.
  by rewrite (Hs _ _ E I).
Qed.

Lemma readFilter_sub_filter h h2 v f :
  sub in_filter h h2 → readFilter h v = Some f → readFilter h2 v = Some f.
Proof.
  intros Hs. destruct v as [|l]; simpl; [done|].
  destruct (h !! l) as [[| |t cl| |]|] eqn:E; try done.
  rewrite (Hs _ _ E I).
  destruct (readArray KCondition (readCondition h) h cl) as [cs|] eqn:Ha;
    [|done].
  erewrite readArray_mono; [done | | | exact Ha].
  - intros o Ho. apply Hs; [done|].
    unfold readArray in Ha. rewrite Ho in Ha.
    destruct o as [|[] ?| | |]; done.
  - intros ??. apply readCondition_sub_condition.
    eapply sub_weaken; [|exact Hs]. by intros [].
Qed.

(** The store after one old array [a] was written and objects [k] were
    added: what it keeps of the old store. *)
Lemma sub_after_write (K : obj → Prop) h k a o o' :
  h !! a = Some o → ¬ K o → sub K h (<[a := o']> (h ++ k)).
Proof.
  intros Ha HK. eapply sub_trans; [apply (sub_app _ h k)|].
  apply sub_insert. intros o1 Ho1.
  rewrite (lookup_app_l_Some _ _ _ _ Ha) in Ho1. by simplify_eq.
Qed.

Lemma mapM_app_one {A} (rd : val → option A) vs xs v x :
  mapM rd vs = Some xs → rd v = Some x → mapM rd (vs ++ [v]) = Some (xs ++ [x]).
Proof.
  intros Hm Hv. apply mapM_Some. apply mapM_Some in Hm.
  apply Forall2_app; [done|]. by repeat constructor.
Qed.

Lemma mapM_delete {A} (rd : val → option A) vs xs i :
  mapM rd vs = Some xs → mapM rd (delete i vs) = Some (delete i xs).
Proof.
  intros Hm. apply mapM_Some. apply mapM_Some in Hm.
  by apply Forall2_delete.
Qed.

(** A rule and the array of its filters. *)
Lemma readRule_lookup h rule r :
  readRule h (VRef rule) = Some r →
  ∃ fl vs, h !! rule = Some (ORule fl (valueWhenMatched r))
    ∧ h !! fl = Some (OArray KFilter vs)
    ∧ mapM (readFilter h) vs = Some (filters r).
Proof.
  simpl. intros H.
  destruct (h !! rule) as [[| | |fl b|]|] eqn:E; try done.
  unfold readArray in H.
  destruct (h !! fl) as [[|[] vs| | |]|] eqn:Ef; try done.
  rewrite decide_True in H by done.
  destruct (mapM (readFilter h) vs) as [fs|] eqn:Em; [|done].
  simplify_eq. eauto.
Qed.

(** A filter and the array of its conditions. *)
Lemma readFilter_lookup h filter f :
  readFilter h (VRef filter) = Some f →
  ∃ cl vs, h !! filter = Some (OFilter (type f) cl)
    ∧ h !! cl = Some (OArray KCondition vs)
    ∧ mapM (readCondition h) vs = Some (conditions f).
Proof.
  simpl. intros H.
  destruct (h !! filter) as [[| |t cl| |]|] eqn:E; try done.
  unfold readArray in H.
  destruct (h !! cl) as [[|[] vs| | |]|] eqn:Ef; try done.
  rewrite decide_True in H by done.
  destruct (mapM (readCondition h) vs) as [cs|] eqn:Em; [|done].
  simplify_eq. eauto.
Qed.

(** A rule whose array of filters was written, in a store that kept the
    rule object. *)
Lemma readRule_written h' rule fl b vs' fs' :
  h' !! rule = Some (ORule fl b) →
  h' !! fl = Some (OArray KFilter vs') →
  mapM (readFilter h') vs' = Some fs' →
  readRule h' (VRef rule) = Some (mkRule fs' b).
Proof.
  intros Hr Hf Hm. simpl. rewrite Hr. unfold readArray. rewrite Hf.
  rewrite decide_True by done. by rewrite Hm.
Qed.

Lemma readFilter_written h' filter t cl vs' cs' :
  h' !! filter = Some (OFilter t cl) →
  h' !! cl = Some (OArray KCondition vs') →
  mapM (readCondition h') vs' = Some cs' →
  readFilter h' (VRef filter) = Some (mkFilter t cs').
Proof.
  intros Hr Hf Hm. simpl. rewrite Hr. unfold readArray. rewrite Hf.
  rewrite decide_True by done. by rewrite Hm.
Qed.

End EditorFacts.

Import RuleEditor MoreVocabulary EditorFacts.

(** X8. Adding a rule at the top and removing the rule at index 0, or
    adding a rule at the bottom and removing the rule at the index of the
    old length, gives back the rules array and every old object: the store
    only has the unused copy in addition, and every flag reads as before. *)
Theorem addNewRule_then_removeRule
    (st : State) (feature rl : loc) (vs : list val)
    (r0 : PlatformParameterRule) :
  rulesOf (store st) feature = Some (rl, vs) →
  readRule (store st) (VRef (defaultNewRule st)) = Some r0 →
  (∃ k,
     bind (addNewRuleToTop feature st) (λ _, removeRule feature 0)
     = Returned tt (setStore (store st ++ k) st)
     ∧ rulesOf (store st ++ k) feature = Some (rl, vs)
     ∧ ∀ l p, readParam (store st) l = Some p →
         readParam (store st ++ k) l = Some p)
  ∧ (∃ k,
       bind (addNewRuleToBottom feature st)
         (λ _, removeRule feature (Z.of_nat (length vs)))
       = Returned tt (setStore (store st ++ k) st)
       ∧ rulesOf (store st ++ k) feature = Some (rl, vs)
       ∧ ∀ l p, readParam (store st) l = Some p →
           readParam (store st ++ k) l = Some p).
Proof.
  intros Hro Hr.
  destruct (rulesOf_lookup _ _ _ _ Hro) as [_ Hrl].
  assert (∀ k vs1,
            setStore
              (<[rl := OArray KRule vs]>
                 (<[rl := OArray KRule vs1]> (store st ++ k))) st
            = setStore (store st ++ k) st) as Hback.
  { intros k vs1. rewrite list_insert_insert_eq.
    by rewrite list_insert_id by (by apply lookup_app_l_Some). }
  split.
  - destruct (clone_into_array _ _ _ _ _ _ (unshift vs) Hro Hr)
      as (l' & k & Hc & Hro' & _).
    exists k. split_and!.
    + unfold addNewRuleToTop. rewrite Hro, Hc. simpl.
      unfold removeRule. erewrite spliceRules_run by exact Hro'.
      simpl. change 0%Z with (Z.of_nat 0).
      rewrite splice_delete by (simpl; lia). simpl. rewrite drop_0.
      by rewrite <- (Hback k (unshift vs (VRef l'))).
    + by apply rulesOf_app.
    + intros l p. apply readParam_app.
  - destruct (clone_into_array _ _ _ _ _ _ (push vs) Hro Hr)
      as (l' & k & Hc & Hro' & _).
    exists k. split_and!.
    + unfold addNewRuleToBottom. rewrite Hro, Hc. simpl.
      unfold removeRule. erewrite spliceRules_run by exact Hro'.
      simpl. unfold push.
      rewrite splice_delete by (rewrite length_app; simpl; lia).
      rewrite take_app_length, drop_app_ge by lia.
      replace (S (length vs) - length vs) with 1 by lia. simpl.
      rewrite app_nil_r. by rewrite <- (Hback k (vs ++ [VRef l'])).
    + by apply rulesOf_app.
    + intros l p. apply readParam_app.
Qed.

Lemma addNewRule_then_removeRule_witness :
  rulesOf (store loaded) foo = Some (25, [VRef 10; VRef 16; VRef 24])
  ∧ ∃ k,
      bind (addNewRuleToTop foo loaded) (λ _, removeRule foo 0)
      = Returned tt (setStore (store loaded ++ k) loaded)
      ∧ readParam (store loaded ++ k) foo = Some fooFlag.
Proof.
  assert (rulesOf (store loaded) foo
          = Some (25, [VRef 10; VRef 16; VRef 24])) as H1 by reflexivity.
  assert (readRule (store loaded) (VRef (defaultNewRule loaded))
          = Some defaultRuleValue) as H2 by reflexivity.
  assert (readParam (store loaded) foo = Some fooFlag) as H3 by reflexivity.
  split; [exact H1|].
  destruct (addNewRule_then_removeRule loaded foo 25 _ _ H1 H2)
    as [(k & Hrun & _ & Hread) _].
  exists k. split; [exact Hrun|]. exact (Hread _ _ H3).
Defined.



(** X10. [addNewCondition] puts a new condition behind the conditions of
    the filter.  Its operator is ["="] for every filter type.  Its operand
    is the empty string for an [AppVersion] filter, the first allowed
    platform type for a [PlatformType] filter, and the first allowed flavor
    for an [AppVersionFlavor] filter. *)
Theorem addNewCondition_appends_default
    (platformTypes flavors : list string)
    (st : State) (filter : loc) (f : PlatformParameterFilter) :
  readFilter (store st) (VRef filter) = Some f →
  ∀ operand,
    (type f = AppVersion ∧ operand = EmptyString)
    ∨ (type f = PlatformType ∧ platformTypes !! 0 = Some operand)
    ∨ (type f = AppVersionFlavor ∧ flavors !! 0 = Some operand) →
    ∃ st',
      addNewCondition platformTypes flavors filter st = Returned tt st'
      ∧ readFilter (store st') (VRef filter)
        = Some (mkFilter (type f) (conditions f ++ [("=", operand)]))
      ∧ "=" ∈ operators (filterTypeToContext platformTypes flavors (type f)).
Proof.
  intros Hf operand Hop.
  destruct (readFilter_lookup _ _ _ Hf) as (cl & vs & Hfilter & Hcl & Hm).
  pose proof (lookup_lt_Some _ _ _ Hcl) as Hlt.
  set (h1 := store st ++ [OCondition "=" operand]).
  set (h' := <[cl := OArray KCondition (push vs (VRef (length (store st))))]>
               h1).
  assert (sub in_condition (store st) h') as Hsub.
  { eapply sub_after_write; [exact Hcl|]. simpl. tauto. }
  assert (readCondition h' (VRef (length (store st))) = Some ("=", operand))
    as Hnew.
  { simpl. unfold h', h1. rewrite list_lookup_insert_ne by lia.
    by rewrite list_lookup_middle. }
  assert (readFilter h' (VRef filter)
          = Some (mkFilter (type f) (conditions f ++ [("=", operand)])))
    as Hread.
  { apply (readFilter_written h' filter _ cl
             (push vs (VRef (length (store st))))).
    - unfold h', h1. rewrite list_lookup_insert_ne by (intros ->; congruence).
      by apply lookup_app_l_Some.
    - apply list_lookup_insert_eq. unfold h1. rewrite length_app. lia.
    - apply mapM_app_one; [|done].
      eapply mapM_mono; [|exact Hm]. intros ??.
      by apply readCondition_sub_condition. }
  exists (setStore h' st). unfold addNewCondition. rewrite Hfilter, Hcl.
  destruct Hop as [[Ht ->]|[[Ht Ho]|[Ht Ho]]]; rewrite Ht in *; simpl;
    rewrite ?Ho; (split_and!; [done | done | set_solver]).
Qed.

(** The filter 8 is a [PlatformType] filter; the allowed platform types are
    given as [Web; Android; Backend]. *)
Lemma addNewCondition_appends_default_witness :
  readFilter (store loaded) (VRef 8) = Some MoreExamples.webFilter
  ∧ ∃ st',
      addNewCondition ["Web"; "Android"; "Backend"] ["test"; "alpha"] 8 loaded
      = Returned tt st'
      ∧ readFilter (store st') (VRef 8)
        = Some (mkFilter PlatformType [("=", "Web"); ("=", "Web")]).
Proof.
  assert (readFilter (store loaded) (VRef 8) = Some MoreExamples.webFilter)
    as H1 by reflexivity.
  split; [exact H1|].
  destruct (addNewCondition_appends_default
              ["Web"; "Android"; "Backend"] ["test"; "alpha"]
              loaded 8 _ H1 "Web") as (st' & Hrun & Hread & _).
  { right. left. split; reflexivity. }
  exists st'. split; [exact Hrun | exact Hread].
Defined.

(** X11. [removeFilter] and [removeCondition] at an index of the array take
    out the filter, or the condition, at that index and keep the others in
    order; at an index at or past the end they change nothing. *)
Theorem removeFilter_removeCondition_by_index
    (st : State) (i : nat) :
  (∀ rule r,
     readRule (store st) (VRef rule) = Some r →
     (∃ st',
        removeFilter rule (Z.of_nat i) st = Returned tt st'
        ∧ readRule (store st') (VRef rule)
          = Some (mkRule (delete i (filters r)) (valueWhenMatched r)))
     ∧ (length (filters r) ≤ i →
        removeFilter rule (Z.of_nat i) st = Returned tt st))
  ∧ (∀ filter f,
       readFilter (store st) (VRef filter) = Some f →
       (∃ st',
          removeCondition filter (Z.of_nat i) st = Returned tt st'
          ∧ readFilter (store st') (VRef filter)
            = Some (mkFilter (type f) (delete i (conditions f))))
       ∧ (length (conditions f) ≤ i →
          removeCondition filter (Z.of_nat i) st = Returned tt st)).
Proof.
  assert (∀ {A} (xs : list A),
            splice xs (Z.of_nat i) 1 [] = delete i xs) as Hsplice.
  { intros A xs. rewrite splice_one. unfold spliceStart.
    destruct (Z.ltb_spec (Z.of_nat i) 0); [lia|].
    destruct (decide (i < length xs)).
    - f_equal. lia.
    - rewrite !delete_take_drop, !drop_ge by lia.
      by rewrite !take_ge by lia. }
  assert (∀ {A} (xs : list A), length xs ≤ i → delete i xs = xs) as Hge.
  { intros A xs Hi. rewrite delete_take_drop, drop_ge, take_ge by lia.
    apply app_nil_r. }
  split.
  - intros rule r Hr.
    destruct (readRule_lookup _ _ _ Hr) as (fl & vs & Hrule & Hfl & Hm).
    pose proof (lookup_lt_Some _ _ _ Hfl) as Hlt.
    unfold removeFilter. rewrite Hrule, Hfl, Hsplice. split.
    + eexists. split; [done|]. simpl.
      apply (readRule_written _ rule fl _ (delete i vs)).
      * rewrite list_lookup_insert_ne by (intros ->; congruence). done.
      * by apply list_lookup_insert_eq.
      * apply mapM_delete. eapply mapM_mono; [|exact Hm]. intros ??.
        apply readFilter_sub_filter, sub_insert.
        intros o Ho. simplify_eq. simpl. tauto.
    + intros Hi. apply mapM_Some, Forall2_length in Hm.
      rewrite Hge by lia. rewrite list_insert_id by done.
      by rewrite setStore_same.
  - intros filter f Hf.
    destruct (readFilter_lookup _ _ _ Hf) as (cl & vs & Hfilter & Hcl & Hm).
    pose proof (lookup_lt_Some _ _ _ Hcl) as Hlt.
    unfold removeCondition. rewrite Hfilter, Hcl, Hsplice. split.
    + eexists. split; [done|]. simpl.
      apply (readFilter_written _ filter _ cl (delete i vs)).
      * rewrite list_lookup_insert_ne by (intros ->; congruence). done.
      * by apply list_lookup_insert_eq.
      * apply mapM_delete. eapply mapM_mono; [|exact Hm]. intros ??.
        apply readCondition_sub_condition, sub_insert.
        intros o Ho. simplify_eq. simpl. tauto.
    + intros Hi. apply mapM_Some, Forall2_length in Hm.
      rewrite Hge by lia. rewrite list_insert_id by done.
      by rewrite setStore_same.
Qed.

(** The third rule of [Foo] is the rule 24, with two filters; the second
    rule's only filter is the filter 14, with two conditions. *)
Lemma removeFilter_removeCondition_by_index_witness :
  readRule (store loaded) (VRef 24) = Some flavorRule
  ∧ readFilter (store loaded) (VRef 14)
    = Some (mkFilter AppVersion [(">=", "1.0.0"); ("<", "2.0.0")])
  ∧ (∃ st',
       removeFilter 24 1 loaded = Returned tt st'
       ∧ readRule (store st') (VRef 24)
         = Some (mkRule [mkFilter PlatformType [("=", "Android")]] false))
  ∧ (∃ st',
       removeCondition 14 1 loaded = Returned tt st'
       ∧ readFilter (store st') (VRef 14)
         = Some (mkFilter AppVersion [(">=", "1.0.0")])).
Proof.
  assert (readRule (store loaded) (VRef 24) = Some flavorRule) as H1
    by reflexivity.
  assert (readFilter (store loaded) (VRef 14)
          = Some (mkFilter AppVersion [(">=", "1.0.0"); ("<", "2.0.0")]))
    as H2 by reflexivity.
  destruct (removeFilter_removeCondition_by_index loaded 1) as [Hf Hc].
  split_and!; [exact H1 | exact H2 | |].
  - exact (proj1 (Hf 24 _ H1)).
  - exact (proj1 (Hc 14 _ H2)).
Defined.

(** X12. [clearFilterConditions] leaves the filter with its type and no
    conditions, and every condition object as it was; clearing again
    changes nothing. *)
Theorem clearFilterConditions_empties
    (st : State) (filter : loc) (f : PlatformParameterFilter) :
  readFilter (store st) (VRef filter) = Some f →
  ∃ st',
    clearFilterConditions filter st = Returned tt st'
    ∧ readFilter (store st') (VRef filter) = Some (mkFilter (type f) [])
    ∧ (∀ v c, readCondition (store st) v = Some c →
         readCondition (store st') v = Some c)
    ∧ clearFilterConditions filter st' = Returned tt st'.
Proof.
  intros Hf.
  destruct (readFilter_lookup _ _ _ Hf) as (cl & vs & Hfilter & Hcl & Hm).
  pose proof (lookup_lt_Some _ _ _ Hcl) as Hlt.
  assert (∀ xs : list val, spliceFrom xs 0 = []) as Hempty.
  { intros xs. unfold spliceFrom, spliceStart. simpl.
    replace (Z.to_nat (0 `min` Z.of_nat (length xs))) with 0 by lia. done. }
  set (h' := <[cl := OArray KCondition []]> (store st)).
  assert (h' !! filter = Some (OFilter (type f) cl)) as Hfilter'.
  { unfold h'. rewrite list_lookup_insert_ne by (intros ->; congruence).
    done. }
  assert (h' !! cl = Some (OArray KCondition [])) as Hcl'.
  { by apply list_lookup_insert_eq. }
  assert (readFilter h' (VRef filter) = Some (mkFilter (type f) []))
    as Hread by (by apply (readFilter_written h' filter _ cl [])).
  assert (clearFilterConditions filter (setStore h' st)
          = Returned tt (setStore h' st)) as Hagain.
  { unfold clearFilterConditions. simpl. rewrite Hfilter', Hcl', Hempty.
    unfold h'. by rewrite list_insert_insert_eq. }
  exists (setStore h' st). split_and!; [| exact Hread | | exact Hagain].
  - unfold clearFilterConditions. by rewrite Hfilter, Hcl, Hempty.
  - intros v c. apply readCondition_sub_condition, sub_insert.
    intros o Ho. simplify_eq. simpl. tauto.
Qed.

Lemma clearFilterConditions_empties_witness :
  readFilter (store loaded) (VRef 14)
  = Some (mkFilter AppVersion [(">=", "1.0.0"); ("<", "2.0.0")])
  ∧ ∃ st',
      clearFilterConditions 14 loaded = Returned tt st'
      ∧ readFilter (store st') (VRef 14) = Some (mkFilter AppVersion []).
Proof.
  assert (readFilter (store loaded) (VRef 14)
          = Some (mkFilter AppVersion [(">=", "1.0.0"); ("<", "2.0.0")]))
    as H by reflexivity.
  split; [exact H|].
  destruct (clearFilterConditions_empties loaded 14 _ H)
    as (st' & Hrun & Hread & _).
  exists st'. split; [exact Hrun | exact Hread].
Defined.

(** ** Loading, saving and reverting, and change tracking after them *)

Module PersistenceMoreFacts.
Import Store JsArray Lodash Validator FeaturesTab RuleEditor.
Import Vocabulary MoreVocabulary.
Import LodashFacts StoreFacts ReorderFacts InsertFacts PersistenceFacts.
Import EditorFacts.

(** [isFeatureFlagChanged] when flag and backup can be read. *)
Lemma isFeatureFlagChanged_run st feature p backup bp :
  readParam (store st) feature = Some p →
  featureFlagNameToBackupMap st !! name p = Some backup →
  readParam (store st) backup = Some bp →
  isFeatureFlagChanged feature st
  = Returned (negb (isEqualRules (rules bp) (rules p))) st.
Proof.
  intros Hp Hb Hbp.
  destruct (readParam_lookup _ _ _ Hp) as (rl & Hl & Hrs).
  destruct (readParam_lookup _ _ _ Hbp) as (brl & Hbl & Hbrs).
  unfold isFeatureFlagChanged, isEqualAt.
  by rewrite Hl, Hb, Hbl, Hbrs, Hrs.
Qed.

Lemma isEqualRules_refl rs : isEqualRules rs rs = true.
Proof. by apply isEqualRules_spec. Qed.

Lemma newElems_builds {A} (rd : heap → val → option A) new :
  builds_spec rd new → stable rd →
  ∀ xs h, ∃ vs k,
    newElems new xs h = (vs, h ++ k)
    ∧ mapM (rd (h ++ k)) vs = Some xs
    ∧ length (refs vs) = length xs.
Proof.
  intros Hnew Hst xs. induction xs as [|x xs IH]; intros h.
  - exists [], []. by rewrite app_nil_r.
  - destruct (Hnew x h) as (l & k1 & Hn & Hr).
    destruct (IH (h ++ k1)) as (vs & k2 & Hn2 & Hm & Hlen).
    exists (VRef l :: vs), (k1 ++ k2). simpl. rewrite Hn, Hn2.
    rewrite app_assoc. split_and!; [done| |by rewrite Hlen].
    rewrite (Hst _ k2 _ _ Hr). simpl. by rewrite Hm.
Qed.

Lemma lookup_two_new (h : heap) (a b : obj) :
  (h ++ [a; b]) !! length h = Some a
  ∧ (h ++ [a; b]) !! length (h ++ [a]) = Some b.
Proof.
  split; [by apply list_lookup_middle|].
  replace (h ++ [a; b]) with ((h ++ [a]) ++ [b])
    by (by rewrite <- app_assoc).
  by apply list_lookup_middle.
Qed.

Lemma newCondition_builds : builds_spec readCondition newCondition.
Proof.
  intros [operator operand] h. exists (length h), [OCondition operator operand].
  split; [done|]. simpl. by rewrite list_lookup_middle.
Qed.

Lemma newFilter_builds : builds_spec readFilter newFilter.
Proof.
  intros [t cs] h. unfold newFilter. simpl.
  destruct (newElems_builds readCondition newCondition newCondition_builds
              readCondition_stable cs h) as (vs & k & Hn & Hm & _).
  rewrite Hn. simpl.
  exists (length ((h ++ k) ++ [OArray KCondition vs])),
    (k ++ [OArray KCondition vs; OFilter t (length (h ++ k))]).
  split.
  - by rewrite <- !app_assoc.
  - rewrite app_assoc.
    destruct (lookup_two_new (h ++ k) (OArray KCondition vs)
                (OFilter t (length (h ++ k)))) as [Ha Ho].
    simpl. rewrite Ho. unfold readArray.
    rewrite Ha. rewrite decide_True by done.
    erewrite mapM_mono; [done| |exact Hm]. intros v c Hc.
    by apply readCondition_stable.
Qed.

Lemma newRule_builds : builds_spec readRule newRule.
Proof.
  intros [fs b] h. unfold newRule. simpl.
  destruct (newElems_builds readFilter newFilter newFilter_builds
              readFilter_stable fs h) as (vs & k & Hn & Hm & _).
  rewrite Hn. simpl.
  exists (length ((h ++ k) ++ [OArray KFilter vs])),
    (k ++ [OArray KFilter vs; ORule (length (h ++ k)) b]).
  split.
  - by rewrite <- !app_assoc.
  - rewrite app_assoc.
    destruct (lookup_two_new (h ++ k) (OArray KFilter vs)
                (ORule (length (h ++ k)) b)) as [Ha Ho].
    simpl. rewrite Ho. unfold readArray.
    rewrite Ha. rewrite decide_True by done.
    erewrite mapM_mono; [done| |exact Hm]. intros v c Hc.
    by apply readFilter_stable.
Qed.

Lemma newParam_builds : builds_spec readParamAt newParam.
Proof.
  intros [n stage rs] h. unfold newParam. simpl.
  destruct (newElems_builds readRule newRule newRule_builds
              readRule_stable rs h) as (vs & k & Hn & Hm & _).
  rewrite Hn. simpl.
  exists (length ((h ++ k) ++ [OArray KRule vs])),
    (k ++ [OArray KRule vs; OParam n stage (length (h ++ k))]).
  split.
  - by rewrite <- !app_assoc.
  - rewrite app_assoc.
    destruct (lookup_two_new (h ++ k) (OArray KRule vs)
                (OParam n stage (length (h ++ k)))) as [Ha Ho].
    simpl. unfold readParam. rewrite Ho. unfold readRules, readArray.
    rewrite Ha. rewrite decide_True by done.
    erewrite mapM_mono; [done| |exact Hm]. intros v c Hc.
    by apply readRule_stable.
Qed.

Lemma readParamAt_stable : stable readParamAt.
Proof. intros h k [|l] p; simpl; [done|]. apply readParam_app. Qed.

End PersistenceMoreFacts.

Module ChangeTrackingFacts.
Import Store JsArray Lodash Validator FeaturesTab RuleEditor.
Import Vocabulary MoreVocabulary.
Import LodashFacts StoreFacts ReorderFacts InsertFacts PersistenceFacts.
Import EditorFacts PersistenceMoreFacts.

Lemma readParamAt_refs h vs ps :
  mapM (readParamAt h) vs = Some ps →
  Forall2 (λ f p, readParam h f = Some p) (refs vs) ps.
Proof.
  intros Hm. apply mapM_Some in Hm.
  induction Hm as [|v p vs ps Hv _ IH]; [constructor|].
  destruct v as [|l]; [done|]. simpl. by constructor.
Qed.

(** The backups of readable flags with distinct names: every flag gets a
    backup that reads as the flag, and no other name is touched. *)
Lemma backupAll_spec fs : ∀ ps m h,
  Forall2 (λ f p, readParam h f = Some p) fs ps →
  NoDup (name <$> ps) →
  ∃ m' k,
    backupAll fs m h = Some (m', h ++ k)
    ∧ (∀ n, n ∉ (name <$> ps) → m' !! n = m !! n)
    ∧ Forall (λ p, ∃ b, m' !! name p = Some b
                        ∧ readParam (h ++ k) b = Some p) ps.
Proof.
  induction fs as [|f fs IH]; intros ps m h Hfs Hnd.
  - apply Forall2_nil_inv_l in Hfs as ->. exists m, [].
    rewrite app_nil_r. split_and!; [done | done | constructor].
  - apply Forall2_cons_inv_l in Hfs as (p & ps' & Hp & Hfs' & ->).
    rewrite fmap_cons in Hnd. apply NoDup_cons in Hnd as [Hnotin Hnd'].
    destruct (readParam_lookup _ _ _ Hp) as (rl & Hl & _).
    destruct (cloneDeepParam_copies _ _ _ Hp) as (b & k1 & Hc & _ & _ & Hrd).
    pose proof (Hrd _ (keeps_self h k1)) as Hb.
    destruct (IH ps' (<[name p := b]> m) (h ++ k1)) as (m' & k2 & Hrun & Hout & Hall).
    { eapply Forall2_impl; [exact Hfs'|]. intros ??. apply readParam_app. }
    { done. }
    exists m', (k1 ++ k2). simpl. rewrite Hl, Hc, Hrun, app_assoc.
    split_and!; [done| |].
    + intros n Hn. rewrite ?fmap_cons in Hn.
      apply not_elem_of_cons in Hn as [Hne Hn].
      rewrite (Hout _ Hn). by rewrite lookup_insert_ne.
    + constructor; [|done]. exists b. split.
      * rewrite (Hout _ Hnotin). apply lookup_insert_eq.
      * by apply readParam_app.
Qed.

(** [clearChanges] when there is a backup that can be read. *)
Lemma clearChanges_run st featureFlag n stage rl backup bp :
  store st !! featureFlag = Some (OParam n stage rl) →
  featureFlagNameToBackupMap st !! n = Some backup →
  readParam (store st) backup = Some bp →
  ∃ rl' k,
    clearChanges true featureFlag st
    = Returned tt
        (setStore (<[featureFlag := OParam n stage rl']> (store st ++ k)) st)
    ∧ readParam (<[featureFlag := OParam n stage rl']> (store st ++ k))
        featureFlag = Some (mkParam n stage (rules bp))
    ∧ readParam (<[featureFlag := OParam n stage rl']> (store st ++ k))
        backup = Some bp.
Proof.
  intros Hf Hb Hbp.
  destruct (readParam_lookup _ _ _ Hbp) as (brl & Hbl & Hbrs).
  destruct (cloneDeepRules_copies _ _ _ Hbrs)
    as (rl' & k & Hc & Hbd & Hfr & Hrd).
  pose proof (lookup_lt_Some _ _ _ Hf) as Hlt.
  set (h' := <[featureFlag := OParam n stage rl']> (store st ++ k)).
  assert (keeps (length (store st)) k h') as Hk.
  { apply keeps_insert; [done|]. apply keeps_self. }
  assert (h' !! featureFlag = Some (OParam n stage rl')) as Hf'.
  { apply list_lookup_insert_eq. rewrite length_app. lia. }
  assert (readParam h' featureFlag = Some (mkParam n stage (rules bp)))
    as Hnew.
  { unfold readParam. by rewrite Hf', (Hrd _ Hk). }
  exists rl', k. unfold clearChanges. simpl. rewrite Hf, Hb, Hbl, Hc.
  split_and!; [done | exact Hnew |]. fold h'.
  destruct (decide (backup = featureFlag)) as [->|Hne].
  - rewrite Hnew. f_equal. simplify_eq. by destruct bp.
  - eapply readParam_sub; [| |exact Hbp].
    + intros o Ho. unfold h'. rewrite list_lookup_insert_ne by done.
      by apply lookup_app_l_Some.
    + eapply sub_after_write; [exact Hf|]. simpl. tauto.
Qed.

Section Save.
Variable api : list Event → ApiCall → ApiOutcome.

(** The loop of the bulk save never leaves the model on flags that can be
    read, however it ends, and only adds objects to the store. *)
Lemma saveEach_grows fs : ∀ st ps,
  Forall2 (λ f p, readParam (store st) f = Some p) fs ps →
  ∃ st' k,
    (saveEach api fs st = Returned tt st'
     ∨ saveEach api fs st = Thrown "Unexpected error response." st')
    ∧ store st' = store st ++ k
    ∧ featureFlags st' = featureFlags st
    ∧ serverStage st' = serverStage st.
Proof.
  induction fs as [|f fs IH]; intros st ps Hfs.
  - exists st, []. rewrite app_nil_r. simpl. by split_and!; [left|..].
  - apply Forall2_cons_inv_l in Hfs as (p & ps' & Hp & Hfs' & ->).
    destruct (readParam_lookup _ _ _ Hp) as (rl & Hl & _).
    pose proof (updateFeatureFlag_step api st f (commitMessageFor (name p))
                  p Hp) as Hstep.
    simpl saveEach. rewrite Hl. fold (commitMessageFor (name p)).
    destruct (api (trace st) _) as [|[error|what]].
    + destruct Hstep as (b & k & _ & _ & _ & _ & Hrun). rewrite Hrun.
      simpl bind.
      lazymatch goal with
      | |- context [saveEach api fs ?s] =>
        destruct (IH s ps') as (st' & k2 & Hend & Hs & Hff & Hss)
      end.
      { simpl. eapply Forall2_impl; [exact Hfs'|]. intros ??.
        apply readParam_app. }
      exists st', (k ++ k2). simpl in *.
      split_and!; [done | by rewrite Hs, app_assoc | done | done].
    + rewrite Hstep. simpl bind.
      lazymatch goal with
      | |- context [saveEach api fs ?s] =>
        destruct (IH s ps') as (st' & k2 & Hend & Hs & Hff & Hss)
      end.
      { simpl. exact Hfs'. }
      exists st', k2. simpl in *. by split_and!.
    + rewrite Hstep. simpl bind. eexists _, []. rewrite app_nil_r.
      simpl. by split_and!; [right|..].
Qed.

End Save.

End ChangeTrackingFacts.

Import PersistenceMoreFacts ChangeTrackingFacts.

(** X13. Loading flags with distinct names returns with the server stage
    and the flags as loaded, and [isFeatureFlagChanged] returns [false] for
    every one of them. *)
Theorem reloadFeatureFlagsAsync_then_unchanged
    (dataServerStage : string) (dataFeatureFlags : list PlatformParameter)
    (st : State) :
  NoDup (name <$> dataFeatureFlags) →
  ∃ st',
    reloadFeatureFlagsAsync dataServerStage dataFeatureFlags st
    = Returned tt st'
    ∧ serverStage st' = dataServerStage
    ∧ Forall2 (λ f p, readParam (store st') f = Some p)
        (featureFlags st') dataFeatureFlags
    ∧ Forall (λ f, isFeatureFlagChanged f st' = Returned false st')
        (featureFlags st').
Proof.
  intros Hnd.
  destruct (newElems_builds readParamAt newParam newParam_builds
              readParamAt_stable dataFeatureFlags (store st))
    as (vs & k & Hn & Hm & _).
  apply readParamAt_refs in Hm.
  destruct (backupAll_spec (refs vs) dataFeatureFlags ∅ _ Hm Hnd)
    as (m' & k2 & Hrun & _ & Hall).
  unfold reloadFeatureFlagsAsync. rewrite Hn, Hrun.
  eexists. split; [done|]. simpl.
  assert (Forall2 (λ f p, readParam ((store st ++ k) ++ k2) f = Some p)
            (refs vs) dataFeatureFlags) as Hreads.
  { eapply Forall2_impl; [exact Hm|]. intros ??. apply readParam_app. }
  split_and!; [done | exact Hreads |].
  apply Forall_forall. intros f Hf.
  apply list_elem_of_lookup in Hf as [i Hi].
  destruct (Forall2_lookup_l _ _ _ _ _ Hreads Hi) as (p & Hpi & Hp).
  pose proof (proj1 (Forall_lookup _ _) Hall _ _ Hpi) as (b & Hb & Hbp).
  rewrite (isFeatureFlagChanged_run _ f p b p); try done.
  by rewrite isEqualRules_refl.
Qed.

Lemma reloadFeatureFlagsAsync_then_unchanged_witness :
  NoDup (name <$> [fooFlag; barFlag; bazFlag])
  ∧ ∃ st',
      reloadFeatureFlagsAsync "test" [fooFlag; barFlag; bazFlag] newComponent
      = Returned tt st'
      ∧ Forall (λ f, isFeatureFlagChanged f st' = Returned false st')
          (featureFlags st').
Proof.
  assert (NoDup (name <$> [fooFlag; barFlag; bazFlag])) as H by compute_done.
  split; [exact H|].
  destruct (reloadFeatureFlagsAsync_then_unchanged "test"
              [fooFlag; barFlag; bazFlag] newComponent H)
    as (st' & Hrun & _ & _ & Hall).
  exists st'. split; [exact Hrun | exact Hall].
Defined.

(** X14. After a save that the backend accepted, [isFeatureFlagChanged]
    returns [false] for the flag.  After a save that the backend rejected
    with an [HttpErrorResponse], it returns what it returned before the
    save. *)
Theorem updateFeatureFlag_then_isFeatureFlagChanged
    (api : list Event → ApiCall → ApiOutcome)
    (st : State) (feature : loc) (commitMessage : string)
    (p : PlatformParameter) :
  readParam (store st) feature = Some p →
  let call := mkCall (name p) commitMessage (Some (rules p)) in
  (api (trace st) call = Resolved →
     ∃ st',
       updateFeatureFlag api feature commitMessage st = Returned tt st'
       ∧ isFeatureFlagChanged feature st' = Returned false st')
  ∧ (∀ error b,
       api (trace st) call = Rejected (HttpErrorResponse error) →
       isFeatureFlagChanged feature st = Returned b st →
       ∃ st',
         updateFeatureFlag api feature commitMessage st = Returned tt st'
         ∧ isFeatureFlagChanged feature st' = Returned b st').
Proof.
  intros Hp call.
  pose proof (updateFeatureFlag_step api st feature commitMessage p Hp)
    as Hstep.
  fold call in Hstep. split.
  - intros Hapi. rewrite Hapi in Hstep.
    destruct Hstep as (b & k & _ & _ & _ & Hb & Hrun).
    eexists. split; [exact Hrun|].
    rewrite (isFeatureFlagChanged_run _ feature p b p); simpl.
    + by rewrite isEqualRules_refl.
    + by apply readParam_app.
    + apply lookup_insert_eq.
    + done.
  - intros error b Hapi Hbefore. rewrite Hapi in Hstep.
    eexists. split; [exact Hstep|].
    unfold isFeatureFlagChanged in *. simpl.
    repeat case_match; simplify_eq; done.
Qed.

Lemma updateFeatureFlag_then_isFeatureFlagChanged_witness :
  readParam (store edited) foo
  = Some (mkParam "Foo" "dev" [versionRule; flavorRule])
  ∧ isFeatureFlagChanged foo edited = Returned true edited
  ∧ ∃ st',
      updateFeatureFlag failingOnBar foo "Update feature 'Foo'." edited
      = Returned tt st'
      ∧ isFeatureFlagChanged foo st' = Returned false st'.
Proof.
  assert (readParam (store edited) foo
          = Some (mkParam "Foo" "dev" [versionRule; flavorRule])) as H
    by reflexivity.
  split_and!; [exact H | vm_compute; reflexivity |].
  destruct (updateFeatureFlag_then_isFeatureFlagChanged failingOnBar edited
              foo "Update feature 'Foo'." _ H) as [Hres _].
  exact (Hres eq_refl).
Defined.

(** X15. After [clearChanges] on a flag whose backup can be read, the flag
    has the backup's rules and [isFeatureFlagChanged] returns [false]. *)
Theorem clearChanges_then_unchanged
    (st : State) (featureFlag : loc) (n stage : string) (rl backup : loc)
    (bp : PlatformParameter) :
  store st !! featureFlag = Some (OParam n stage rl) →
  featureFlagNameToBackupMap st !! n = Some backup →
  readParam (store st) backup = Some bp →
  ∃ st',
    clearChanges true featureFlag st = Returned tt st'
    ∧ readParam (store st') featureFlag = Some (mkParam n stage (rules bp))
    ∧ isFeatureFlagChanged featureFlag st' = Returned false st'.
Proof.
  intros Hf Hb Hbp.
  destruct (clearChanges_run _ _ _ _ _ _ _ Hf Hb Hbp)
    as (rl' & k & Hrun & Hnew & Hbp').
  set (st' := setStore (<[featureFlag := OParam n stage rl']> (store st ++ k))
                st) in *.
  exists st'. split; [exact Hrun|]. split; [exact Hnew|].
  assert (isFeatureFlagChanged featureFlag st'
          = Returned
              (negb (isEqualRules (rules bp)
                       (rules (mkParam n stage (rules bp))))) st') as Hc.
  { apply (isFeatureFlagChanged_run st' featureFlag _ backup bp).
    - exact Hnew.
    - exact Hb.
    - exact Hbp'. }
  rewrite Hc. simpl rules. by rewrite isEqualRules_refl.
Qed.

Lemma clearChanges_then_unchanged_witness :
  isFeatureFlagChanged foo edited = Returned true edited
  ∧ ∃ st',
      clearChanges true foo edited = Returned tt st'
      ∧ readParam (store st') foo = Some fooFlag
      ∧ isFeatureFlagChanged foo st' = Returned false st'.
Proof.
  split; [vm_compute; reflexivity|].
  refine (clearChanges_then_unchanged edited foo "Foo" "dev" 25 fooBackup
            fooFlag _ _ _).
  - reflexivity.
  - vm_compute. reflexivity.
  - reflexivity.
Defined.



(** X17. Adding a rule, at the top or at the bottom, to a flag whose rules
    equal those of its backup, when the two do not share their rules array:
    [isFeatureFlagChanged] then returns [true]. *)
Theorem addNewRule_then_changed
    (st : State) (feature backup rl brl : loc) (n stage bn bstage : string)
    (rs : list PlatformParameterRule) (r0 : PlatformParameterRule) :
  store st !! feature = Some (OParam n stage rl) →
  featureFlagNameToBackupMap st !! n = Some backup →
  store st !! backup = Some (OParam bn bstage brl) →
  rl ≠ brl →
  readRules (store st) rl = Some rs →
  readRules (store st) brl = Some rs →
  readRule (store st) (VRef (defaultNewRule st)) = Some r0 →
  (∃ st',
     addNewRuleToTop feature st = Returned tt st'
     ∧ isFeatureFlagChanged feature st' = Returned true st')
  ∧ (∃ st',
       addNewRuleToBottom feature st = Returned tt st'
       ∧ isFeatureFlagChanged feature st' = Returned true st').
Proof.
  intros Hf Hb Hbk Hne Hrs Hbrs Hr.
  assert (∃ vs, store st !! rl = Some (OArray KRule vs)) as [vs Hrl].
  { unfold readRules, readArray in Hrs.
    destruct (store st !! rl) as [[|[] vs| | |]|]; try done. by exists vs. }
  assert (rulesOf (store st) feature = Some (rl, vs)) as Hro.
  { unfold rulesOf. by rewrite Hf, Hrl. }
  assert (feature ≠ rl) as Hfrl by (intros ->; congruence).
  assert (backup ≠ rl) as Hbrl by (intros ->; congruence).
  assert (∀ st' l' rs',
            featureFlagNameToBackupMap st' = featureFlagNameToBackupMap st →
            freshCopy (store st) (store st') rl l' r0 →
            readRules (store st') rl = Some rs' →
            length rs' ≠ length rs →
            isFeatureFlagChanged feature st' = Returned true st') as Hchanged.
  { intros st' l' rs' Hmap (_ & _ & _ & Hkeep & Hold & _) Hrs' Hlen.
    assert (readParam (store st') feature = Some (mkParam n stage rs')) as Hp.
    { unfold readParam. rewrite (Hkeep _ _ Hfrl Hf). by rewrite Hrs'. }
    assert (readParam (store st') backup = Some (mkParam bn bstage rs))
      as Hbp.
    { unfold readParam. rewrite (Hkeep _ _ Hbrl Hbk).
      assert (readRules (store st') brl = Some rs) as ->; [|done].
      eapply readArray_mono; [| |exact Hbrs].
      - intros o Ho. by apply Hkeep.
      - exact Hold. }
    rewrite (isFeatureFlagChanged_run st' feature (mkParam n stage rs')
               backup (mkParam bn bstage rs) Hp);
      [|by rewrite Hmap|exact Hbp].
    simpl. destruct (isEqualRules rs rs') eqn:E; [|done].
    apply isEqualRules_spec in E. by subst. }
  split.
  - destruct (clone_into_array _ _ _ _ _ _ (unshift vs) Hro Hr)
      as (l' & k & Hc & Hro' & Hfc).
    eexists. unfold addNewRuleToTop. rewrite Hro, Hc. split; [done|].
    destruct (rulesOf_lookup _ _ _ _ Hro') as [_ Hrl'].
    pose proof Hfc as (_ & _ & Hr' & _ & Hold & _).
    eapply (Hchanged _ l' (r0 :: rs)); simpl;
      [done | exact Hfc | by eapply readRules_unshift | lia].
  - destruct (clone_into_array _ _ _ _ _ _ (push vs) Hro Hr)
      as (l' & k & Hc & Hro' & Hfc).
    eexists. unfold addNewRuleToBottom. rewrite Hro, Hc. split; [done|].
    destruct (rulesOf_lookup _ _ _ _ Hro') as [_ Hrl'].
    pose proof Hfc as (_ & _ & Hr' & _ & Hold & _).
    eapply (Hchanged _ l' (rs ++ [r0])); simpl;
      [done | exact Hfc | by eapply readRules_push
      | rewrite length_app; simpl; lia].
Qed.

Lemma addNewRule_then_changed_witness :
  isFeatureFlagChanged foo loaded = Returned false loaded
  ∧ (∃ st',
       addNewRuleToTop foo loaded = Returned tt st'
       ∧ isFeatureFlagChanged foo st' = Returned true st')
  ∧ (∃ st',
       addNewRuleToBottom foo loaded = Returned tt st'
       ∧ isFeatureFlagChanged foo st' = Returned true st').
Proof.
  split; [vm_compute; reflexivity|].
  refine (addNewRule_then_changed loaded foo fooBackup 25 61
            "Foo" "dev" "Foo" "dev" (rules fooFlag) defaultRuleValue
            _ _ _ _ _ _ _).
  - reflexivity.
  - vm_compute. reflexivity.
  - reflexivity.
  - discriminate.
  - reflexivity.
  - reflexivity.
  - reflexivity.
Defined.

(** X18. On a server whose stage is none of [dev], [test] and [prod], as
    before the first load when it is the empty string, no flag is valid.  A
    flag that is valid on a [prod] server is valid on a [test] server, and
    one that is valid on a [test] server is valid on a [dev] server. *)
Theorem getFeatureValidOnCurrentServer_across_servers
    (st : State) (feature : loc) (n stage : string) (rl : loc) :
  store st !! feature = Some (OParam n stage rl) →
  (serverStage st ≠ "dev" → serverStage st ≠ "test" →
   serverStage st ≠ "prod" →
   getFeatureValidOnCurrentServer st feature = Some false)
  ∧ (getFeatureValidOnCurrentServer (onServer "prod" st) feature = Some true →
     getFeatureValidOnCurrentServer (onServer "test" st) feature = Some true)
  ∧ (getFeatureValidOnCurrentServer (onServer "test" st) feature = Some true →
     getFeatureValidOnCurrentServer (onServer "dev" st) feature = Some true).
Proof.
  intros Hf. unfold getFeatureValidOnCurrentServer. simpl. rewrite Hf.
  unfold DEV_SERVER_STAGE, TEST_SERVER_STAGE, PROD_SERVER_STAGE.
  split_and!.
  - intros Hd Ht Hp.
    destruct (String.eqb_spec (serverStage st) "dev"); [done|].
    destruct (String.eqb_spec (serverStage st) "test"); [done|].
    by destruct (String.eqb_spec (serverStage st) "prod").
  - simpl. destruct (String.eqb stage "prod"); [|done].
    by rewrite orb_true_r.
  - done.
Qed.

(** The component before its first load. *)
Lemma getFeatureValidOnCurrentServer_across_servers_witness :
  serverStage (onServer EmptyString loaded) = EmptyString
  ∧ getFeatureValidOnCurrentServer (onServer EmptyString loaded) baz
    = Some false
  ∧ getFeatureValidOnCurrentServer (onServer "prod" loaded) baz = Some true
  ∧ getFeatureValidOnCurrentServer (onServer "test" loaded) baz = Some true.
Proof.
  assert (store (onServer EmptyString loaded) !! baz
          = Some (OParam "Baz" "prod" 40)) as H1 by reflexivity.
  assert (store loaded !! baz = Some (OParam "Baz" "prod" 40)) as H2
    by reflexivity.
  destruct (getFeatureValidOnCurrentServer_across_servers
              (onServer EmptyString loaded) baz _ _ _ H1) as (Hnone & _ & _).
  destruct (getFeatureValidOnCurrentServer_across_servers
              loaded baz _ _ _ H2) as (_ & Hpt & _).
  assert (getFeatureValidOnCurrentServer (onServer "prod" loaded) baz
          = Some true) as Hprod by reflexivity.
  split_and!; [reflexivity | | exact Hprod | exact (Hpt Hprod)].
  apply Hnone; discriminate.
Defined.

(** X19. The bulk save, on flags that can be read, always ends by returning
    or by throwing [Error('Unexpected error response.')]; either way the
    list of flags, the server stage and every object of the store are what
    they were (the store only has backups in addition), so every flag reads
    as before.  When the user does not confirm, it returns with the state
    as it was. *)
Theorem saveDefaultValueToStorage_keeps_flags
    (api : list Event → ApiCall → ApiOutcome) (st : State)
    (ps : list PlatformParameter) :
  Forall2 (λ f p, readParam (store st) f = Some p) (featureFlags st) ps →
  saveDefaultValueToStorage api false st = Returned tt st
  ∧ ∃ st' k,
      (saveDefaultValueToStorage api true st = Returned tt st'
       ∨ saveDefaultValueToStorage api true st
         = Thrown "Unexpected error response." st')
      ∧ store st' = store st ++ k
      ∧ featureFlags st' = featureFlags st
      ∧ serverStage st' = serverStage st
      ∧ Forall2 (λ f p, readParam (store st') f = Some p)
          (featureFlags st') ps.
Proof.
  intros Hfs. split; [done|].
  destruct (saveEach_grows api _ _ _ Hfs) as (st' & k & Hend & Hs & Hff & Hss).
  exists st', k. unfold saveDefaultValueToStorage. simpl.
  split_and!; [exact Hend | exact Hs | exact Hff | exact Hss |].
  rewrite Hff, Hs. eapply Forall2_impl; [exact Hfs|]. intros ??.
  apply readParam_app.
Qed.

Lemma saveDefaultValueToStorage_keeps_flags_witness :
  ∃ st' k,
    (saveDefaultValueToStorage failingOnBar true loaded = Returned tt st'
     ∨ saveDefaultValueToStorage failingOnBar true loaded
       = Thrown "Unexpected error response." st')
    ∧ store st' = store loaded ++ k
    ∧ Forall2 (λ f p, readParam (store st') f = Some p)
        (featureFlags st') [fooFlag; barFlag; bazFlag].
Proof.
  assert (Forall2 (λ f p, readParam (store loaded) f = Some p)
            (featureFlags loaded) [fooFlag; barFlag; bazFlag]) as Hfs.
  { assert (featureFlags loaded = [foo; bar; baz]) as ->
      by (vm_compute; reflexivity).
    repeat (apply List.Forall2_cons; [vm_compute; reflexivity|]).
    apply List.Forall2_nil. }
  destruct (saveDefaultValueToStorage_keeps_flags failingOnBar loaded _ Hfs)
    as (_ & st' & k & Hend & Hs & _ & _ & Hreads).
  exists st', k. split_and!; [exact Hend | exact Hs | exact Hreads].
Defined.

(** X20. Two pairs of equal rules, [a] at the indices [i < j] and then [b]
    at the indices [m < q], everything else distinct: there are two issues.
    The first names the positions [i + 1] and [j + 1].  The second names
    [q + 1] and, as the earlier of the two, [m], which is the place of the
    first [b] among the rules seen and one less than its position [m + 1],
    since the second [a] was not counted. *)
Theorem validateFeatureFlag_two_pairs
    (feature : PlatformParameter) (i j m q : nat)
    (a b : PlatformParameterRule) :
  i < j → j < m → m < q →
  rules feature !! i = Some a → rules feature !! j = Some a →
  rules feature !! m = Some b → rules feature !! q = Some b →
  NoDup (delete j (delete q (rules feature))) →
  Forall distinctInside (rules feature) →
  validateFeatureFlag feature
  = [ruleIssue (Z.of_nat i) (Z.of_nat j);
     ruleIssue (Z.of_nat m - 1) (Z.of_nat q)].
Proof.
  intros Hij Hjm Hmq Hi Hj Hm Hq Hnd Hin.
  destruct (split_at_two _ _ _ _ Hmq Hm Hq)
    as (front & l4 & l5 & Hrs & Hfront & Hl4 & Hdelq).
  assert (front !! i = Some a ∧ front !! j = Some a) as [Hi' Hj'].
  { rewrite Hrs in Hi, Hj. rewrite lookup_app_l in Hi, Hj by lia. done. }
  destruct (split_at_two _ _ _ _ Hij Hi' Hj')
    as (l1 & l2 & l3 & Hf & Hl1 & Hl2 & Hdelj).
  assert (delete j (delete q (rules feature))
          = l1 ++ a :: l2 ++ l3 ++ b :: l4 ++ l5) as Hdel.
  { rewrite Hdelq.
    rewrite (delete_take_drop (front ++ b :: l4 ++ l5)).
    rewrite take_app_le, drop_app_le by lia.
    rewrite app_assoc, <- delete_take_drop, Hdelj.
    repeat (rewrite <- ?app_assoc; simpl). reflexivity. }
  rewrite Hdel in Hnd. clear Hdel Hdelq Hdelj.
  assert (rules feature
          = l1 ++ a :: l2 ++ a :: l3 ++ b :: l4 ++ b :: l5) as Hall.
  { rewrite Hrs, Hf. repeat (rewrite <- ?app_assoc; simpl). reflexivity. }
  rewrite Hall in Hin.
  assert (Forall distinctInside (l1 ++ [a]) ∧ Forall distinctInside l2
          ∧ Forall distinctInside (l3 ++ [b]) ∧ Forall distinctInside l4
          ∧ Forall distinctInside l5) as (Hd1 & Hd2 & Hd3 & Hd4 & Hd5).
  { repeat (rewrite ?Forall_app, ?Forall_cons in Hin).
    rewrite !Forall_app, !Forall_singleton. tauto. }
  assert (NoDup ((l1 ++ a :: [] ++ l2) ++ l3 ++ [b])) as Hn3.
  { replace ((l1 ++ a :: [] ++ l2) ++ l3 ++ [b])
      with (l1 ++ a :: l2 ++ l3 ++ [b])
      by (repeat (rewrite <- ?app_assoc; simpl); reflexivity).
    replace (l1 ++ a :: l2 ++ l3 ++ b :: l4 ++ l5)
      with ((l1 ++ a :: l2 ++ l3 ++ [b]) ++ l4 ++ l5) in Hnd
      by (repeat (rewrite <- ?app_assoc; simpl); reflexivity).
    by apply NoDup_app in Hnd as [? _]. }
  assert (NoDup (l1 ++ a :: [] ++ l2)) as Hn2.
  { by apply NoDup_app in Hn3 as [? _]. }
  assert (NoDup (l1 ++ [a])) as Hn1.
  { simpl in Hn2. rewrite (cons_middle a), app_assoc in Hn2.
    by apply NoDup_app in Hn2 as [? _]. }
  assert (NoDup ((l1 ++ a :: l2 ++ l3) ++ b :: [] ++ l4)) as Hn4.
  { replace (l1 ++ a :: l2 ++ l3 ++ b :: l4 ++ l5)
      with (((l1 ++ a :: l2 ++ l3) ++ b :: [] ++ l4) ++ l5) in Hnd
      by (repeat (rewrite <- ?app_assoc; simpl); reflexivity).
    by apply NoDup_app in Hnd as [? _]. }
  assert (NoDup (((l1 ++ a :: l2 ++ l3) ++ b :: [] ++ l4) ++ l5)) as Hn5.
  { replace (((l1 ++ a :: l2 ++ l3) ++ b :: [] ++ l4) ++ l5)
      with (l1 ++ a :: l2 ++ l3 ++ b :: l4 ++ l5)
      by (repeat (rewrite <- ?app_assoc; simpl); reflexivity).
    done. }
  unfold validateFeatureFlag. rewrite Hall.
  rewrite rulesLoop_first_time by done.
  rewrite (rulesLoop_again _ l1 a [] l2) by done.
  rewrite (cons_middle b l3), app_assoc, rulesLoop_app.
  rewrite (rulesLoop_distinct _ (l3 ++ [b])) by done.
  replace ((l1 ++ a :: [] ++ l2) ++ l3 ++ [b])
    with ((l1 ++ a :: l2 ++ l3) ++ b :: [])
    by (repeat (rewrite <- ?app_assoc; simpl); reflexivity).
  rewrite (rulesLoop_again _ (l1 ++ a :: l2 ++ l3) b [] l4) by done.
  rewrite rulesLoop_distinct by done.
  assert (m = length l1 + length l2 + length l3 + 2) as Hm'.
  { rewrite <- Hfront, Hf. repeat (rewrite ?length_app; simpl). lia. }
  simpl. repeat (rewrite ?length_app; simpl).
  f_equal; [f_equal; lia|]. f_equal. f_equal; lia.
Qed.

Lemma validateFeatureFlag_two_pairs_witness :
  validateFeatureFlag MoreExamples.flagWithTwoPairs
  = ["The 1-th & 2-th rules are identical.";
     "The 2-th & 4-th rules are identical."].
Proof.
  rewrite (validateFeatureFlag_two_pairs MoreExamples.flagWithTwoPairs
             0 1 2 3 webRule versionRule).
  - vm_compute. reflexivity.
  - lia.
  - lia.
  - lia.
  - reflexivity.
  - reflexivity.
  - reflexivity.
  - reflexivity.
  - compute_done.
  - compute_done.
Defined.
